(** * lingua: regular expressions compiled to ε-NFAs, and a stack automaton

    A shallow embedding of the Python sources
      - [automata/nfa.py]                (NFA, EPSILON_NFA)
      - [automata/pda.py]                (DeterministicPDA)
      - [grammar/operators.py]           (operator tree nodes)
      - [grammar/regular_expressions.py] (RegEx: parser and checker)
      - [grammar/lexers.py]              (Token, Lexer)
    together with the properties stated about them.

    Python values are modelled as follows: a [str] is a [string], a single
    character is a one-character [string]; a [set] of states is a
    [gset string] of state names (a state object is identified with its
    name, which is unique inside its automaton); a [dict] is a [gmap]; a
    raised exception is the [Raise] branch of [result]. *)

From Stdlib Require Import Ascii.
From Stdlib Require DecimalString.
From stdpp Require Import gmap strings list fin_maps.

(** ** Exceptions and the error monad *)

Inductive exn : Type :=
| ValueError (msg : string)
| KeyError (key : string)
| IndexError
| TypeError
| UnboundLocalError
| AttributeError
| OperatorInputTypeError (msg : string)
| FuelExhausted.

Inductive result (A : Type) : Type :=
| Ok (x : A)
| Raise (e : exn).

Arguments Ok {A} x.
Arguments Raise {A} e.

#[global] Instance result_ret : MRet result := fun A x => Ok x.
#[global] Instance result_bind : MBind result := fun A B f m =>
  match m with
  | Ok x => f x
  | Raise e => Raise e
  end.

(** [for x in xs: st = body st x], stopping at the first exception. *)
Fixpoint for_each {A S : Type} (xs : list A) (st : S)
    (body : S → A → result S) : result S :=
  match xs with
  | [] => Ok st
  | x :: xs' =>
      match body st x with
      | Ok st' => for_each xs' st' body
      | Raise e => Raise e
      end
  end.

Definition is_ok {A : Type} (r : result A) : Prop :=
  match r with Ok _ => True | Raise _ => False end.

(** ** State graph and automaton (automata/nfa.py) *)

Module Automata.

(** The transitions stored in one state: input symbol ↦ set of successors. *)
Abbreviation transitions := (gmap string (gset string)).

Record FA : Type := mkFA {
  states : gmap string transitions;
  inputs : gset string;
  start_state : string;
  accepted_states : gset string;
  current : gset string;
  _epsilon : string
}.

Definition set_current (a : FA) (c : gset string) : FA :=
  {| states := states a; inputs := inputs a; start_state := start_state a;
     accepted_states := accepted_states a; current := c;
     _epsilon := _epsilon a |}.

(** Modelled from the spec: [State.forward] of automata/state.py, which is
    not part of the sources at hand: "returns successor set (empty if
    none)". *)
Definition forward (st : transitions) (symbol : string) : gset string :=
  default ∅ (st !! symbol).

(** The state object a reference designates.  A reference to a name the
    automaton does not own has no transitions. *)
Definition state_obj (a : FA) (name : string) : transitions :=
  default ∅ (states a !! name).

(** Modelled from the spec: [FiniteAutomaton.__contains__] (automata/fa.py is
    not part of the sources at hand): a state belongs to the automaton when
    its name is one of the automaton's states. *)
Definition contains (a : FA) (state : string) : bool :=
  bool_decide (state ∈ dom (states a)).

(** Modelled from the spec: [FiniteAutomaton._get_alias] (automata/fa.py):
    composition rewrites the names inside the result, so that inside one
    automaton a name is its own alias. *)
Definition _get_alias (a : FA) (name : string) : string := name.

(** Modelled from the spec: [FiniteAutomaton._input_error], the text of the
    invalid-input error; it carries the offending symbol. *)
Definition _input_error (a : FA) (value : string) : string := value.

(** [self.states[key]] *)
Definition states_getitem (a : FA) (key : string) : result string :=
  match states a !! key with
  | Some _ => Ok key
  | None => Raise (KeyError key)
  end.

(** [NFA._access] (nfa.py, lines 13-35).  [sorted(list(self.current))] is
    the set's elements in some fixed order. *)
Definition NFA_access (a : FA) (value : string) : result FA :=
  if decide (value ∈ inputs a) then
    old_currents ←
      for_each (elements (current a)) (∅ : gset string) (fun old_currents state =>
        let res := forward (state_obj a state) value in
        for_each (elements res) old_currents (fun old_currents end_ =>
          tgt ← states_getitem a (_get_alias a end_);
          Ok (old_currents ∪ {[tgt]})));
    Ok (set_current a old_currents)
  else Raise (ValueError (_input_error a value)).

(** [EPSILON_NFA._e_closure] (nfa.py, lines 46-59), called with a state
    object and an explicit accumulator, as [_e_closures] does.  The
    accumulator is mutated in place and returned; here it is threaded
    through.  The recursion is bounded by [fuel]; [e_fuel] always
    suffices (lemma [e_closure_post]). *)
Fixpoint _e_closure (fuel : nat) (a : FA) (state : string)
    (closure : gset string) : result (gset string) :=
  match fuel with
  | 0 => Raise FuelExhausted
  | S fuel' =>
      if contains a state then
        for_each (elements (forward (state_obj a state) (_epsilon a)))
          (closure ∪ {[state]})
          (fun closure eps =>
             if decide (eps ∈ closure) then Ok closure
             else _e_closure fuel' a eps closure)
      else Raise (ValueError (_input_error a state))
  end.

Definition e_fuel (a : FA) : nat := S (S (size (states a))).

(** [EPSILON_NFA._e_closures] (nfa.py, lines 61-67).  [states] is the
    argument tuple, so [currents] starts as [set(states)]; each call of
    [_e_closure] mutates [currents] and returns that same set, which
    [|=] then joins with itself. *)
Definition _e_closures (a : FA) (states_ : list string) : result (gset string) :=
  for_each states_ (list_to_set states_ : gset string) (fun currents i =>
    closure ← _e_closure (e_fuel a) a i currents;
    Ok (closure ∪ closure)).

(** [EPSILON_NFA._all_closures] *)
Definition _all_closures (a : FA) : result (gset string) :=
  _e_closures a (elements (current a)).

(** [EPSILON_NFA._access] (nfa.py, lines 73-77) *)
Definition _access (a : FA) (value : string) : result FA :=
  a' ← NFA_access a value;
  c ← _all_closures a';
  Ok (set_current a' c).

(** Modelled from the spec: [FiniteAutomaton._process] (automata/fa.py):
    the symbols of the entry are accessed one by one, left to right. *)
Definition FA_process (access : FA → string → result FA) (a : FA)
    (entry : list string) : result FA :=
  for_each entry a access.

(** [EPSILON_NFA._process] (nfa.py, lines 79-83) *)
Definition _process (a : FA) (entry : list string) : result FA :=
  c ← _all_closures a;
  FA_process _access (set_current a c) entry.

(** Modelled from the spec: [FiniteAutomaton.enter] (automata/fa.py):
    [enter(symbol)] hands the symbol to [_process]. *)
Definition enter (a : FA) (symbol : string) : result FA :=
  _process a [symbol].

(** Modelled from the spec: [FiniteAutomaton.reset] (automata/fa.py):
    "current set ← ε-closure({start})". *)
Definition reset (a : FA) : result FA :=
  c ← _e_closures a [start_state a];
  Ok (set_current a c).

(** Modelled from the spec: [FiniteAutomaton.accepted] (automata/fa.py):
    "true iff current set intersects accept-set". *)
Definition accepted (a : FA) : bool :=
  bool_decide (current a ∩ accepted_states a ≠ ∅).

End Automata.

(** ** ε-closure: what the worklist computes *)

Module Closure.
Import Automata.

Section closure.
Variable a : FA.

(** One ε-move between state names. *)
Definition eps_step (x y : string) : Prop :=
  y ∈ forward (state_obj a x) (_epsilon a).

Definition eps_closed (C : gset string) : Prop :=
  ∀ x y, x ∈ C → eps_step x y → y ∈ C.

(** [C] is the smallest superset of [S] closed under ε-moves. *)
Definition least_closed (S C : gset string) : Prop :=
  S ⊆ C ∧ eps_closed C ∧ ∀ C', S ⊆ C' → eps_closed C' → C ⊆ C'.

Definition owned (x : string) : Prop := x ∈ dom (states a).

(** Every ε-target of an owned state is owned. *)
Definition eps_targets_owned : Prop :=
  ∀ x y, owned x → eps_step x y → owned y.

(** What one call of [_e_closure] on [x] with accumulator [V] yields. *)
Definition dfs_post (x : string) (V : gset string)
    (r : result (gset string)) : Prop :=
  match r with
  | Ok V' =>
      V ∪ {[x]} ⊆ V' ∧
      (∀ y, y ∈ V' → y ∈ V ∨ rtc eps_step x y) ∧
      (∀ y, (y ∈ V' ∧ y ∉ V) ∨ y = x →
            owned y ∧ ∀ z, eps_step y z → z ∈ V')
  | Raise e =>
      ∃ y, e = ValueError (_input_error a y) ∧ ¬ owned y ∧ rtc eps_step x y
  end.

End closure.
End Closure.

(** ** Structural invariants of the data model and the step on sets *)

Module Invariants.
Import Automata Closure.

(** Every transition of an owned state leads to an owned state, and the
    start, accept and current states are owned. *)
Record wf (a : FA) : Prop := mk_wf {
  wf_targets : ∀ x sym y,
    owned a x → y ∈ forward (state_obj a x) sym → owned a y;
  wf_start : owned a (start_state a);
  wf_accepted : accepted_states a ⊆ dom (states a);
  wf_current : current a ⊆ dom (states a)
}.

(** [⋃ { forward(s, symbol) | s ∈ S }] *)
Definition step_set (a : FA) (S : gset string) (symbol : string) : gset string :=
  ⋃ ((fun s => forward (state_obj a s) symbol) <$> elements S).

End Invariants.

(** ** Python sequences: indexing and slicing *)

Module Py.

(** [len(l)] as an integer *)
Definition len {A : Type} (l : list A) : Z := Z.of_nat (length l).

(** [l[i]]: a negative index counts from the end; out of range raises. *)
Definition getitem {A : Type} (l : list A) (i : Z) : result A :=
  let j := (if i <? 0 then i + len l else i)%Z in
  if (j <? 0)%Z then Raise IndexError
  else match l !! Z.to_nat j with
       | Some x => Ok x
       | None => Raise IndexError
       end.

(** A slice bound for a positive step: negative bounds count from the
    end, and the bound is clamped to [0, len]. *)
Definition clamp (n i : Z) : Z :=
  (if i <? 0 then Z.max 0 (i + n) else Z.min i n)%Z.

(** [l[lo:hi]] *)
Definition getslice {A : Type} (l : list A) (lo hi : Z) : list A :=
  let lo' := clamp (len l) lo in
  let hi' := clamp (len l) hi in
  take (Z.to_nat (hi' - lo')) (drop (Z.to_nat lo') l).

Fixpoint every_other {A : Type} (l : list A) : list A :=
  match l with
  | x :: _ :: l' => x :: every_other l'
  | _ => l
  end.

(** [l[lo:hi:2]] *)
Definition getslice2 {A : Type} (l : list A) (lo hi : Z) : list A :=
  every_other (getslice l lo hi).

(** [l[lo:hi] = new] *)
Definition setslice {A : Type} (l : list A) (lo hi : Z) (new : list A) : list A :=
  let lo' := clamp (len l) lo in
  let hi' := Z.max lo' (clamp (len l) hi) in
  take (Z.to_nat lo') l ++ new ++ drop (Z.to_nat hi') l.

(** [l[i] = x] *)
Definition setitem {A : Type} (l : list A) (i : Z) (x : A) : result (list A) :=
  let j := (if i <? 0 then i + len l else i)%Z in
  if (j <? 0)%Z || (len l <=? j)%Z then Raise IndexError
  else Ok (<[Z.to_nat j := x]> l).

(** [enumerate(l)] *)
Definition enumerate {A : Type} (l : list A) : list (Z * A) :=
  imap (fun i x => (Z.of_nat i, x)) l.

(** The characters of a [str], each a one-character [str]. *)
Fixpoint chars (s : string) : list string :=
  match s with
  | EmptyString => []
  | String c s' => String c EmptyString :: chars s'
  end.

(** [''.join(l)] *)
Definition join (l : list string) : string := foldr String.append EmptyString l.

(** [s[lo:hi]] on a [str] *)
Definition str_slice (s : string) (lo hi : Z) : string :=
  join (getslice (chars s) lo hi).

(** [s[:-1]] *)
Definition drop_last (s : string) : string :=
  str_slice s 0 (-1).

(** [ord(c)] for a one-character [str] *)
Definition ord_str (s : string) : result nat :=
  match s with
  | String c EmptyString => Ok (Ascii.nat_of_ascii c)
  | _ => Raise TypeError
  end.

(** [chr(i)] *)
Definition chr (i : nat) : string := String (Ascii.ascii_of_nat i) EmptyString.

(** [range(lo, hi)] *)
Definition range (lo hi : nat) : list nat := seq lo (hi - lo).

End Py.

(** ** Building automata: constructor, text form, composition *)

Module Build.
Import Automata.
Local Open Scope string_scope.

(** The default ε-symbol. *)
Definition EPSILON : string := "$".

(** [EPSILON_NFA.__init__] (nfa.py, lines 39-44): the ε-symbol joins the
    inputs.  The base constructor of automata/fa.py is not part of the
    sources at hand; the accept set is handed over explicitly and the
    machine starts in its start state. *)
Definition EPSILON_NFA_init (sts : gmap string transitions)
    (accept : gset string) (ins : gset string) (start : string)
    (epsilon : string) : FA :=
  {| states := sts; inputs := ins ∪ {[epsilon]}; start_state := start;
     accepted_states := accept; current := {[start]}; _epsilon := epsilon |}.

(** Modelled from the spec: [State.add_transition] of automata/state.py:
    "adds target_state to the successor set for symbol". *)
Definition add_transition (sts : gmap string transitions)
    (src symbol dst : string) : gmap string transitions :=
  alter (fun tr => <[symbol := forward tr symbol ∪ {[dst]}]> tr) src sts.

(** *** Text form (spec, section 6.1)

    Modelled from the spec: the reader of the text form belongs to
    automata/fa.py and form/generators.py, which are not part of the
    sources at hand.  [is_space], [lstrip], [strip], [split_on], [cut_at],
    [cut_arrow], [is_blank], [names_of] and [parse_transition] are its
    parts: lines are separated by line breaks, names by commas, "whitespace
    surrounding commas and names is ignored", and a transition line reads
    [src,symbol->dst]. *)

Definition is_space (c : Ascii.ascii) : bool :=
  let n := Ascii.nat_of_ascii c in
  bool_decide (n = 32 ∨ (9 ≤ n ∧ n ≤ 13))%nat.

Fixpoint lstrip (s : string) : string :=
  match s with
  | String c s' => if is_space c then lstrip s' else s
  | EmptyString => EmptyString
  end.

Definition strip (s : string) : string :=
  String.rev (lstrip (String.rev (lstrip s))).

Fixpoint split_on (sep : Ascii.ascii) (s : string) : list string :=
  match s with
  | EmptyString => [EmptyString]
  | String c s' =>
      if Ascii.eqb c sep then EmptyString :: split_on sep s'
      else match split_on sep s' with
           | w :: ws => String c w :: ws
           | [] => [String c EmptyString]
           end
  end.

(** The text before and after the first [sep]. *)
Fixpoint cut_at (sep : Ascii.ascii) (s : string) : option (string * string) :=
  match s with
  | EmptyString => None
  | String c s' =>
      if Ascii.eqb c sep then Some (EmptyString, s')
      else prod_map (String c) id <$> cut_at sep s'
  end.

(** The text before and after the first [->]. *)
Fixpoint cut_arrow (s : string) : option (string * string) :=
  match s with
  | EmptyString => None
  | String c s' =>
      match s' with
      | String c' rest =>
          if Ascii.eqb c "-"%char && Ascii.eqb c' ">"%char then Some (EmptyString, rest)
          else prod_map (String c) id <$> cut_arrow s'
      | EmptyString => None
      end
  end.

Definition is_blank (s : string) : bool :=
  bool_decide (strip s = EmptyString).

(** Comma-separated names; surrounding whitespace is ignored. *)
Definition names_of (line : string) : list string :=
  filter (fun n => n ≠ EmptyString) (strip <$> split_on ","%char line).

(** A transition line [src,symbol->dst]. *)
Definition parse_transition (line : string) : result (string * string * string) :=
  match cut_arrow line with
  | Some (lhs, dst) =>
      match cut_at ","%char lhs with
      | Some (src, symbol) => Ok (strip src, strip symbol, strip dst)
      | None => Raise (ValueError line)
      end
  | None => Raise (ValueError line)
  end.

Definition newline : Ascii.ascii := Ascii.ascii_of_nat 10.

(** Modelled from the spec: [EpsilonNFA.factory] with the standard format
    generator (automata/fa.py and form/generators.py are not part of the
    sources at hand), after section 6.1: five newline-separated sections,
    "whitespace surrounding commas and names is ignored", "a state named
    in transitions must appear in the states line"; start and accept
    states must be states (section 3). *)
Definition factory (text : string) : result FA :=
  match split_on newline text with
  | l_states :: l_inputs :: l_accept :: l_start :: l_transitions =>
      let names : gset string := list_to_set (names_of l_states) in
      let accept : gset string := list_to_set (names_of l_accept) in
      let start := strip l_start in
      let sts0 : gmap string transitions := gset_to_gmap ∅ names in
      sts ← for_each (filter (fun l => is_blank l = false) l_transitions) sts0
        (fun sts line =>
           '(src, symbol, dst) ← parse_transition line;
           if bool_decide (src ∈ names ∧ dst ∈ names)
           then Ok (add_transition sts src symbol dst)
           else Raise (ValueError line));
      if bool_decide (start ∈ names ∧ accept ⊆ names)
      then Ok (EPSILON_NFA_init sts accept (list_to_set (names_of l_inputs))
                 start EPSILON)
      else Raise (ValueError text)
  | _ => Raise (ValueError text)
  end.

(** *** Alias renaming (spec, section 4.1)

    Modelled from the spec: the renaming belongs to automata/fa.py, which
    is not part of the sources at hand: "states from the right-hand
    automaton whose names collide with left-hand states receive fresh names
    drawn from a monotonic counter scoped to the result automaton", applied
    "consistently to all transitions referring to the renamed state".  The
    spelling of the fresh names ([q0], [q1], ...) is this model's. *)

(** The name the counter stands for. *)
Definition counter_name (counter : nat) : string :=
  "q" ++ DecimalString.NilZero.string_of_uint (Nat.to_uint counter).

(** The next name of the counter that is not in use, and the advanced
    counter.  Among [size used + 1] consecutive names one is free. *)
Fixpoint fresh_from (fuel counter : nat) (used : gset string) : string * nat :=
  match fuel with
  | 0 => (counter_name counter, S counter)
  | S fuel' =>
      if decide (counter_name counter ∈ used)
      then fresh_from fuel' (S counter) used
      else (counter_name counter, S counter)
  end.

Definition fresh (used : gset string) (counter : nat) : string * nat :=
  fresh_from (S (size used)) counter used.

(** The renaming of the names of [names] that collide with [taken]: each
    receives a fresh name; [used] collects every name in use. *)
Fixpoint alias_map (taken : gset string) (names : list string)
    (used : gset string) (counter : nat)
    : gmap string string * gset string * nat :=
  match names with
  | [] => (∅, used, counter)
  | n :: names' =>
      if decide (n ∈ taken) then
        let '(f, counter') := fresh used counter in
        let '(ρ, used', counter'') :=
          alias_map taken names' (used ∪ {[f]}) counter' in
        (<[n := f]> ρ, used', counter'')
      else alias_map taken names' used counter
  end.

Definition apply_alias (ρ : gmap string string) (n : string) : string :=
  default n (ρ !! n).

Definition rename_set (ρ : gmap string string) (X : gset string) : gset string :=
  set_map (apply_alias ρ) X.

Definition rename_states (ρ : gmap string string)
    (sts : gmap string transitions) : gmap string transitions :=
  list_to_map
    (prod_map (apply_alias ρ) (fmap (rename_set ρ)) <$> map_to_list sts).

(** The renaming applied "consistently to all transitions referring to the
    renamed state". *)
Definition rename (ρ : gmap string string) (a : FA) : FA :=
  {| states := rename_states ρ (states a);
     inputs := inputs a;
     start_state := apply_alias ρ (start_state a);
     accepted_states := rename_set ρ (accepted_states a);
     current := rename_set ρ (current a);
     _epsilon := _epsilon a |}.

(** The right-hand operand with its colliding names replaced, the names in
    use afterwards, and the advanced counter. *)
Definition alias_rename (taken : gset string) (b : FA) (counter : nat)
    : FA * gset string * nat :=
  let '(ρ, used, counter') :=
    alias_map taken (elements (dom (states b)))
      (taken ∪ dom (states b)) counter in
  (rename ρ b, used, counter').

(** ε-transitions from every state of [srcs] to [dst]. *)
Definition link_all (sts : gmap string transitions) (epsilon : string)
    (srcs : gset string) (dst : string) : gmap string transitions :=
  foldr (fun src sts => add_transition sts src epsilon dst) sts (elements srcs).

(** *** Composition (spec, section 4.2) *)

(** Modelled from the spec: [FiniteAutomaton.deepcopy] (automata/fa.py):
    "an independent Automaton with freshly named but isomorphic states". *)
Definition deepcopy (a : FA) : FA :=
  (alias_rename (dom (states a)) a 0).1.1.

(** Modelled from the spec: [FiniteAutomaton.__add__] (automata/fa.py),
    the Thompson alternation: a fresh start with ε-transitions to the
    starts of both operands, a fresh accept reached by ε from every accept
    of both operands; the accept set is the new accept alone. *)
Definition union (a b : FA) : FA :=
  let '(b', used, counter) := alias_rename (dom (states a)) b 0 in
  let '(s, counter) := fresh used counter in
  let '(f, counter) := fresh (used ∪ {[s]}) counter in
  let eps := _epsilon a in
  let sts := <[f := ∅]> (<[s := ∅]> (states a ∪ states b')) in
  let sts := add_transition sts s eps (start_state a) in
  let sts := add_transition sts s eps (start_state b') in
  let sts := link_all sts eps (accepted_states a ∪ accepted_states b') f in
  EPSILON_NFA_init sts {[f]} (inputs a ∪ inputs b) s eps.

(** Modelled from the spec: [FiniteAutomaton.__mul__] (automata/fa.py),
    the concatenation: ε-transitions from every accept of the left operand
    to the start of the right one; the start is the left start, the accept
    set is the right accept set. *)
Definition concat (a b : FA) : FA :=
  let '(b', used, counter) := alias_rename (dom (states a)) b 0 in
  let eps := _epsilon a in
  let sts := states a ∪ states b' in
  let sts := link_all sts eps (accepted_states a) (start_state b') in
  EPSILON_NFA_init sts (accepted_states b') (inputs a ∪ inputs b)
    (start_state a) eps.

(** Modelled from the spec: [FiniteAutomaton.kleene_operator]
    (automata/fa.py): a fresh start and a fresh accept; ε-transitions
    new-start → old start, new-start → new-accept, and from every old
    accept to the new start and to the new accept. *)
Definition kleene_operator (a : FA) : FA :=
  let used := dom (states a) in
  let '(s, counter) := fresh used 0 in
  let '(f, counter) := fresh (used ∪ {[s]}) counter in
  let eps := _epsilon a in
  let sts := <[f := ∅]> (<[s := ∅]> (states a)) in
  let sts := add_transition sts s eps (start_state a) in
  let sts := add_transition sts s eps f in
  let sts := link_all sts eps (accepted_states a) s in
  let sts := link_all sts eps (accepted_states a) f in
  EPSILON_NFA_init sts {[f]} (inputs a) s eps.

(** Modelled from the spec: the automaton of [Single] (the class is not in
    operators.py at hand): "Start s0, accept s1, one transition
    s0 --a--> s1 for character a". *)
Definition single_automaton (c : string) : FA :=
  EPSILON_NFA_init
    (add_transition (<["s1" := ∅]> (<["s0" := ∅]> ∅)) "s0" c "s1")
    {["s1"]} {[c]} "s0" EPSILON.

End Build.

(** ** Operator tree nodes (grammar/operators.py) *)

Module Operators.
Import Automata Build.
Local Open Scope string_scope.

(** What a group of the parser holds, and what an operator may be handed:
    a [str], a nested [list], or an operator node. *)
Inductive item : Type :=
| Str (s : string)
| Lst (l : list item)
| Op (o : Operator)
with Operator : Type :=
| Single (x : item)
| Collation (first last : item)
| Alternation (first last : item)
| Concatenation (first last : item)
| KleeneStar (x : item)
| KleenePlus (x : item)
| QuestionMark (x : item).

Inductive op_class : Type :=
| CSingle | CCollation | CAlternation | CConcatenation
| CKleeneStar | CKleenePlus | CQuestionMark.

(** The classes that occur in the [_item_types] sets. *)
Inductive pytype : Type := TStr | TOperator.

(** The static [_item_types] of each class.  [Single] is modelled from the
    spec ("Single(char)"); its class is not in operators.py at hand. *)
Definition _item_types (c : op_class) : list pytype :=
  match c with
  | CSingle => [TStr]
  | CCollation => [TStr]
  | _ => [TStr; TOperator]
  end.

Definition isinstance (x : item) (t : pytype) : bool :=
  match x, t with
  | Str _, TStr => true
  | Op _, TOperator => true
  | _, _ => false
  end.

Definition class_of (o : Operator) : op_class :=
  match o with
  | Single _ => CSingle
  | Collation _ _ => CCollation
  | Alternation _ _ => CAlternation
  | Concatenation _ _ => CConcatenation
  | KleeneStar _ => CKleeneStar
  | KleenePlus _ => CKleenePlus
  | QuestionMark _ => CQuestionMark
  end.

Definition op_class_name (c : op_class) : string :=
  match c with
  | CSingle => "Single"
  | CCollation => "Collation"
  | CAlternation => "Alternation"
  | CConcatenation => "Concatenation"
  | CKleeneStar => "KleeneStar"
  | CKleenePlus => "KleenePlus"
  | CQuestionMark => "QuestionMark"
  end.

(** [item.__class__.__name__] *)
Definition class_name (x : item) : string :=
  match x with
  | Str _ => "str"
  | Lst _ => "list"
  | Op o => op_class_name (class_of o)
  end.

(** [Operator._check_type_err] (lines 34-50), for the set of valid types
    of the class under construction. *)
Definition _check_type_err (valid_item_types : list pytype) (x : item)
    : result unit :=
  match valid_item_types with
  | [] => Ok tt
  | _ =>
      let valid_flag :=
        foldl (fun flag valid_type =>
                 if isinstance x valid_type then true else flag)
              false valid_item_types in
      if valid_flag then Ok tt
      else Raise (OperatorInputTypeError
                    (class_name x ++ " is an invalid input type!"))
  end.

(** [UnaryOperator.__init__] *)
Definition UnaryOperator_init (c : op_class) (x : item) : result unit :=
  _check_type_err (_item_types c) x.

(** [BinaryOperator.__init__] *)
Definition BinaryOperator_init (c : op_class) (first last : item) : result unit :=
  _ ← _check_type_err (_item_types c) first;
  _check_type_err (_item_types c) last.

(** The constructors of the classes.  [new_Single] is modelled from the
    spec: the class [Single] is not in operators.py at hand; by the spec it
    is a unary operator over a character. *)
Definition new_Single (x : item) : result Operator :=
  _ ← UnaryOperator_init CSingle x; Ok (Single x).
Definition new_Collation (first_character ending_character : item)
    : result Operator :=
  _ ← BinaryOperator_init CCollation first_character ending_character;
  Ok (Collation first_character ending_character).
Definition new_Alternation (first_item second_item : item) : result Operator :=
  _ ← BinaryOperator_init CAlternation first_item second_item;
  Ok (Alternation first_item second_item).
Definition new_Concatenation (first_item second_item : item) : result Operator :=
  _ ← BinaryOperator_init CConcatenation first_item second_item;
  Ok (Concatenation first_item second_item).
Definition new_KleeneStar (x : item) : result Operator :=
  _ ← UnaryOperator_init CKleeneStar x; Ok (KleeneStar x).
Definition new_KleenePlus (x : item) : result Operator :=
  _ ← UnaryOperator_init CKleenePlus x; Ok (KleenePlus x).
Definition new_QuestionMark (x : item) : result Operator :=
  _ ← UnaryOperator_init CQuestionMark x; Ok (QuestionMark x).

(** [ord(x)] *)
Definition ord (x : item) : result nat :=
  match x with
  | Str s => Py.ord_str s
  | _ => Raise TypeError
  end.

(** [Collation.all_characters] (lines 102-109) *)
Definition all_characters (first last : item) : result (list string) :=
  lo ← ord first;
  hi ← ord last;
  Ok (Py.chr <$> Py.range lo (hi + 1)).

Definition nl : string := String newline EmptyString.

(** The texts handed to the factory, with the line breaks and the
    indentation of the source. *)
Definition collation_text (inputs result_ : string) : string :=
  "c0,c1
            " ++ inputs ++ "
            c1
            c0
            " ++ result_.

Definition alternation_text (x : string) : string :=
  "u0, u1
                " ++ x ++ "
                u1
                u0
                u0," ++ x ++ "->u1".

Definition concatenation_first_text (x : string) : string :=
  "c0,c1
                " ++ x ++ "
                c1
                c0
                c0," ++ x ++ "->c1".

Definition concatenation_last_text (x : string) : string :=
  "c0, c1
                " ++ x ++ "
                c1
                c0
                c0," ++ x ++ "->c1".

Definition kleene_star_text (x : string) : string :=
  "ks0,ks1
                " ++ x ++ "
                ks1
                ks0
                ks0," ++ x ++ "->ks1".

Definition kleene_plus_text (x : string) : string :=
  "kp0,kp1
                " ++ x ++ "
                kp1
                kp0
                kp0," ++ x ++ "->kp1".

(** The text of [QuestionMark.execute] for a [str] operand.  The source
    hands this literal to the factory as it stands: [format] is not
    applied to it, so the placeholder stays in the text. *)
Definition question_mark_text : string :=
  "qm0,qm1
                {0}
                qm1
                qm0
                qm0,{0}->qm1
                qm0,$->qm1".

Definition question_mark_start_text : string :=
  "qm
                
                qm
                qm
                ".

(** A local variable that an [if]/[elif] chain has bound, or left unbound
    ([None]) when no branch applied. *)
Definition bound (r : result FA) : result (option FA) :=
  a ← r; Ok (Some a).

(** [execute] of every class.  An operand that is neither a [str] nor an
    operator leaves the local automaton unbound, which shows when the
    variable is read.  The branch of [Single] is modelled from the spec:
    the class is not in operators.py at hand. *)
Fixpoint execute (o : Operator) : result FA :=
  match o with
  | Single x =>
      match x with
      | Str c => Ok (single_automaton c)
      | _ => Raise TypeError
      end
  | Collation first last =>
      chars ← all_characters first last;
      let '(result_, inputs) :=
        foldl (fun '(result_, inputs) char =>
                 (result_ ++ "c0," ++ char ++ "->c1" ++ nl,
                  inputs ++ char ++ ","))
              (EmptyString, EmptyString) chars in
      let result_ := Py.drop_last result_ in
      let inputs := Py.drop_last inputs in
      factory (collation_text inputs result_)
  | Alternation first last =>
      first_enfa ← match first with
                    | Str s => bound (factory (alternation_text s))
                    | Op o' => bound (execute o')
                    | Lst _ => Ok None
                    end;
      last_enfa ← match last with
                   | Str s => bound (factory (alternation_text s))
                   | Op o' => bound (execute o')
                   | Lst _ => Ok None
                   end;
      match first_enfa, last_enfa with
      | Some first_enfa, Some last_enfa => Ok (union first_enfa last_enfa)
      | _, _ => Raise UnboundLocalError
      end
  | Concatenation first last =>
      first_enfa ← match first with
                    | Str s => bound (factory (concatenation_first_text s))
                    | Op o' => bound (execute o')
                    | Lst _ => Ok None
                    end;
      second_enfa ← match last with
                     | Str s => bound (factory (concatenation_last_text s))
                     | Op o' => bound (execute o')
                     | Lst _ => Ok None
                     end;
      match first_enfa, second_enfa with
      | Some first_enfa, Some second_enfa => Ok (concat first_enfa second_enfa)
      | _, _ => Raise UnboundLocalError
      end
  | KleeneStar x =>
      item_enfa ← match x with
                   | Str s => factory (kleene_star_text s)
                   | Op o' => execute o'
                   | Lst _ => Raise UnboundLocalError
                   end;
      Ok (kleene_operator item_enfa)
  | KleenePlus x =>
      enfa ← match x with
              | Str s => factory (kleene_plus_text s)
              | Op o' => execute o'
              | Lst _ => Raise UnboundLocalError
              end;
      Ok (concat (deepcopy enfa) (kleene_operator enfa))
  | QuestionMark x =>
      match x with
      | Str _ => factory question_mark_text
      | Op _ =>
          start_enfa ← factory question_mark_start_text;
          let end_enfa := deepcopy start_enfa in
          let product := concat start_enfa end_enfa in
          (* [product + self._item]: the right operand is the operator
             node itself, not an automaton *)
          Raise TypeError
      | Lst _ => Raise UnboundLocalError
      end
  end.

End Operators.

(** ** Regular expressions (grammar/regular_expressions.py) *)

Module RegularExpressions.
Import Automata Build Operators.
Local Open Scope string_scope.
Local Open Scope Z_scope.

Record RegEx : Type := mkRegEx {
  _name : string;
  _text : string;
  _groups : item;
  automaton : FA
}.

(** [item == s] for a [str] literal [s] *)
Definition eq_str (x : item) (s : string) : bool :=
  match x with
  | Str s' => bool_decide (s' = s)
  | _ => false
  end.

(** The keys of [RegEx.unary_operators] and their classes. *)
Definition unary_operators (key : string) : option (item → result Operator) :=
  if bool_decide (key = "+") then Some new_KleenePlus
  else if bool_decide (key = "?") then Some new_QuestionMark
  else if bool_decide (key = "*") then Some new_KleeneStar
  else if bool_decide (key = EmptyString) then Some new_Single
  else None.

(** The keys of [RegEx.binary_operators] and their classes. *)
Definition binary_operators (key : string)
    : option (item → item → result Operator) :=
  if bool_decide (key = "|") then Some new_Alternation
  else if bool_decide (key = EmptyString) then Some new_Concatenation
  else None.

(** [x in d] for a dict [d] with [str] keys: a list cannot be hashed, an
    operator node is no key. *)
Definition in_dict {V : Type} (d : string → option V) (x : item) : result bool :=
  match x with
  | Str s => Ok (bool_decide (is_Some (d s)))
  | Op _ => Ok false
  | Lst _ => Raise TypeError
  end.

(** [RegEx._extract_bracket] (lines 151-190) *)
Record extract_state : Type := mkExtract {
  par_count : Z;
  lpar_index : Z;
  rpar_index : Z;
  ex_result : list item
}.

Fixpoint _extract_bracket (fuel : nat) (text : string) : result (list item) :=
  match fuel with
  | O => Raise FuelExhausted
  | S fuel' =>
      let cs := Py.chars text in
      let escaped (i : Z) : bool :=
        (0 <? i) &&
        match Py.getitem cs (i - 1) with
        | Ok c => bool_decide (c = "\")
        | Raise _ => false
        end in
      (* the test that ends every iteration not left by [continue] *)
      let close (st : extract_state) : result extract_state :=
        if (par_count st =? 0) && (0 <=? lpar_index st) && (0 <=? rpar_index st)
        then
          sub ← _extract_bracket fuel'
                 (Py.str_slice text (lpar_index st + 1) (rpar_index st));
          Ok (mkExtract (par_count st) (-1) (-1) (ex_result st ++ [Lst sub]))
        else Ok st in
      st ← for_each (Py.enumerate cs) (mkExtract 0 (-1) (-1) [])
        (fun st '(i, char) =>
           if bool_decide (char = "(") then
             if escaped i then
               Ok (mkExtract (par_count st) (lpar_index st) (rpar_index st)
                     (ex_result st ++ [Str char]))
             else
               close (mkExtract (par_count st + 1)
                        (if lpar_index st =? -1 then i else lpar_index st)
                        (rpar_index st) (ex_result st))
           else if bool_decide (char = ")") then
             if escaped i then
               Ok (mkExtract (par_count st) (lpar_index st) (rpar_index st)
                     (ex_result st ++ [Str char]))
             else
               close (mkExtract (par_count st - 1) (lpar_index st) i
                        (ex_result st))
           else
             close (if negb (0 <=? lpar_index st)
                    then mkExtract (par_count st) (lpar_index st)
                           (rpar_index st) (ex_result st ++ [Str char])
                    else st));
      if negb (par_count st =? 0)
      then Raise (ValueError "Unbalanced parentheses.")
      else Ok (ex_result st)
  end.

(** [RegEx._escape_characters] (lines 131-149).  The loop state is the
    copied group, the number of compressed items, and whether [break] was
    taken. *)
Definition _escape_characters (group : list item) : result (list item) :=
  '(copied_group, _, _) ←
    for_each (Py.enumerate group) (group, 0, false)
      (fun '(copied_group, compressed, broken) '(i, x) =>
         if (broken : bool) then Ok (copied_group, compressed, broken)
         else if Py.len group - compressed <=? i
         then Ok (copied_group, compressed, true)
         else if eq_str x "\" then
           nxt ← Py.getitem copied_group (i + 1 - compressed);
           single ← new_Single nxt;
           Ok (Py.setslice copied_group (i - compressed) (i + 2 - compressed)
                 [Op single],
               compressed + 1, false)
         else Ok (copied_group, compressed, false));
  Ok copied_group.

(** The call of [Collation] on an unpacked argument list: it needs exactly
    two arguments. *)
Definition call_Collation (args : list item) : result Operator :=
  match args with
  | [first_character; ending_character] =>
      new_Collation first_character ending_character
  | _ => Raise TypeError
  end.

(** [RegEx._collate] (lines 192-220) *)
Definition _collate (group : list item) : result (list item) :=
  '(copied_groups, _, _, _) ←
    for_each (Py.enumerate group) (group, -1, -1, 0)
      (fun '(copied_groups, lpar_index, dash_index, compressed) '(i, x) =>
         if eq_str x "[" then Ok (copied_groups, i, dash_index, compressed)
         else if eq_str x "-" then Ok (copied_groups, lpar_index, i, compressed)
         else if eq_str x "]" then
           if negb (dash_index =? -1) then
             collation ← call_Collation
               (Py.getslice2 copied_groups (lpar_index + 1 - compressed)
                  (i - compressed));
             Ok (Py.setslice copied_groups (lpar_index - compressed)
                   (i + 1 - compressed) [Op collation],
                 lpar_index, dash_index, compressed + 4)
           else Raise (ValueError
                  "Collation parsing failed, missing - character")
         else Ok (copied_groups, lpar_index, dash_index, compressed));
  Ok copied_groups.

Section passes.
(** The passes below call [self._process] on nested lists. *)
Variable self_process : list item → result item.

(** [RegEx._process_sublists] (lines 222-236) *)
Definition _process_sublists (group : list item) : result (list item) :=
  for_each (Py.enumerate group) group
    (fun copied_groups '(i, x) =>
       match x with
       | Lst l =>
           x' ← self_process l;
           Py.setitem copied_groups i x'
       | _ => Ok copied_groups
       end).

(** [RegEx._to_unary_operators] (lines 238-258) *)
Definition _to_unary_operators (group : list item) : result (list item) :=
  '(copied_groups, _) ←
    for_each (Py.enumerate group) (group, 0)
      (fun '(copied_groups, compressed) '(i, x) =>
         match x with
         | Lst l =>
             x' ← self_process l;
             copied_groups ← Py.setitem copied_groups (i - compressed) x';
             Ok (copied_groups, compressed)
         | Op _ => Ok (copied_groups, compressed)
         | Str s =>
             match unary_operators s with
             | Some cls =>
                 operand ← Py.getitem copied_groups (i - 1 - compressed);
                 node ← cls operand;
                 Ok (Py.setslice copied_groups (i - 1 - compressed)
                       (i + 1 - compressed) [Op node],
                     compressed + 1)
             | None => Ok (copied_groups, compressed)
             end
         end);
  Ok copied_groups.

(** [RegEx._concatenate] (lines 260-287) *)
Definition _concatenate (group : list item) : result (list item) :=
  '(copied_groups, _) ←
    for_each (Py.enumerate group) (group, 0)
      (fun '(copied_groups, compressed) '(i, x) =>
         next_char ← (if Py.len group <=? i + 1 then Ok (Str EmptyString)
                       else Py.getitem group (i + 1));
         match x with
         | Lst l =>
             processed ← self_process l;
             copied_groups ← Py.setitem copied_groups (i - compressed) processed;
             Ok (copied_groups, compressed)
         | _ =>
             item_is_binary ← in_dict binary_operators x;
             next_is_binary ← (if (item_is_binary : bool) then Ok true
                                else in_dict binary_operators next_char);
             if negb item_is_binary && negb next_is_binary then
               left ← Py.getitem copied_groups (i - compressed);
               right ← Py.getitem copied_groups (i + 1 - compressed);
               node ← new_Concatenation left right;
               Ok (Py.setslice copied_groups (i - compressed)
                     (i + 2 - compressed) [Op node],
                   compressed + 1)
             else Ok (copied_groups, compressed)
         end);
  Ok copied_groups.

(** [RegEx._alternate] (lines 289-312) *)
Definition _alternate (group : list item) : result (list item) :=
  '(copied_groups, _) ←
    for_each (Py.enumerate group) (group, 0)
      (fun '(copied_groups, compressed) '(i, x) =>
         match x with
         | Lst l =>
             processed ← self_process l;
             copied_groups ← Py.setitem copied_groups (i - compressed) processed;
             Ok (copied_groups, compressed)
         | Op _ => Ok (copied_groups, compressed)
         | Str s =>
             match binary_operators s with
             | Some cls =>
                 left ← Py.getitem copied_groups (i - 1 - compressed);
                 right ← Py.getitem copied_groups (i + 1 - compressed);
                 node ← cls left right;
                 Ok (Py.setslice copied_groups (i - 1 - compressed)
                       (i + 2 - compressed) [Op node],
                     compressed + 2)
             | None => Ok (copied_groups, compressed)
             end
         end);
  Ok copied_groups.

End passes.

(** [RegEx._clean] (lines 314-325): the group is rewritten in place. *)
Definition _clean (group : list item) : result (list item) :=
  for_each (Py.enumerate group) group
    (fun group '(i, x) =>
       match x with
       | Str _ => single ← new_Single x; Py.setitem group i (Op single)
       | _ => Ok group
       end).

(** [RegEx._process] (lines 110-129) *)
Fixpoint _process (fuel : nat) (group : list item) : result item :=
  match fuel with
  | O => Raise FuelExhausted
  | S fuel' =>
      group ← _escape_characters group;
      group ← _collate group;
      group ← _process_sublists (_process fuel') group;
      group ← _to_unary_operators (_process fuel') group;
      group ← _concatenate (_process fuel') group;
      group ← _alternate (_process fuel') group;
      group ← _clean group;
      if 1 <? Py.len group then Raise (ValueError "Parsing failed.")
      else Py.getitem group 0
  end.

(** [x.execute()] for what [_process] returned. *)
Definition execute_item (x : item) : result FA :=
  match x with
  | Op o => execute o
  | _ => Raise AttributeError
  end.

(** A nested group is shorter than the text around it, and the groups
    nest no deeper than the text is long, so this fuel is never used up
    (lemma [returns_RegEx_init]). *)
Definition parse_fuel (text : string) : nat := S (String.length text).

(** [RegEx.__init__] (lines 25-61) *)
Definition RegEx_init (text : string) (name : string) : result RegEx :=
  groups ← _extract_bracket (parse_fuel text) text;
  groups ← _process (parse_fuel text) groups;
  automaton ← execute_item groups;
  Ok (mkRegEx name text groups automaton).

(** [RegEx.valid_characters] (lines 63-70) *)
Definition valid_characters (r : RegEx) : gset string := inputs (automaton r).

(** The loop of [RegEx.check] over the characters still to be read. *)
Fixpoint check_loop (valid : gset string) (a : FA) (cs : list string)
    : result (bool * FA) :=
  match cs with
  | [] => Ok (accepted a, a)
  | char :: cs' =>
      if decide (char ∈ valid) then
        a' ← enter a char;
        check_loop valid a' cs'
      else Ok (false, a)
  end.

(** [RegEx.check] (lines 93-108): the answer, and the automaton as the
    call leaves it. *)
Definition check_run (r : RegEx) (text : string) : result (bool * FA) :=
  a ← reset (automaton r);
  check_loop (valid_characters r) a (Py.chars text).

Definition check (r : RegEx) (text : string) : result bool :=
  '(is_ok, _) ← check_run r text; Ok is_ok.

(** The module-level regular expressions the properties refer to. *)
Definition INTEGER : result RegEx := RegEx_init "[0-9]+" "INTEGER".

End RegularExpressions.

(** ** The deterministic stack automaton (automata/pda.py) *)

Module PDA.
Local Open Scope string_scope.

(** The transition table of the push states: (state, input symbol,
    stack-top symbol) ↦ (new state, push sequence). *)
Abbreviation push_table := (gmap (string * string * string) (string * list string)).

(** The stack is a sequence whose last element is the top. *)
Record DeterministicPDA : Type := mkPDA {
  table : push_table;
  accepted_states : gset string;
  current : string;
  stack : list string;
  empty_symbol : string;
  failed_state : string;
  processed_all : bool
}.

Definition set_current (p : DeterministicPDA) (c : string) : DeterministicPDA :=
  mkPDA (table p) (accepted_states p) c (stack p) (empty_symbol p)
        (failed_state p) (processed_all p).

Definition set_stack (p : DeterministicPDA) (s : list string) : DeterministicPDA :=
  mkPDA (table p) (accepted_states p) (current p) s (empty_symbol p)
        (failed_state p) (processed_all p).

Definition set_processed_all (p : DeterministicPDA) (b : bool) : DeterministicPDA :=
  mkPDA (table p) (accepted_states p) (current p) (stack p) (empty_symbol p)
        (failed_state p) b.

(** Modelled from the spec: [PushState.clean_forward] on an [InputPack]
    (automata/state.py and automata/packs.py are not part of the sources at
    hand): the transition keyed by (input symbol, stack-top symbol), if the
    state has one; [None] stands for the empty set the source tests for. *)
Definition clean_forward (p : DeterministicPDA) (state : string)
    (input symbol : string) : option (string * list string) :=
  table p !! (state, input, symbol).

(** Modelled from the spec: [Stack.pop] of automata/packs.py, "LIFO
    discipline": the top and the rest. *)
Definition pop (s : list string) : option (string * list string) :=
  match reverse s with
  | t :: rest => Some (t, reverse rest)
  | [] => None
  end.

(** Modelled from the spec: [Stack.exclude] of automata/packs.py: the push
    sequence without its ε placeholders ("ε meaning push nothing"). *)
Definition exclude (symbol : string) (seq : list string) : list string :=
  filter (fun x => x ≠ symbol) seq.

(** Modelled from the spec: [Stack.__iadd__] of automata/packs.py: the
    sequence is pushed onto the stack. *)
Definition push_all (s seq : list string) : list string := s ++ seq.

(** [DeterministicPDA._access] (pda.py, lines 39-68): the returned flag is
    [go_on], with the machine as the call leaves it. *)
Definition _access (p : DeterministicPDA) (value : string)
    : bool * DeterministicPDA :=
  match pop (stack p) with
  | None => (true, set_current p (failed_state p))
  | Some (symbol, rest) =>
      let p := set_stack p rest in
      match clean_forward p (current p) (empty_symbol p) symbol with
      | Some (current', stack') =>
          (false,
           set_current
             (set_stack p (push_all (stack p) (exclude (empty_symbol p) stack')))
             current')
      | None =>
          match clean_forward p (current p) value symbol with
          | Some (current', stack') =>
              (true,
               set_current
                 (set_stack p
                    (push_all (stack p) (exclude (empty_symbol p) stack')))
                 current')
          | None => (true, set_current p (failed_state p))
          end
      end
  end.

(** One round of the first loop of [DeterministicPDA._process] (pda.py,
    lines 92-101) on a non-empty entry: either the loop is left by [break],
    or it goes on with the entry still to be read.  (The records kept for
    printing are left out.) *)
Inductive round : Type :=
| Break (p : DeterministicPDA)
| Continue (p : DeterministicPDA) (entry : list string).

Definition process_round (p : DeterministicPDA) (value : string)
    (entry : list string) : round :=
  if bool_decide (current p = failed_state p)
  then Break (set_processed_all p false)
  else
    let '(go_on, p') := _access p value in
    if negb go_on then Continue p' (value :: entry) else Continue p' entry.

(** The machine after a transition to [q] that pushes [seq] on [rest]. *)
Definition fired (p : DeterministicPDA) (rest : list string) (q : string)
    (seq : list string) : DeterministicPDA :=
  mkPDA (table p) (accepted_states p) q
        (push_all rest (exclude (empty_symbol p) seq))
        (empty_symbol p) (failed_state p) (processed_all p).

(** A small machine in which state [q0] has both an ε-input transition
    and a transition on [a] for the stack top [Z]. *)
Definition example_pda : DeterministicPDA :=
  mkPDA (<[("q0", "$", "Z") := ("q1", ["A"; "$"])]>
           (<[("q0", "a", "Z") := ("q2", ["B"])]>
              (<[("q1", "a", "A") := ("q2", ["$"])]> ∅)))
        {["q2"]} "q0" ["Z"] "$" "fail" true.

End PDA.

(** ** Notions the properties are stated with *)

Module Notions.
Import Automata Build Operators RegularExpressions.
Local Open Scope string_scope.

(** The operand is of one of the types the class declares. *)
Definition kind_allowed (c : op_class) (x : item) : bool :=
  existsb (isinstance x) (_item_types c).

(** The text of the invalid-operand-type error for an operand. *)
Definition type_error (x : item) : exn :=
  OperatorInputTypeError (class_name x ++ " is an invalid input type!").

(** The operand is a [str] of exactly one character. *)
Definition single_character (x : item) : Prop :=
  ∃ c, x = Str (String c EmptyString).

(** The automaton [KleenePlus.execute] starts from, for either kind of
    operand. *)
Definition plus_operand (x : item) : result FA :=
  match x with
  | Str s => factory (kleene_plus_text s)
  | Op o' => execute o'
  | Lst _ => Raise UnboundLocalError
  end.

(** The answer of a compiled regular expression on a text. *)
Definition answers (r : result RegEx) (text : string) (b : bool) : Prop :=
  match r with
  | Ok r => check r text = Ok b
  | Raise _ => False
  end.

End Notions.

(** ** Invariants of state graphs *)

Module Graphs.
Import Automata.

(** Every transition stored in the map leads to a state of the map. *)
Definition closed_targets (sts : gmap string transitions) : Prop :=
  ∀ x tr sym Y y,
    sts !! x = Some tr → tr !! sym = Some Y → y ∈ Y → y ∈ dom sts.

End Graphs.

(** ** What every automaton produced by an operator node satisfies *)

Module Produced.
Import Automata Invariants Build.

(** The structural invariants hold, the ε-symbol is the default one, and
    it belongs to the inputs. *)
Definition good (a : FA) : Prop :=
  wf a ∧ _epsilon a = EPSILON ∧ EPSILON ∈ inputs a.

End Produced.

(** ** Acceptance of a text by an automaton *)

Module Language.
Import Automata Build Operators RegularExpressions.

(** [run a q cs q']: from state [q] the automaton can read the characters
    [cs], each a member of its inputs, and arrive in [q'], moving freely
    along ε-transitions before, between and after the characters. *)
Inductive run (a : FA) : string → list string → string → Prop :=
| run_stop (q : string) : run a q [] q
| run_eps (q q' : string) (cs : list string) (q'' : string) :
    q' ∈ forward (state_obj a q) (_epsilon a) →
    run a q' cs q'' → run a q cs q''
| run_sym (q : string) (c : string) (q' : string) (cs : list string)
    (q'' : string) :
    c ∈ inputs a → q' ∈ forward (state_obj a q) c →
    run a q' cs q'' → run a q (c :: cs) q''.

(** The automaton accepts the text in full. *)
Definition accepts (a : FA) (cs : list string) : Prop :=
  ∃ q, run a (start_state a) cs q ∧ q ∈ accepted_states a.

(** What a compiled regular expression is, when the compilation
    succeeded. *)
Definition compiled (r : result RegEx) : RegEx :=
  match r with
  | Ok r => r
  | Raise _ =>
      mkRegEx EmptyString EmptyString (Str EmptyString)
        (single_automaton EmptyString)
  end.

End Language.

(** ** Concrete automata and patterns used as instances *)

Module Instances.
Import Automata Build Operators RegularExpressions Language.
Local Open Scope string_scope.

(** The compiled [a*] *)
Definition A_STAR : result RegEx := RegEx_init "a*" "AS".

End Instances.

(** ** Notions for the text form of a collation *)

Module CollationText.
Import Automata Build Operators.

(** The character does not occur in the text. *)
Fixpoint lacks (c : Ascii.ascii) (s : string) : Prop :=
  match s with
  | EmptyString => True
  | String c' s' => c' ≠ c ∧ lacks c s'
  end.

(** The texts of [l], separated by [sep]. *)
Fixpoint sep_join (sep : Ascii.ascii) (l : list string) : string :=
  match l with
  | [] => EmptyString
  | [x] => x
  | x :: l' => x ++ String sep (sep_join sep l')
  end.

(** The texts of [l], each followed by [sep]. *)
Definition terminated (sep : Ascii.ascii) (l : list string) : string :=
  foldr (fun x acc => x ++ String sep acc)%string EmptyString l.

(** The indentation of the continuation lines of the collation text. *)
Definition indent : string := "            ".

(** No whitespace character. *)
Definition plain (c : Ascii.ascii) : bool := negb (is_space c).

(** The one-character text. *)
Definition single (c : Ascii.ascii) : string := String c EmptyString.

(** The transition line of the character [c]. *)
Definition line_of (c : Ascii.ascii) : string :=
  ("c0," ++ String c "->c1")%string.

(** The characters from [lo] to [hi], both included. *)
Definition range_chars (lo hi : Ascii.ascii) : list Ascii.ascii :=
  Ascii.ascii_of_nat <$>
    Py.range (Ascii.nat_of_ascii lo) (Ascii.nat_of_ascii hi + 1).



End CollationText.

(** ** Nesting depth of groups, and results that did not run out of fuel *)

Module Nesting.
Import Operators.

(** How deep lists are nested inside an item of a group. *)
Fixpoint item_depth (x : item) : nat :=
  match x with
  | Lst l => S (foldr (fun y acc => item_depth y `max` acc) 0 l)
  | _ => 0
  end.

Definition group_depth (l : list item) : nat :=
  foldr (fun y acc => item_depth y `max` acc) 0 l.

(** The computation returned a value that satisfies [P], or raised an
    exception of the program: it did not use up its fuel. *)
Definition returns {A : Type} (P : A → Prop) (r : result A) : Prop :=
  match r with
  | Ok x => P x
  | Raise e => e ≠ FuelExhausted
  end.

End Nesting.

(** ** Further code of the engine: the default accumulator, repeated checks *)

Module SharedDefault.
Import Automata.

(** [_e_closure(state)] called without its second argument (nfa.py, line
    46): the default value [set()] is evaluated once, when the function is
    defined, so every such call works on that one set [shared], mutates it
    and returns it.  The value returned is also what the shared set holds
    afterwards. *)
Definition _e_closure_default (a : FA) (state : string)
    (shared : gset string) : result (gset string) :=
  _e_closure (e_fuel a) a state shared.

End SharedDefault.

Module Checks.
Import Automata RegularExpressions.

(** The regular expression with its automaton replaced. *)
Definition with_automaton (r : RegEx) (a : FA) : RegEx :=
  mkRegEx (_name r) (_text r) (_groups r) a.

(** The automaton of [r] as a call of [check] on [text] leaves it (the
    automaton is an attribute of the object and [check] mutates it). *)
Definition after_check (r : RegEx) (text : string) : FA :=
  match check_run r text with
  | Ok (_, a) => a
  | Raise _ => automaton r
  end.

End Checks.

Module EngineInstances.
Import Automata Build.
Local Open Scope string_scope.

(** The automaton of the single character [a], with no current state. *)
Definition STUCK : FA := set_current (single_automaton "a") ∅.

End EngineInstances.
(** ** Notions for the passes of the parser *)

Module PassNotions.
Import Operators RegularExpressions.
Local Open Scope string_scope.

(** [f] applied to the items of [l] from left to right, up to the first
    exception. *)
Fixpoint map_result {A B : Type} (f : A → result B) (l : list A)
    : result (list B) :=
  match l with
  | [] => Ok []
  | x :: l' =>
      y ← f x;
      ys ← map_result f l';
      Ok (y :: ys)
  end.

(** A loose character becomes a [Single] node; other items stay. *)
Definition wrap_single (x : item) : item :=
  match x with
  | Str _ => Op (Single x)
  | _ => x
  end.

(** What becomes of one item when nested lists are processed by
    [process]. *)
Definition sublist_result (process : list item → result item) (x : item)
    : result item :=
  match x with
  | Lst l => process l
  | _ => Ok x
  end.

(** [enumerate(l)] with the count starting at [k]. *)
Definition enum_from {A : Type} (k : nat) (l : list A) : list (Z * A) :=
  imap (fun i x => (Z.of_nat (k + i), x)) l.

End PassNotions.
(** ** Groups as the passes of the parser expect them *)

Module Segments.
Import Operators RegularExpressions PassNotions.
Local Open Scope string_scope.

(** *** Escapes: an item, or a backslash followed by a character *)

Inductive escape_segment : Type :=
| EItem (x : item)
| EPair (ch : string).

Definition escape_raw (s : escape_segment) : list item :=
  match s with
  | EItem x => [x]
  | EPair ch => [Str "\"; Str ch]
  end.

(** No item is a backslash, and the character after an escaping
    backslash is no backslash unless it ends the group. *)
Fixpoint escape_wf (segs : list escape_segment) : Prop :=
  match segs with
  | [] => True
  | EItem x :: r => eq_str x "\" = false ∧ escape_wf r
  | EPair ch :: r => (ch ≠ "\" ∨ r = []) ∧ escape_wf r
  end.

(** The group with its escapes resolved, [c] escapes having been resolved
    before: a pair is resolved when [c] is at most one more than the
    number of items behind the pair; from the first pair that is not, the
    group stays as it is. *)
Fixpoint escape_cooked (c : nat) (segs : list escape_segment) : list item :=
  match segs with
  | [] => []
  | EItem x :: r => x :: escape_cooked c r
  | EPair ch :: r =>
      if bool_decide (c ≤ length (flat_map escape_raw r) + 1)%nat
      then Op (Single (Str ch)) :: escape_cooked (S c) r
      else flat_map escape_raw segs
  end.

(** The body of the loop of [_escape_characters], for a group of [n]
    items. *)
Definition escape_body (n : Z)
    : list item * Z * bool → Z * item → result (list item * Z * bool) :=
  fun '(copied_group, compressed, broken) '(i, x) =>
    if (broken : bool) then Ok (copied_group, compressed, broken)
    else if (n - compressed <=? i)%Z
    then Ok (copied_group, compressed, true)
    else if eq_str x "\" then
      nxt ← Py.getitem copied_group (i + 1 - compressed)%Z;
      single ← new_Single nxt;
      Ok (Py.setslice copied_group (i - compressed)%Z (i + 2 - compressed)%Z
            [Op single],
          (compressed + 1)%Z, false)
    else Ok (copied_group, compressed, false).

(** *** Collations: an item, or a bracket [[lo-hi]] *)

Inductive collate_segment : Type :=
| CItem (x : item)
| CBracket (lo hi : string).

Definition collate_raw (s : collate_segment) : list item :=
  match s with
  | CItem x => [x]
  | CBracket lo hi => [Str "["; Str lo; Str "-"; Str hi; Str "]"]
  end.

Definition collate_cooked (s : collate_segment) : item :=
  match s with
  | CItem x => x
  | CBracket lo hi => Op (Collation (Str lo) (Str hi))
  end.

(** An item outside the brackets is no closing bracket, and the ends of a
    range are no bracket characters. *)
Definition collate_ok (s : collate_segment) : Prop :=
  match s with
  | CItem x => eq_str x "]" = false
  | CBracket lo hi => lo ≠ "[" ∧ lo ≠ "]" ∧ hi ≠ "[" ∧ hi ≠ "]"
  end.

(** The body of the loop of [_collate]. *)
Definition collate_body
    : list item * Z * Z * Z → Z * item → result (list item * Z * Z * Z) :=
  fun '(copied_groups, lpar_index, dash_index, compressed) '(i, x) =>
    if eq_str x "[" then Ok (copied_groups, i, dash_index, compressed)
    else if eq_str x "-" then Ok (copied_groups, lpar_index, i, compressed)
    else if eq_str x "]" then
      if negb (dash_index =? -1)%Z then
        collation ← call_Collation
          (Py.getslice2 copied_groups (lpar_index + 1 - compressed)%Z
             (i - compressed)%Z);
        Ok (Py.setslice copied_groups (lpar_index - compressed)%Z
              (i + 1 - compressed)%Z [Op collation],
            lpar_index, dash_index, (compressed + 4)%Z)
      else Raise (ValueError
             "Collation parsing failed, missing - character")
    else Ok (copied_groups, lpar_index, dash_index, compressed).

(** *** Postfix operators: an operand followed by operator characters *)

Inductive postfix : Type := PPlus | PQuestion | PStar.

Definition postfix_char (p : postfix) : string :=
  match p with
  | PPlus => "+"
  | PQuestion => "?"
  | PStar => "*"
  end.

Definition postfix_node (p : postfix) (x : item) : Operator :=
  match p with
  | PPlus => KleenePlus x
  | PQuestion => QuestionMark x
  | PStar => KleeneStar x
  end.

(** An operand of the operators whose characters are the keys of [keys]:
    an operator node, or a [str] that is no key. *)
Definition operand {V : Type} (keys : string → option V) (x : item) : Prop :=
  match x with
  | Str s => keys s = None
  | Op _ => True
  | Lst _ => False
  end.

Definition unary_raw (s : item * list postfix) : list item :=
  s.1 :: (Str ∘ postfix_char <$> s.2).

Definition unary_cooked (s : item * list postfix) : item :=
  foldl (fun acc p => Op (postfix_node p acc)) s.1 s.2.

(** The body of the loop of [_to_unary_operators]. *)
Definition unary_body (self_process : list item → result item)
    : list item * Z → Z * item → result (list item * Z) :=
  fun '(copied_groups, compressed) '(i, x) =>
    match x with
    | Lst l =>
        x' ← self_process l;
        copied_groups ← Py.setitem copied_groups (i - compressed)%Z x';
        Ok (copied_groups, compressed)
    | Op _ => Ok (copied_groups, compressed)
    | Str s =>
        match unary_operators s with
        | Some cls =>
            operand ← Py.getitem copied_groups (i - 1 - compressed)%Z;
            node ← cls operand;
            Ok (Py.setslice copied_groups (i - 1 - compressed)%Z
                  (i + 1 - compressed)%Z [Op node],
                (compressed + 1)%Z)
        | None => Ok (copied_groups, compressed)
        end
    end.

(** *** Runs of operands, separated by bars *)

(** A run is a first operand and the operands that follow it. *)
Definition run_raw (r : item * list item) : list item := r.1 :: r.2.

(** The concatenation of a run, nested to the left. *)
Definition concat_run (r : item * list item) : item :=
  foldl (fun acc y => Op (Concatenation acc y)) r.1 r.2.

Definition run_ok (r : item * list item) : Prop :=
  operand binary_operators r.1 ∧ Forall (operand binary_operators) r.2.

(** Further runs, each behind a bar. *)
Definition bars_raw (rs : list (item * list item)) : list item :=
  flat_map (fun r => Str "|" :: run_raw r) rs.

Definition bars_cooked (rs : list (item * list item)) : list item :=
  flat_map (fun r => [Str "|"; concat_run r]) rs.

(** The alternation of a first operand with further ones, nested to the
    left. *)
Definition alternate_chain (x : item) (xs : list item) : item :=
  foldl (fun acc y => Op (Alternation acc y)) x xs.

(** The body of the loop of [_concatenate] on [group]. *)
Definition concat_body (self_process : list item → result item)
    (group : list item)
    : list item * Z → Z * item → result (list item * Z) :=
  fun '(copied_groups, compressed) '(i, x) =>
    next_char ← (if (Py.len group <=? i + 1)%Z then Ok (Str EmptyString)
                  else Py.getitem group (i + 1)%Z);
    match x with
    | Lst l =>
        processed ← self_process l;
        copied_groups ← Py.setitem copied_groups (i - compressed)%Z processed;
        Ok (copied_groups, compressed)
    | _ =>
        item_is_binary ← in_dict binary_operators x;
        next_is_binary ← (if (item_is_binary : bool) then Ok true
                           else in_dict binary_operators next_char);
        if negb item_is_binary && negb next_is_binary then
          left ← Py.getitem copied_groups (i - compressed)%Z;
          right ← Py.getitem copied_groups (i + 1 - compressed)%Z;
          node ← new_Concatenation left right;
          Ok (Py.setslice copied_groups (i - compressed)%Z
                (i + 2 - compressed)%Z [Op node],
              (compressed + 1)%Z)
        else Ok (copied_groups, compressed)
    end.

(** The body of the loop of [_alternate]. *)
Definition alternate_body (self_process : list item → result item)
    : list item * Z → Z * item → result (list item * Z) :=
  fun '(copied_groups, compressed) '(i, x) =>
    match x with
    | Lst l =>
        processed ← self_process l;
        copied_groups ← Py.setitem copied_groups (i - compressed)%Z processed;
        Ok (copied_groups, compressed)
    | Op _ => Ok (copied_groups, compressed)
    | Str s =>
        match binary_operators s with
        | Some cls =>
            left ← Py.getitem copied_groups (i - 1 - compressed)%Z;
            right ← Py.getitem copied_groups (i + 1 - compressed)%Z;
            node ← cls left right;
            Ok (Py.setslice copied_groups (i - 1 - compressed)%Z
                  (i + 2 - compressed)%Z [Op node],
                (compressed + 2)%Z)
        | None => Ok (copied_groups, compressed)
        end
    end.

(** *** Flat patterns: atoms with postfix characters, in runs, the runs
    separated by bars *)

(** A character that no pass of the parser gives a meaning: no backslash,
    no closing bracket, no operator character. *)
Definition plain_char (c : string) : Prop :=
  c ≠ "\" ∧ c ≠ "]" ∧ unary_operators c = None ∧ binary_operators c = None.

Definition atom : Type := string * list postfix.
Definition atoms : Type := atom * list atom.

Definition atom_raw (a : atom) : list item := unary_raw (Str a.1, a.2).
Definition atom_tree (a : atom) : item := unary_cooked (Str a.1, a.2).

Definition atoms_raw (r : atoms) : list item :=
  flat_map atom_raw (r.1 :: r.2).
Definition atoms_tree (r : atoms) : item :=
  concat_run (atom_tree r.1, atom_tree <$> r.2).

Definition atoms_ok (r : atoms) : Prop :=
  Forall (fun a : atom => plain_char a.1) (r.1 :: r.2).

(** The items of a flat pattern, and the item it is parsed to. *)
Definition pattern_raw (r : atoms) (rs : list atoms) : list item :=
  atoms_raw r ++ flat_map (fun r' => Str "|" :: atoms_raw r') rs.

Definition pattern_tree (r : atoms) (rs : list atoms) : item :=
  wrap_single (alternate_chain (atoms_tree r) (atoms_tree <$> rs)).

(** The run of items that a run of atoms becomes in the pass of the
    postfix operators. *)
Definition atoms_run (r : atoms) : item * list item :=
  (atom_tree r.1, atom_tree <$> r.2).

(** The segments of a flat pattern as the pass of the postfix operators
    sees them: the bars are operands without postfix characters. *)
Definition atom_segment (a : atom) : item * list postfix := (Str a.1, a.2).

Definition pattern_segments (r : atoms) (rs : list atoms)
    : list (item * list postfix) :=
  (atom_segment <$> (r.1 :: r.2)) ++
  flat_map (fun r' => (Str "|", []) :: (atom_segment <$> (r'.1 :: r'.2))) rs.

(** No item of the group is a nested list. *)
Definition no_lists (g : list item) : Prop :=
  Forall (fun x => ∀ l, x ≠ Lst l) g.

End Segments.
(** ** Notions for [_extract_bracket] *)

Module Brackets.
Import Operators RegularExpressions.
Local Open Scope string_scope.

(** The test [i > 0 and text[i - 1] == backslash] of the loop. *)
Definition escaped_at (text : string) (i : Z) : bool :=
  (0 <? i)%Z &&
  match Py.getitem (Py.chars text) (i - 1)%Z with
  | Ok c => bool_decide (c = "\")
  | Raise _ => false
  end.

(** The test that ends every iteration not left by [continue]. *)
Definition extract_close (rec : string → result (list item)) (text : string)
    (st : extract_state) : result extract_state :=
  if (par_count st =? 0)%Z && (0 <=? lpar_index st)%Z && (0 <=? rpar_index st)%Z
  then
    sub ← rec (Py.str_slice text (lpar_index st + 1)%Z (rpar_index st));
    Ok (mkExtract (par_count st) (-1) (-1) (ex_result st ++ [Lst sub]))
  else Ok st.

(** The body of the loop of [_extract_bracket] on [text], [rec] being the
    recursive call. *)
Definition extract_body (rec : string → result (list item)) (text : string)
    : extract_state → Z * string → result extract_state :=
  fun st '(i, char) =>
    if bool_decide (char = "(") then
      if escaped_at text i then
        Ok (mkExtract (par_count st) (lpar_index st) (rpar_index st)
              (ex_result st ++ [Str char]))
      else
        extract_close rec text
          (mkExtract (par_count st + 1)
             (if (lpar_index st =? -1)%Z then i else lpar_index st)
             (rpar_index st) (ex_result st))
    else if bool_decide (char = ")") then
      if escaped_at text i then
        Ok (mkExtract (par_count st) (lpar_index st) (rpar_index st)
              (ex_result st ++ [Str char]))
      else
        extract_close rec text
          (mkExtract (par_count st - 1) (lpar_index st) i (ex_result st))
    else
      extract_close rec text
        (if negb (0 <=? lpar_index st)%Z
         then mkExtract (par_count st) (lpar_index st)
                (rpar_index st) (ex_result st ++ [Str char])
         else st).

(** How one character changes the count of open parentheses. *)
Definition paren_step (text : string) (n : Z) (ic : Z * string) : Z :=
  if bool_decide (ic.2 = "(") then
    if escaped_at text ic.1 then n else (n + 1)%Z
  else if bool_decide (ic.2 = ")") then
    if escaped_at text ic.1 then n else (n - 1)%Z
  else n.

(** The number of unescaped opening parentheses of the text minus the
    number of its unescaped closing ones. *)
Definition paren_balance (text : string) : Z :=
  foldl (paren_step text) 0%Z (Py.enumerate (Py.chars text)).

(** The text of a group of characters and nested groups: a nested group
    is written between parentheses. *)
Fixpoint render_item (x : item) : string :=
  match x with
  | Str s => s
  | Lst l => "(" ++ foldr (fun y acc => render_item y ++ acc) EmptyString l ++ ")"
  | Op _ => EmptyString
  end.

Definition render (g : list item) : string :=
  foldr (fun y acc => render_item y ++ acc) EmptyString g.

(** The items are single characters other than the parentheses and the
    backslash, and nested groups of such items. *)
Fixpoint grouped_item (x : item) : Prop :=
  match x with
  | Str s => ∃ c : Ascii.ascii, s = String c EmptyString ∧
                 s ≠ "(" ∧ s ≠ ")" ∧ s ≠ "\"
  | Lst l => foldr (fun y acc => grouped_item y ∧ acc) True l
  | Op _ => False
  end.

Definition grouped (g : list item) : Prop :=
  foldr (fun y acc => grouped_item y ∧ acc) True g.

End Brackets.
(** ** The driver of the stack automaton (automata/pda.py) *)

Module PDADriver.
Import PDA.
Local Open Scope string_scope.

(** [DeterministicPDA._access_epsilon] (pda.py, lines 70-86): the returned
    flag, with the machine as the call leaves it. *)
Definition _access_epsilon (p : DeterministicPDA)
    : bool * DeterministicPDA :=
  match pop (stack p) with
  | None => (false, p)
  | Some (symbol, rest) =>
      let p := set_stack p rest in
      match clean_forward p (current p) (empty_symbol p) symbol with
      | None => (false, p)
      | Some (current', stack') =>
          (true,
           set_current
             (set_stack p (push_all (stack p) (exclude (empty_symbol p) stack')))
             current')
      end
  end.

(** [DeterministicPDA.accepted] (pda.py, lines 26-30) *)
Definition accepted (p : DeterministicPDA) : bool :=
  if processed_all p then bool_decide (current p ∈ accepted_states p)
  else false.

(** The first loop of [DeterministicPDA._process] (pda.py, lines 92-101),
    [fuel] bounding the number of rounds. *)
Fixpoint read_entry (fuel : nat) (p : DeterministicPDA)
    (entry : list string) : result DeterministicPDA :=
  match entry with
  | [] => Ok p
  | value :: entry' =>
      match fuel with
      | O => Raise FuelExhausted
      | S fuel' =>
          match process_round p value entry' with
          | Break p' => Ok p'
          | Continue p' entry'' => read_entry fuel' p' entry''
          end
      end
  end.

(** The second loop (pda.py, lines 106-107): [and] does not call
    [_access_epsilon] once the machine accepts. *)
Fixpoint run_epsilon (fuel : nat) (p : DeterministicPDA)
    : result DeterministicPDA :=
  match fuel with
  | O => Raise FuelExhausted
  | S fuel' =>
      if accepted p then Ok p
      else
        let '(moved, p') := _access_epsilon p in
        if (moved : bool) then run_epsilon fuel' p' else Ok p'
  end.

(** [DeterministicPDA._process] (pda.py, lines 88-109); the records kept
    for printing are left out. *)
Definition _process (fuel : nat) (p : DeterministicPDA)
    (entry : list string) : result DeterministicPDA :=
  p' ← read_entry fuel p entry;
  if processed_all p' then run_epsilon fuel p' else Ok p'.

(** No transition of the machine reads the ε-symbol as its input. *)
Definition epsilon_free (p : DeterministicPDA) : Prop :=
  ∀ q t, table p !! (q, empty_symbol p, t) = None.

(** The failure state is the fresh state that [__init__] creates: it has
    no transitions and is no accept state. *)
Definition fresh_failed_state (p : DeterministicPDA) : Prop :=
  failed_state p ∉ PDA.accepted_states p ∧
  ∀ input symbol, table p !! (failed_state p, input, symbol) = None.

(** A machine whose ε-transition on the stack top [Z] leads back to the
    same state and pushes [Z] again. *)
Definition spinning_pda : DeterministicPDA :=
  mkPDA (<[("q0", "$", "Z") := ("q0", ["Z"])]> ∅)
        {["q1"]} "q0" ["Z"] "$" "fail" true.

(** A machine without ε-input transitions: it reads one [a]. *)
Definition reader_pda : DeterministicPDA :=
  mkPDA (<[("q0", "a", "Z") := ("q1", ["$"])]> ∅)
        {["q1"]} "q0" ["Z"] "$" "fail" true.

(** The same machine after it failed. *)
Definition failed_pda : DeterministicPDA := set_current reader_pda "fail".

End PDADriver.
(** ** The lexer (grammar/lexers.py) *)

Module Lexers.
Import Automata RegularExpressions.
Local Open Scope string_scope.

(** [Token] (lexers.py, lines 7-23) *)
Record Token : Type := mkToken {
  token_type : string;
  token_value : string
}.

(** A regular expression object held by a lexer: the identity of the
    object, which [!=] compares, and the regular expression.  [check]
    mutates the automaton of the object, but it resets the automaton
    first, so that its answer does not depend on what was checked before;
    the object is therefore not threaded through. *)
Definition regex_object : Type := nat * RegEx.

(** The state of the loop of [scan]: still scanning, or left by
    [return]. *)
Inductive scan_state : Type :=
| Scanning (start_index : Z) (current_regex : option regex_object)
| Returned (tokens : list Token).

(** The loop over the regular expressions at the start of a token
    (lines 52-58): the first one that accepts the character. *)
Definition first_match (regexes : list regex_object) (char : string)
    : result (option regex_object) :=
  for_each regexes None (fun found regex =>
    match found with
    | Some _ => Ok found
    | None =>
        result_ ← check regex.2 char;
        if (result_ : bool) then Ok (Some regex) else Ok None
    end).

(** The loop over the regular expressions inside a token (lines 60-67),
    on the text [sub] read so far: the flag, and the current regular
    expression as the loop leaves it. *)
Definition extend_match (regexes : list regex_object)
    (current_regex : option regex_object) (sub : string)
    : result (bool * option regex_object) :=
  for_each regexes (false, current_regex)
    (fun '(continue_flag, current_regex) regex =>
       if (continue_flag : bool) then Ok (continue_flag, current_regex)
       else
         accepts ← check regex.2 sub;
         let differs :=
           match current_regex with
           | Some current => negb (bool_decide (regex.1 = current.1))
           | None => true
           end in
         if (accepts : bool) && differs then Ok (true, Some regex)
         else
           match current_regex with
           | None => Raise AttributeError
           | Some current =>
               still ← check current.2 sub;
               if (still : bool) then Ok (true, current_regex)
               else Ok (false, current_regex)
           end).

(** [Lexer.scan] (lexers.py, lines 37-75).  The recursion on the rest of
    the text is bounded by [fuel]; one more than the length of the text
    always suffices (lemma [scan_total]). *)
Fixpoint scan (fuel : nat) (regexes : list regex_object) (text : string)
    : result (list Token) :=
  match fuel with
  | O => Raise FuelExhausted
  | S fuel' =>
      let n := Py.len (Py.chars text) in
      st ← for_each (Py.enumerate (Py.chars text)) (Scanning (-1) None)
        (fun st '(i, char) =>
           match st with
           | Returned _ => Ok st
           | Scanning start_index current_regex =>
               if (start_index =? -1)%Z then
                 found ← first_match regexes char;
                 match found with
                 | Some regex => Ok (Scanning i (Some regex))
                 | None => Ok st
                 end
               else
                 '(continue_flag, current_regex) ←
                   extend_match regexes current_regex
                     (Py.str_slice text start_index (i + 1)%Z);
                 if (continue_flag : bool)
                 then Ok (Scanning start_index current_regex)
                 else
                   match current_regex with
                   | None => Raise AttributeError
                   | Some current =>
                       rest ← scan fuel' regexes (Py.str_slice text i n);
                       Ok (Returned
                             (mkToken (_name current.2)
                                (Py.str_slice text start_index i) :: rest))
                   end
           end);
      match st with
      | Returned tokens => Ok tokens
      | Scanning start_index current_regex =>
          match current_regex with
          | Some current =>
              if negb (start_index =? -1)%Z
              then Ok [mkToken (_name current.2)
                         (Py.str_slice text start_index n)]
              else Ok []
          | None => Ok []
          end
      end
  end.

(** The body of the loop of [scan] on [text], [rec] being the recursive
    call. *)
Definition scan_body (rec : string → result (list Token))
    (regexes : list regex_object) (text : string)
    : scan_state → Z * string → result scan_state :=
  fun st '(i, char) =>
    match st with
    | Returned _ => Ok st
    | Scanning start_index current_regex =>
        if (start_index =? -1)%Z then
          found ← first_match regexes char;
          match found with
          | Some regex => Ok (Scanning i (Some regex))
          | None => Ok st
          end
        else
          '(continue_flag, current_regex) ←
            extend_match regexes current_regex
              (Py.str_slice text start_index (i + 1)%Z);
          if (continue_flag : bool)
          then Ok (Scanning start_index current_regex)
          else
            match current_regex with
            | None => Raise AttributeError
            | Some current =>
                rest ← rec (Py.str_slice text i (Py.len (Py.chars text)));
                Ok (Returned
                      (mkToken (_name current.2)
                         (Py.str_slice text start_index i) :: rest))
            end
    end.

(** The token carries the name of one of the regular expressions, which
    accepts its value; the value is not empty; and every non-empty prefix
    of the value is accepted by one of the regular expressions. *)
Definition sound_token (regexes : list regex_object) (tok : Token) : Prop :=
  token_value tok ≠ EmptyString ∧
  (∃ regex, regex ∈ regexes ∧ token_type tok = _name regex.2 ∧
            check regex.2 (token_value tok) = Ok true) ∧
  ∀ k : nat, (1 ≤ k ≤ String.length (token_value tok))%nat →
    ∃ regex, regex ∈ regexes ∧
             check regex.2 (Py.str_slice (token_value tok) 0 (Z.of_nat k))
             = Ok true.

(** What holds of the state of the loop of [scan] on [text] when [i]
    characters have been read. *)
Definition scan_invariant (regexes : list regex_object) (text : string)
    (i : nat) (st : scan_state) : Prop :=
  match st with
  | Returned tokens => Forall (sound_token regexes) tokens
  | Scanning start_index current_regex =>
      start_index = (-1)%Z ∨
      ∃ (s : nat) (regex : regex_object),
        start_index = Z.of_nat s ∧ (s < i)%nat ∧
        current_regex = Some regex ∧ regex ∈ regexes ∧
        check regex.2 (Py.str_slice text start_index (Z.of_nat i)) = Ok true ∧
        ∀ j : nat, (s < j ≤ i)%nat →
          ∃ regex', regex' ∈ regexes ∧
            check regex'.2 (Py.str_slice text (Z.of_nat s) (Z.of_nat j))
            = Ok true
  end.

(** The answers of the regular expression are booleans: [check] raises
    nothing. *)
Definition answers_all (r : RegEx) : Prop :=
  ∀ s, check r s = Ok true ∨ check r s = Ok false.

End Lexers.

(* ================================================================== *)
(** * Properties *)
(* ================================================================== *)

Lemma for_each_app {A S : Type} (xs ys : list A) (st : S) body :
  for_each (xs ++ ys) st body =
  match for_each xs st body with
  | Ok st' => for_each ys st' body
  | Raise e => Raise e
  end.
Proof.
  revert st. induction xs as [|x xs IH]; intros st; simpl; [done|].
  destruct (body st x); [apply IH | done].
Qed.

Lemma bind_ok {A B : Type} (m : result A) (f : A → result B) (b : B) :
  m ≫= f = Ok b → ∃ x, m = Ok x ∧ f x = Ok b.
Proof. destruct m as [x|e]; [|done]. intros H. by exists x. Qed.

Module ClosureFacts.
Import Automata Closure.

Section closure_facts.
Variable a : FA.

Local Abbreviation step := (eps_step a).
Local Abbreviation dom_a := (dom (states a)).

Lemma contains_owned x : contains a x = true ↔ owned a x.
Proof. unfold contains, owned. apply bool_decide_eq_true. Qed.

Lemma size_unvisited_lt (V : gset string) e :
  e ∈ dom_a → e ∉ V → size (dom_a ∖ (V ∪ {[e]})) < size (dom_a ∖ V).
Proof.
  intros He HV. apply subset_size. split; [set_solver|].
  intros Hsub. assert (e ∈ dom_a ∖ (V ∪ {[e]})) by set_solver. set_solver.
Qed.

Lemma size_unvisited_mono (V W : gset string) :
  V ⊆ W → size (dom_a ∖ W) ≤ size (dom_a ∖ V).
Proof. intros. apply subseteq_size. set_solver. Qed.

(** The loop over the ε-successors of [x], for a recursive call that
    already satisfies [dfs_post]. *)
Lemma successors_loop (rec : string → gset string → result (gset string))
    (n : nat) (x : string) :
  (∀ e W, size (dom_a ∖ (W ∪ {[e]})) + 1 < n → dfs_post a e W (rec e W)) →
  (∀ e W, ¬ owned a e → rec e W = Raise (ValueError (_input_error a e))) →
  ∀ (l : list string) (W : gset string),
    (∀ e, e ∈ l → step x e) →
    size (dom_a ∖ W) < n →
    match for_each l W (fun closure eps =>
            if decide (eps ∈ closure) then Ok closure else rec eps closure) with
    | Ok W' =>
        W ⊆ W' ∧ (∀ e, e ∈ l → e ∈ W') ∧
        (∀ y, y ∈ W' → y ∈ W ∨ rtc step x y) ∧
        (∀ y, y ∈ W' → y ∉ W → owned a y ∧ ∀ z, step y z → z ∈ W')
    | Raise e =>
        ∃ y, e = ValueError (_input_error a y) ∧ ¬ owned a y ∧ rtc step x y
    end.
Proof.
  intros Hrec Hun l. induction l as [|e l IH]; intros W Hl Hn; simpl.
  { split_and!; [done| |by left|done]. intros e He. by apply elem_of_nil in He. }
  assert (Hxe : step x e) by (apply Hl; left).
  assert (Hl' : ∀ e', e' ∈ l → step x e') by (intros; apply Hl; by right).
  destruct (decide (e ∈ W)) as [HeW|HeW].
  - specialize (IH W Hl' Hn).
    destruct (for_each l W _) as [W'|err]; [|done].
    destruct IH as (Hsub & Hin & Hreach & Hnew).
    split_and!; [done| |done|done].
    intros e' [->|He']%elem_of_cons; [set_solver|by apply Hin].
  - destruct (decide (e ∈ dom_a)) as [Hed|Hed].
    + assert (Hlt : size (dom_a ∖ (W ∪ {[e]})) + 1 < n).
      { pose proof (size_unvisited_lt W e Hed HeW). lia. }
      pose proof (Hrec e W Hlt) as Hpost.
      destruct (rec e W) as [W1|err]; simpl in Hpost.
      * destruct Hpost as (Hsub1 & Hreach1 & Hnew1).
        assert (Hn1 : size (dom_a ∖ W1) < n).
        { eapply Nat.le_lt_trans; [|exact Hn].
          apply size_unvisited_mono. set_solver. }
        specialize (IH W1 Hl' Hn1).
        destruct (for_each l W1 _) as [W'|err]; [|done].
        destruct IH as (Hsub & Hin & Hreach & Hnew).
        split_and!.
        -- set_solver.
        -- intros e' [->|He']%elem_of_cons; [set_solver|by apply Hin].
        -- intros y Hy. destruct (Hreach y Hy) as [Hy1|?]; [|by right].
           destruct (Hreach1 y Hy1) as [?|Hr]; [by left|right].
           by eapply rtc_l.
        -- intros y Hy HyW. destruct (decide (y ∈ W1)) as [Hy1|Hy1].
           ++ destruct (Hnew1 y) as [Ho Hz]; [by left|].
              split; [done|]. intros z Hz'. apply Hsub. by apply Hz.
           ++ by apply Hnew.
      * destruct Hpost as (y & -> & Hy & Hr).
        exists y. split_and!; [done|done|]. by eapply rtc_l.
    + rewrite Hun by done. exists e. split_and!; [done|done|].
      by apply rtc_once.
Qed.

(** One call of [_e_closure]: with enough fuel it never runs dry, and it
    adds to the accumulator exactly what the search from [x] finds. *)
Lemma e_closure_post (fuel : nat) (x : string) (V : gset string) :
  size (dom_a ∖ (V ∪ {[x]})) + 1 < fuel →
  dfs_post a x V (_e_closure fuel a x V).
Proof.
  revert x V. induction fuel as [|fuel IH]; intros x V Hf; [lia|].
  simpl. destruct (contains a x) eqn:Hc.
  - apply contains_owned in Hc.
    pose proof (successors_loop (_e_closure fuel a) fuel x IH) as Hloop.
    specialize (Hloop ltac:(
      intros e W He; destruct fuel; [lia|]; simpl;
      destruct (contains a e) eqn:Hce; [|done];
      apply contains_owned in Hce; done)).
    specialize (Hloop (elements (forward (state_obj a x) (_epsilon a)))
                      (V ∪ {[x]})).
    specialize (Hloop ltac:(intros e He; by apply elem_of_elements in He)).
    specialize (Hloop ltac:(lia)).
    destruct (for_each _ _ _) as [V'|err]; simpl; [|done].
    destruct Hloop as (Hsub & Hin & Hreach & Hnew).
    split_and!; [done| |].
    + intros y Hy. destruct (Hreach y Hy) as [[?| ->%elem_of_singleton]%elem_of_union|?];
        [by left|by right|by right].
    + intros y [[Hy HyV]| ->].
      * destruct (decide (y = x)) as [->|Hne].
        -- split; [done|]. intros z Hz. apply Hin. by apply elem_of_elements.
        -- apply Hnew; [done|]. set_solver.
      * split; [done|]. intros z Hz. apply Hin. by apply elem_of_elements.
  - exists x. split_and!; [done| |done].
    intros Ho. apply contains_owned in Ho. congruence.
Qed.

End closure_facts.
End ClosureFacts.

Module ClosuresFacts.
Import Automata Closure Invariants ClosureFacts.

#[local] Arguments _e_closure : simpl never.
#[local] Arguments e_fuel : simpl never.

Section closures_facts.
Variable a : FA.

Local Abbreviation step := (eps_step a).
Local Abbreviation dom_a := (dom (states a)).

Lemma e_fuel_enough (x : string) (V : gset string) :
  size (dom_a ∖ (V ∪ {[x]})) + 1 < e_fuel a.
Proof.
  unfold e_fuel. rewrite <- size_dom.
  pose proof (subseteq_size (dom_a ∖ (V ∪ {[x]})) dom_a ltac:(set_solver)).
  lia.
Qed.

(** The loop of [_e_closures] over the argument tuple. *)
Lemma closures_loop (l : list string) (W : gset string) :
  match for_each l W (fun currents i =>
          closure ← _e_closure (e_fuel a) a i currents;
          Ok (closure ∪ closure)) with
  | Ok F =>
      W ⊆ F ∧ (∀ i, i ∈ l → i ∈ F) ∧
      (∀ y, y ∈ F → y ∈ W ∨ ∃ i, i ∈ l ∧ rtc step i y) ∧
      (∀ y, (y ∈ F ∧ y ∉ W) ∨ y ∈ l → owned a y ∧ ∀ z, step y z → z ∈ F)
  | Raise e =>
      ∃ i y, i ∈ l ∧ rtc step i y ∧ ¬ owned a y ∧
             e = ValueError (_input_error a y)
  end.
Proof.
  revert W. induction l as [|i l IH]; intros W; simpl.
  { split_and!; [done|by intros ? ?%elem_of_nil|by left|].
    intros y [[? ?]|?%elem_of_nil]; done. }
  pose proof (e_closure_post a (e_fuel a) i W (e_fuel_enough i W)) as Hpost.
  destruct (_e_closure (e_fuel a) a i W) as [W1|err];
    simpl in *.
  - destruct Hpost as (Hsub1 & Hreach1 & Hnew1).
    replace (W1 ∪ W1) with W1 by set_solver.
    specialize (IH W1).
    destruct (for_each l W1 _) as [F|err]; simpl in *.
    + destruct IH as (Hsub & Hin & Hreach & Hnew). split_and!.
      * set_solver.
      * intros j [->|Hj]%elem_of_cons; [set_solver|by apply Hin].
      * intros y Hy. destruct (Hreach y Hy) as [Hy1|(j & Hj & Hr)].
        -- destruct (Hreach1 y Hy1) as [?|Hr]; [by left|].
           right. exists i. split; [left|done].
        -- right. exists j. split; [by right|done].
      * intros y Hy.
        assert (Hcase : y = i ∨ (y ∈ W1 ∧ y ∉ W) ∨ (y ∈ F ∧ y ∉ W1) ∨ y ∈ l).
        { destruct Hy as [[HyF HyW]|[->|Hy]%elem_of_cons]; [|by left|by auto].
          destruct (decide (y ∈ W1)); auto. }
        destruct Hcase as [->|[Hy1|Hy2]].
        -- destruct (Hnew1 i) as [Ho Hz]; [by right|].
           split; [done|]. intros z Hz'. apply Hsub. by apply Hz.
        -- destruct (Hnew1 y) as [Ho Hz]; [by left|].
           split; [done|]. intros z Hz'. apply Hsub. by apply Hz.
        -- apply Hnew. destruct Hy2 as [?|?]; [by left|by right].
    + destruct IH as (j & y & Hj & Hr & Ho & ->).
      exists j, y. split_and!; [by right|done|done|done].
  - destruct Hpost as (y & -> & Ho & Hr).
    exists i, y. split_and!; [left|done|done|done].
Qed.

(** What [_e_closures] returns: either the set of all states reachable by
    ε-moves from the arguments, all of which are owned, or the report of a
    reachable state that the automaton does not own. *)
Lemma e_closures_post (l : list string) :
  match _e_closures a l with
  | Ok C =>
      (∀ y, y ∈ C ↔ ∃ i, i ∈ l ∧ rtc step i y) ∧ C ⊆ dom_a
  | Raise e =>
      ∃ i y, i ∈ l ∧ rtc step i y ∧ ¬ owned a y ∧
             e = ValueError (_input_error a y)
  end.
Proof.
  unfold _e_closures. pose proof (closures_loop l (list_to_set l)) as H.
  destruct (for_each l _ _) as [C|err]; [|done].
  destruct H as (Hsub & Hin & Hreach & Hnew).
  assert (Hall : ∀ y, y ∈ C → owned a y ∧ ∀ z, step y z → z ∈ C).
  { intros y Hy. apply Hnew.
    destruct (decide (y ∈ (list_to_set l : gset string))) as [Hl|Hl].
    - right. by apply elem_of_list_to_set in Hl.
    - by left. }
  split.
  - intros y. split.
    + intros Hy. destruct (Hreach y Hy) as [Hl|?]; [|done].
      apply elem_of_list_to_set in Hl. by exists y.
    + intros (i & Hi & Hr). apply Hin in Hi.
      induction Hr as [|x y z Hxy _ IHr]; [done|].
      apply IHr. by apply (Hall x).
  - intros y Hy. by apply Hall.
Qed.

Lemma reach_least_closed (S C : gset string) :
  (∀ y, y ∈ C ↔ ∃ i, i ∈ S ∧ rtc step i y) → least_closed a S C.
Proof.
  intros HC. split_and!.
  - intros x Hx. apply HC. by exists x.
  - intros x y Hx Hxy. apply HC. apply HC in Hx as (i & Hi & Hr).
    exists i. split; [done|]. by eapply rtc_r.
  - intros C' Hsub Hcl y (i & Hi & Hr)%HC. apply Hsub in Hi.
    induction Hr as [|x y z Hxy _ IHr]; [done|].
    apply IHr. by eapply Hcl.
Qed.

Lemma least_closed_unique (S C1 C2 : gset string) :
  least_closed a S C1 → least_closed a S C2 → C1 = C2.
Proof.
  intros (H1 & H2 & H3) (H1' & H2' & H3').
  apply set_eq. intros x. split; [by apply H3|by apply H3'].
Qed.

Lemma least_closed_of_closed (C : gset string) :
  eps_closed a C → least_closed a C C.
Proof. intros HC. split_and!; [done|done|]. by intros C' ? _. Qed.

Lemma owned_reach (x y : string) :
  eps_targets_owned a → owned a x → rtc step x y → owned a y.
Proof.
  intros Hwf Hx Hr. induction Hr as [|x y z Hxy _ IH]; [done|].
  apply IH. by eapply Hwf.
Qed.

(** Over owned arguments whose ε-targets are owned the computation
    succeeds, and its result is the smallest closed superset. *)
Lemma e_closures_ok (l : list string) :
  eps_targets_owned a → (∀ i, i ∈ l → owned a i) →
  ∃ C, _e_closures a l = Ok C ∧ least_closed a (list_to_set l) C ∧ C ⊆ dom_a ∧
       ∀ y, y ∈ C ↔ ∃ i, i ∈ l ∧ rtc step i y.
Proof.
  intros Hwf Hl. pose proof (e_closures_post l) as H.
  destruct (_e_closures a l) as [C|err].
  - destruct H as [HC Hd]. exists C. split_and!; [done| |done|done].
    apply reach_least_closed. intros y. rewrite HC.
    by setoid_rewrite elem_of_list_to_set.
  - destruct H as (i & y & Hi & Hr & Ho & _). destruct Ho.
    eapply owned_reach; [done| |done]. by apply Hl.
Qed.

Lemma e_closures_set_ok (S : gset string) :
  eps_targets_owned a → S ⊆ dom_a →
  ∃ C, _e_closures a (elements S) = Ok C ∧ least_closed a S C ∧ C ⊆ dom_a ∧
       ∀ y, y ∈ C ↔ ∃ i, i ∈ S ∧ rtc step i y.
Proof.
  intros Hwf HS.
  destruct (e_closures_ok (elements S) Hwf) as (C & HC & Hl & Hd & Hr).
  { intros i Hi%elem_of_elements. by apply HS. }
  exists C. rewrite list_to_set_elements_L in Hl. split_and!; [done..|].
  intros y. rewrite Hr. by setoid_rewrite elem_of_elements.
Qed.

End closures_facts.
End ClosuresFacts.

Module EngineFacts.
Import Automata Closure Invariants ClosureFacts ClosuresFacts.

#[local] Arguments _e_closure : simpl never.
#[local] Arguments e_fuel : simpl never.

Lemma set_current_id (a : FA) : set_current a (current a) = a.
Proof. by destruct a. Qed.

Lemma wf_eps_targets (a : FA) : wf a → eps_targets_owned a.
Proof. intros Hwf x y Hx Hxy. by eapply wf_targets. Qed.

Lemma wf_set_current (a : FA) (c : gset string) :
  wf a → c ⊆ dom (states a) → wf (set_current a c).
Proof. intros [H1 H2 H3 H4] Hc. by split. Qed.

Lemma elem_of_step_set (a : FA) (S : gset string) (v y : string) :
  y ∈ step_set a S v ↔ ∃ s, s ∈ S ∧ y ∈ forward (state_obj a s) v.
Proof.
  unfold step_set. rewrite elem_of_union_list. split.
  - intros (X & HX & Hy). apply list_elem_of_fmap in HX as (s & -> & Hs).
    exists s. by rewrite <- elem_of_elements.
  - intros (s & Hs & Hy). eexists. split; [|exact Hy].
    apply list_elem_of_fmap. exists s. by rewrite elem_of_elements.
Qed.

Lemma step_set_owned (a : FA) (S : gset string) (v : string) :
  wf a → S ⊆ dom (states a) → step_set a S v ⊆ dom (states a).
Proof.
  intros Hwf HS y (s & Hs & Hy)%elem_of_step_set.
  eapply (wf_targets a Hwf); [|exact Hy]. by apply HS.
Qed.

(** The inner loop of [NFA._access]: every target is looked up and added. *)
Lemma access_inner_loop (a : FA) (l : list string) (acc : gset string) :
  (∀ e, e ∈ l → owned a e) →
  for_each l acc (fun old_currents end_ =>
    tgt ← states_getitem a (_get_alias a end_);
    Ok (old_currents ∪ {[tgt]})) = Ok (acc ∪ list_to_set l).
Proof.
  revert acc. induction l as [|e l IH]; intros acc Hl; simpl.
  { f_equal. set_solver. }
  assert (He : owned a e) by (apply Hl; left).
  unfold states_getitem, _get_alias. apply elem_of_dom in He as [tr ->]. simpl.
  rewrite IH by (intros; apply Hl; by right). f_equal. set_solver.
Qed.

Lemma access_outer_loop (a : FA) (v : string) (l : list string)
    (acc : gset string) :
  (∀ s e, s ∈ l → e ∈ forward (state_obj a s) v → owned a e) →
  for_each l acc (fun old_currents state =>
    let res := forward (state_obj a state) v in
    for_each (elements res) old_currents (fun old_currents end_ =>
      tgt ← states_getitem a (_get_alias a end_);
      Ok (old_currents ∪ {[tgt]})))
  = Ok (acc ∪ ⋃ ((fun s => forward (state_obj a s) v) <$> l)).
Proof.
  revert acc. induction l as [|s l IH]; intros acc Hl; simpl.
  { f_equal. set_solver. }
  rewrite access_inner_loop.
  2:{ intros e He%elem_of_elements. eapply Hl; [left|done]. }
  rewrite IH by (intros ? ? ?; apply Hl; by right).
  f_equal. rewrite list_to_set_elements_L. set_solver.
Qed.

(** [NFA._access] on a valid symbol moves to the union of the successors. *)
Lemma NFA_access_ok (a : FA) (v : string) :
  wf a → v ∈ inputs a →
  NFA_access a v = Ok (set_current a (step_set a (current a) v)).
Proof.
  intros Hwf Hv. unfold NFA_access. rewrite decide_True by done.
  rewrite access_outer_loop.
  - simpl. unfold step_set. do 2 f_equal. set_solver.
  - intros s e Hs%elem_of_elements He. eapply (wf_targets a Hwf); [|exact He].
    by apply (wf_current a Hwf).
Qed.

Lemma NFA_access_invalid (a : FA) (v : string) :
  v ∉ inputs a → NFA_access a v = Raise (ValueError (_input_error a v)).
Proof. intros Hv. unfold NFA_access. by rewrite decide_False. Qed.

(** [EPSILON_NFA._access] on a valid symbol. *)
Lemma access_ok (a : FA) (v : string) :
  wf a → v ∈ inputs a →
  ∃ C, _access a v = Ok (set_current a C) ∧
       least_closed a (step_set a (current a) v) C ∧ C ⊆ dom (states a) ∧
       ∀ y, y ∈ C ↔ ∃ i, i ∈ step_set a (current a) v ∧ rtc (eps_step a) i y.
Proof.
  intros Hwf Hv. unfold _access. rewrite NFA_access_ok by done. simpl.
  unfold _all_closures. simpl.
  destruct (e_closures_set_ok (set_current a (step_set a (current a) v))
              (step_set a (current a) v)) as (C & HC & Hl & Hd & Hr).
  { by apply (wf_eps_targets a). }
  { apply (step_set_owned a); [done|]. by apply wf_current. }
  rewrite HC. simpl. by exists C.
Qed.

Lemma access_invalid (a : FA) (v : string) :
  v ∉ inputs a → _access a v = Raise (ValueError (_input_error a v)).
Proof. intros Hv. unfold _access. by rewrite NFA_access_invalid. Qed.

(** On a closed current set [_all_closures] changes nothing. *)
Lemma all_closures_closed (a : FA) :
  wf a → eps_closed a (current a) → _all_closures a = Ok (current a).
Proof.
  intros Hwf Hcl. unfold _all_closures.
  destruct (e_closures_set_ok a (current a)) as (C & HC & Hl & _ & _).
  { by apply wf_eps_targets. } { by apply wf_current. }
  rewrite HC. f_equal.
  eapply least_closed_unique; [exact Hl|]. by apply least_closed_of_closed.
Qed.

Lemma enter_access (a : FA) (v : string) :
  wf a → eps_closed a (current a) → enter a v = _access a v.
Proof.
  intros Hwf Hcl. unfold enter, _process. rewrite all_closures_closed by done.
  unfold mbind, result_bind, FA_process. cbn [for_each].
  rewrite set_current_id. by destruct (_access a v).
Qed.


Lemma accepted_empty (a : FA) : current a = ∅ → accepted a = false.
Proof.
  intros H. unfold accepted. rewrite H. apply bool_decide_eq_false. set_solver.
Qed.

Lemma reset_ok (a : FA) :
  wf a →
  ∃ C, reset a = Ok (set_current a C) ∧
       least_closed a {[start_state a]} C ∧ C ⊆ dom (states a) ∧
       ∀ y, y ∈ C ↔ rtc (eps_step a) (start_state a) y.
Proof.
  intros Hwf. unfold reset.
  destruct (e_closures_ok a [start_state a]) as (C & HC & Hl & Hd & Hr).
  { by apply wf_eps_targets. }
  { intros i ->%list_elem_of_singleton. by apply wf_start. }
  rewrite HC. simpl. exists C. split_and!; [done| |done|].
  - replace ({[start_state a]} : gset string)
      with (list_to_set [start_state a] : gset string) by set_solver.
    done.
  - intros y. rewrite Hr. split.
    + by intros (i & ->%list_elem_of_singleton & ?).
    + intros ?. exists (start_state a). split; [by left|done].
Qed.

End EngineFacts.

(** ** The stack automaton step *)

Module PDAFacts.
Import PDA.

Lemma pop_snoc (rest : list string) (t : string) :
  pop (rest ++ [t]) = Some (t, rest).
Proof. unfold pop. rewrite reverse_snoc. simpl. by rewrite reverse_involutive. Qed.

Lemma pop_nil : pop [] = None.
Proof. done. Qed.

(** C8.  A step of the stack automaton on input symbol [v] with the
    stack top [t] popped: the ε-input transition (ε, t) of the current
    state is looked up first.  If it exists, its push sequence without the
    ε placeholders is pushed, the current state is updated and the step
    reports that the input symbol was not consumed, so that the driver
    puts it back, whatever transition (v, t) may exist.  Only if there is
    no ε-transition is (v, t) looked up; if it exists it is taken in the
    same way and the input symbol is consumed. *)
Theorem pda_step_epsilon_first (p : DeterministicPDA) (v t : string)
    (rest entry : list string) :
  stack p = rest ++ [t] →
  (∀ q seq,
     table p !! (current p, empty_symbol p, t) = Some (q, seq) →
     _access p v = (false, fired p rest q seq) ∧
     (current p ≠ failed_state p →
      process_round p v entry = Continue (fired p rest q seq) (v :: entry))) ∧
  (table p !! (current p, empty_symbol p, t) = None →
   ∀ q seq,
     table p !! (current p, v, t) = Some (q, seq) →
     _access p v = (true, fired p rest q seq) ∧
     (current p ≠ failed_state p →
      process_round p v entry = Continue (fired p rest q seq) entry)).
Proof.
  intros Hst. split.
  - intros q seq He.
    assert (Ha : _access p v = (false, fired p rest q seq)).
    { unfold _access. rewrite Hst, pop_snoc. unfold clean_forward. simpl.
      by rewrite He. }
    split; [done|]. intros Hne. unfold process_round.
    rewrite bool_decide_eq_false_2 by done. by rewrite Ha.
  - intros He q seq Hv.
    assert (Ha : _access p v = (true, fired p rest q seq)).
    { unfold _access. rewrite Hst, pop_snoc. unfold clean_forward. simpl.
      by rewrite He, Hv. }
    split; [done|]. intros Hne. unfold process_round.
    rewrite bool_decide_eq_false_2 by done. by rewrite Ha.
Qed.

(** On an empty stack, and when neither transition exists, the machine
    enters the failure state. *)
Lemma pda_step_fails (p : DeterministicPDA) (v : string) :
  (stack p = [] → _access p v = (true, set_current p (failed_state p))) ∧
  (∀ rest t, stack p = rest ++ [t] →
     table p !! (current p, empty_symbol p, t) = None →
     table p !! (current p, v, t) = None →
     _access p v = (true, set_current (set_stack p rest) (failed_state p))).
Proof.
  split.
  - intros Hst. unfold _access. by rewrite Hst.
  - intros rest t Hst He Hv. unfold _access. rewrite Hst, pop_snoc.
    unfold clean_forward. simpl. by rewrite He, Hv.
Qed.

Local Open Scope string_scope.

Lemma pda_step_epsilon_first_witness :
  _access example_pda "a" = (false, fired example_pda [] "q1" ["A"; "$"]) ∧
  _access (fired example_pda [] "q1" ["A"; "$"]) "a"
  = (true, fired (fired example_pda [] "q1" ["A"; "$"]) [] "q2" ["$"]).
Proof.
  split.
  - apply (pda_step_epsilon_first example_pda "a" "Z" [] []); reflexivity.
  - apply (pda_step_epsilon_first (fired example_pda [] "q1" ["A"; "$"])
             "a" "A" [] []); reflexivity.
Defined.

End PDAFacts.

(** ** Operator nodes: the operand check at construction *)

Module OperatorFacts.
Import Automata Build Operators RegularExpressions Notions.

Lemma check_type_err_spec (c : op_class) (x : item) :
  _check_type_err (_item_types c) x =
  if kind_allowed c x then Ok tt else Raise (type_error x).
Proof. by destruct c, x. Qed.

Lemma kind_allowed_collation (x : item) :
  kind_allowed CCollation x = true ↔ ∃ s, x = Str s.
Proof.
  destruct x; simpl; split; try done; try (by intros [? ?]). by eexists.
Qed.

(** C9 (as amended).  Every constructor checks the kind of each operand
    against the types its class declares: an operand of a declared type is
    accepted, any other operand raises the invalid-operand-type error, which
    names the operand's class, at construction.  For [Collation] the
    declared set is [str] alone, and the length of the strings is not looked
    at: the construction succeeds exactly when both operands are strings. *)
Theorem operand_kind_checked_at_construction :
  (∀ c x, UnaryOperator_init c x =
          if kind_allowed c x then Ok tt else Raise (type_error x)) ∧
  (∀ c first last,
     BinaryOperator_init c first last =
     if kind_allowed c first
     then if kind_allowed c last then Ok tt else Raise (type_error last)
     else Raise (type_error first)) ∧
  (∀ first last,
     new_Collation first last =
     if kind_allowed CCollation first
     then if kind_allowed CCollation last
          then Ok (Collation first last) else Raise (type_error last)
     else Raise (type_error first)) ∧
  (∀ first last,
     is_ok (new_Collation first last) ↔
     ∃ s1 s2, first = Str s1 ∧ last = Str s2) ∧
  (∀ x, new_Single x =
        if kind_allowed CSingle x then Ok (Single x) else Raise (type_error x)) ∧
  (∀ x, new_KleeneStar x =
        if kind_allowed CKleeneStar x then Ok (KleeneStar x)
        else Raise (type_error x)) ∧
  (∀ x, new_KleenePlus x =
        if kind_allowed CKleenePlus x then Ok (KleenePlus x)
        else Raise (type_error x)) ∧
  (∀ x, new_QuestionMark x =
        if kind_allowed CQuestionMark x then Ok (QuestionMark x)
        else Raise (type_error x)) ∧
  (∀ first last,
     new_Alternation first last =
     if kind_allowed CAlternation first
     then if kind_allowed CAlternation last
          then Ok (Alternation first last) else Raise (type_error last)
     else Raise (type_error first)) ∧
  (∀ first last,
     new_Concatenation first last =
     if kind_allowed CConcatenation first
     then if kind_allowed CConcatenation last
          then Ok (Concatenation first last) else Raise (type_error last)
     else Raise (type_error first)).
Proof.
  assert (Hu : ∀ c x, UnaryOperator_init c x =
          if kind_allowed c x then Ok tt else Raise (type_error x)).
  { intros c x. apply check_type_err_spec. }
  assert (Hb : ∀ c first last,
     BinaryOperator_init c first last =
     if kind_allowed c first
     then if kind_allowed c last then Ok tt else Raise (type_error last)
     else Raise (type_error first)).
  { intros c first last. unfold BinaryOperator_init.
    rewrite !check_type_err_spec. by destruct (kind_allowed c first). }
  assert (Hc : ∀ first last,
     new_Collation first last =
     if kind_allowed CCollation first
     then if kind_allowed CCollation last
          then Ok (Collation first last) else Raise (type_error last)
     else Raise (type_error first)).
  { intros first last. unfold new_Collation. rewrite Hb.
    by destruct (kind_allowed CCollation first);
      [destruct (kind_allowed CCollation last)|]. }
  split_and!; try done.
  - intros first last. rewrite Hc. split.
    + destruct (kind_allowed _ first) eqn:H1; [|done].
      destruct (kind_allowed _ last) eqn:H2; [|done]. intros _.
      apply kind_allowed_collation in H1 as [s1 ->].
      apply kind_allowed_collation in H2 as [s2 ->]. by exists s1, s2.
    + by intros (s1 & s2 & -> & ->).
  - intros x. unfold new_Single. rewrite Hu. by destruct (kind_allowed _ x) eqn:?.
  - intros x. unfold new_KleeneStar. rewrite Hu. by destruct (kind_allowed _ x) eqn:?.
  - intros x. unfold new_KleenePlus. rewrite Hu. by destruct (kind_allowed _ x) eqn:?.
  - intros x. unfold new_QuestionMark. rewrite Hu. by destruct (kind_allowed _ x) eqn:?.
  - intros first last. unfold new_Alternation. rewrite Hb.
    by destruct (kind_allowed _ first); [destruct (kind_allowed _ last)|].
  - intros first last. unfold new_Concatenation. rewrite Hb.
    by destruct (kind_allowed _ first); [destruct (kind_allowed _ last)|].
Qed.

Local Open Scope string_scope.

(** C9, counterexample.  [Collation] does not reject every operand that is
    not a single character: two-character strings are accepted at
    construction.  (Running the node then fails in [ord].) *)
Lemma collation_accepts_long_strings :
  ¬ (∀ first last,
       is_ok (new_Collation first last) →
       single_character first ∧ single_character last).
Proof.
  intros H. destruct (H (Str "ab") (Str "cd") I) as [[c Hc] _]. discriminate Hc.
Qed.

Lemma collation_long_strings_run :
  new_Collation (Str "ab") (Str "cd") = Ok (Collation (Str "ab") (Str "cd")) ∧
  execute (Collation (Str "ab") (Str "cd")) = Raise TypeError.
Proof. split; reflexivity. Qed.

End OperatorFacts.

(** ** Compiling and running concrete patterns *)

Module Scenarios.
Import Automata Build Operators RegularExpressions Notions.
Local Open Scope string_scope.

(** C3, at the failing input.  The second bracket of [[a-b][cde]] has no
    [-] between its [[] and []], yet no parse error is raised: the dash
    index of the first bracket is still set, and the bracket is read as the
    collation [c-e].  The pattern compiles and accepts [ad]. *)
Theorem second_bracket_without_dash_compiles :
  match RegEx_init "[a-b][cde]" "X" with
  | Ok r =>
      _groups r = Op (Concatenation (Op (Collation (Str "a") (Str "b")))
                                    (Op (Collation (Str "c") (Str "e")))) ∧
      check r "ad" = Ok true ∧ check r "bd" = Ok true
  | Raise _ => False
  end.
Proof. vm_compute. done. Qed.

(** C6, at the failing input.  For a one-character operand the text handed
    to the factory still contains the placeholder [{0}], so the automaton of
    [a?] has the symbols [{0}] and [$] and no transition on [a]: the text
    [a] is rejected, while the empty text and the text [$] are accepted. *)
Theorem question_mark_rejects_its_operand :
  match RegEx_init "a?" "Q" with
  | Ok r =>
      _groups r = Op (QuestionMark (Str "a")) ∧
      valid_characters r = {["{0}"; "$"]} ∧
      forward (state_obj (automaton r) "qm0") "a" = ∅ ∧
      check r "a" = Ok false ∧
      check r EmptyString = Ok true ∧
      check r "$" = Ok true
  | Raise _ => False
  end.
Proof. vm_compute. done. Qed.

(** C4.  [KleenePlus.execute] returns the concatenation of a deep copy of
    the operand's automaton with the Kleene closure of the operand's
    automaton, and fails as the operand does; the compiled [(ab)+] accepts
    [ab] and [abab] and rejects [a] and the empty text. *)
Theorem kleene_plus_execute :
  (∀ x, execute (KleenePlus x) =
        match plus_operand x with
        | Ok enfa => Ok (concat (deepcopy enfa) (kleene_operator enfa))
        | Raise e => Raise e
        end) ∧
  (∃ r, RegEx_init "(ab)+" "P" = Ok r ∧
        _groups r = Op (KleenePlus (Op (Concatenation (Str "a") (Str "b"))))) ∧
  answers (RegEx_init "(ab)+" "P") "ab" true ∧
  answers (RegEx_init "(ab)+" "P") "abab" true ∧
  answers (RegEx_init "(ab)+" "P") "a" false ∧
  answers (RegEx_init "(ab)+" "P") EmptyString false.
Proof.
  split_and!.
  - by intros [s|l|o].
  - destruct (RegEx_init "(ab)+" "P") as [r|e] eqn:Hr.
    + exists r. split; [done|].
      assert (H : match RegEx_init "(ab)+" "P" with
                  | Ok r => _groups r
                  | Raise _ => Str EmptyString end
                  = Op (KleenePlus (Op (Concatenation (Str "a") (Str "b")))))
        by (vm_compute; done).
      by rewrite Hr in H.
    + exfalso.
      assert (H : is_ok (RegEx_init "(ab)+" "P")) by (vm_compute; done).
      by rewrite Hr in H.
  - vm_compute. done.
  - vm_compute. done.
  - vm_compute. done.
  - vm_compute. done.
Qed.

End Scenarios.

(** ** Built automata satisfy the structural invariants *)

Module BuildFacts.
Import Automata Closure Invariants Graphs Build.

Lemma wf_intro (a : FA) :
  closed_targets (states a) →
  start_state a ∈ dom (states a) →
  accepted_states a ⊆ dom (states a) →
  current a ⊆ dom (states a) →
  wf a.
Proof.
  intros Hc Hs Ha Hcur. split; try done.
  intros x sym y Hx Hy. unfold owned in *. apply elem_of_dom in Hx as [tr Htr].
  unfold state_obj, forward in Hy. rewrite Htr in Hy. simpl in Hy.
  destruct (tr !! sym) as [Y|] eqn:HY; simpl in Hy; [|set_solver].
  by eapply Hc.
Qed.

Lemma wf_closed_targets (a : FA) : wf a → closed_targets (states a).
Proof.
  intros Hwf x tr sym Y y Hx HY Hy.
  apply (wf_targets a Hwf x sym y); [by eapply elem_of_dom_2|].
  unfold state_obj, forward. by rewrite Hx; simpl; rewrite HY.
Qed.

Lemma dom_add_transition sts src sym dst :
  dom (add_transition sts src sym dst) = dom sts.
Proof. unfold add_transition. apply leibniz_equiv, dom_alter. Qed.

Lemma closed_add_transition sts src sym dst :
  closed_targets sts → dst ∈ dom sts →
  closed_targets (add_transition sts src sym dst).
Proof.
  intros Hc Hd x tr sym' Y y Hx HY Hy. rewrite dom_add_transition.
  unfold add_transition in Hx. rewrite lookup_alter in Hx.
  destruct (decide (src = x)) as [->|Hne]; [|by eapply Hc].
  destruct (sts !! x) as [tr0|] eqn:Htr0; simplify_eq/=.
  rewrite lookup_insert in HY.
  destruct (decide (sym = sym')) as [->|Hne]; [|by eapply Hc].
  simplify_eq. apply elem_of_union in Hy as [Hy| ->%elem_of_singleton]; [|done].
  unfold forward in Hy. destruct (tr0 !! sym') as [Y0|] eqn:HY0; simpl in Hy;
    [by eapply Hc|set_solver].
Qed.

Lemma link_all_facts sts eps srcs dst :
  closed_targets sts → dst ∈ dom sts →
  dom (link_all sts eps srcs dst) = dom sts ∧
  closed_targets (link_all sts eps srcs dst).
Proof.
  intros Hc Hd. unfold link_all.
  induction (elements srcs) as [|s l [IH1 IH2]]; simpl; [done|].
  rewrite dom_add_transition. split; [done|].
  apply closed_add_transition; [done|by rewrite IH1].
Qed.

Lemma closed_insert_empty sts s :
  closed_targets sts → closed_targets (<[s := ∅]> sts).
Proof.
  intros Hc x tr sym Y y Hx HY Hy. rewrite dom_insert_L.
  rewrite lookup_insert in Hx. destruct (decide (s = x)) as [->|Hne].
  - by simplify_eq.
  - apply elem_of_union_r. by eapply Hc.
Qed.

Lemma closed_union (m1 m2 : gmap string transitions) :
  closed_targets m1 → closed_targets m2 → closed_targets (m1 ∪ m2).
Proof.
  intros H1 H2 x tr sym Y y Hx HY Hy. rewrite dom_union_L.
  apply lookup_union_Some_raw in Hx as [Hx|[_ Hx]].
  - apply elem_of_union_l. by eapply H1.
  - apply elem_of_union_r. by eapply H2.
Qed.

Lemma closed_empty : closed_targets ∅.
Proof. intros x tr sym Y y Hx. by rewrite lookup_empty in Hx. Qed.

Lemma dom_rename_states ρ sts :
  dom (rename_states ρ sts) = rename_set ρ (dom sts).
Proof.
  unfold rename_states, rename_set. rewrite dom_list_to_map_L.
  apply set_eq. intros k. rewrite elem_of_list_to_set, elem_of_map.
  rewrite list_elem_of_fmap. split.
  - intros ([k' tr'] & -> & Hin). apply list_elem_of_fmap in Hin as ([k0 tr0] & Heq & Hin).
    simplify_eq/=. apply elem_of_map_to_list in Hin.
    exists k0. split; [done|]. by eapply elem_of_dom_2.
  - intros (k0 & -> & [tr0 Hk0]%elem_of_dom).
    exists (apply_alias ρ k0, rename_set ρ <$> tr0). split; [done|].
    apply list_elem_of_fmap. exists (k0, tr0). split; [done|].
    by apply elem_of_map_to_list.
Qed.

Lemma closed_rename_states ρ sts :
  closed_targets sts → closed_targets (rename_states ρ sts).
Proof.
  intros Hc x tr sym Y y Hx HY Hy. rewrite dom_rename_states.
  unfold rename_states in Hx. apply elem_of_list_to_map_2 in Hx.
  apply list_elem_of_fmap in Hx as ([k0 tr0] & Heq & Hin).
  apply elem_of_map_to_list in Hin. simplify_eq/=.
  rewrite lookup_fmap in HY. destruct (tr0 !! sym) as [Y0|] eqn:HY0; simplify_eq/=.
  unfold rename_set in *. apply elem_of_map in Hy as (y0 & -> & Hy0).
  apply elem_of_map. exists y0. split; [done|]. by eapply Hc.
Qed.

Lemma wf_rename ρ (a : FA) : wf a → wf (rename ρ a).
Proof.
  intros Hwf. apply wf_intro; simpl.
  - by apply closed_rename_states, wf_closed_targets.
  - rewrite dom_rename_states. apply elem_of_map. eexists. split; [done|].
    by apply wf_start.
  - rewrite dom_rename_states. unfold rename_set. intros y (y0 & -> & Hy0)%elem_of_map.
    apply elem_of_map. exists y0. split; [done|]. by apply (wf_accepted a Hwf).
  - rewrite dom_rename_states. unfold rename_set. intros y (y0 & -> & Hy0)%elem_of_map.
    apply elem_of_map. exists y0. split; [done|]. by apply (wf_current a Hwf).
Qed.

Lemma wf_alias_rename taken (b : FA) counter :
  wf b → wf (alias_rename taken b counter).1.1.
Proof.
  intros Hwf. unfold alias_rename.
  destruct (alias_map _ _ _ _) as [[ρ used] counter']. simpl.
  by apply wf_rename.
Qed.

Lemma wf_deepcopy (a : FA) : wf a → wf (deepcopy a).
Proof. apply wf_alias_rename. Qed.

Lemma wf_init sts accept ins start eps :
  closed_targets sts → start ∈ dom sts → accept ⊆ dom sts →
  wf (EPSILON_NFA_init sts accept ins start eps).
Proof. intros. apply wf_intro; simpl; [done..|set_solver]. Qed.

Lemma wf_union (a b : FA) : wf a → wf b → wf (union a b).
Proof.
  intros Ha Hb. unfold union.
  pose proof (wf_alias_rename (dom (states a)) b 0 Hb) as Hb'.
  destruct (alias_rename _ b 0) as [[b' used] counter]. simpl in Hb'.
  destruct (fresh used counter) as [s counter1].
  destruct (fresh (used ∪ {[s]}) counter1) as [f counter2].
  set (sts0 := <[f := ∅]> (<[s := ∅]> (states a ∪ states b'))).
  assert (Hd0 : dom sts0 = {[f]} ∪ ({[s]} ∪ (dom (states a) ∪ dom (states b')))).
  { unfold sts0. by rewrite !dom_insert_L, dom_union_L. }
  assert (Hc0 : closed_targets sts0).
  { unfold sts0. do 2 apply closed_insert_empty.
    apply closed_union; by apply wf_closed_targets. }
  set (sts1 := add_transition sts0 s (_epsilon a) (start_state a)).
  assert (Hc1 : closed_targets sts1 ∧ dom sts1 = dom sts0).
  { unfold sts1. rewrite dom_add_transition. split; [|done].
    apply closed_add_transition; [done|]. rewrite Hd0.
    pose proof (wf_start a Ha). unfold owned in *. set_solver. }
  destruct Hc1 as [Hc1 Hd1].
  set (sts2 := add_transition sts1 s (_epsilon a) (start_state b')).
  assert (Hc2 : closed_targets sts2 ∧ dom sts2 = dom sts0).
  { unfold sts2. rewrite dom_add_transition. split; [|done].
    apply closed_add_transition; [done|]. rewrite Hd1, Hd0.
    pose proof (wf_start b' Hb'). unfold owned in *. set_solver. }
  destruct Hc2 as [Hc2 Hd2].
  destruct (link_all_facts sts2 (_epsilon a)
              (accepted_states a ∪ accepted_states b') f Hc2) as [Hd3 Hc3].
  { rewrite Hd2, Hd0. set_solver. }
  apply wf_init; [done|..]; rewrite Hd3, Hd2, Hd0; set_solver.
Qed.

Lemma wf_concat (a b : FA) : wf a → wf b → wf (concat a b).
Proof.
  intros Ha Hb. unfold concat.
  pose proof (wf_alias_rename (dom (states a)) b 0 Hb) as Hb'.
  destruct (alias_rename _ b 0) as [[b' used] counter]. simpl in Hb'.
  assert (Hc0 : closed_targets (states a ∪ states b')).
  { apply closed_union; by apply wf_closed_targets. }
  destruct (link_all_facts (states a ∪ states b') (_epsilon a)
              (accepted_states a) (start_state b') Hc0) as [Hd1 Hc1].
  { rewrite dom_union_L. pose proof (wf_start b' Hb'). unfold owned in *.
    set_solver. }
  apply wf_init; [done|..]; rewrite Hd1, dom_union_L.
  - pose proof (wf_start a Ha). unfold owned in *. set_solver.
  - pose proof (wf_accepted b' Hb'). set_solver.
Qed.

Lemma wf_kleene_operator (a : FA) : wf a → wf (kleene_operator a).
Proof.
  intros Ha. unfold kleene_operator.
  destruct (fresh (dom (states a)) 0) as [s counter1].
  destruct (fresh (dom (states a) ∪ {[s]}) counter1) as [f counter2].
  set (sts0 := <[f := ∅]> (<[s := ∅]> (states a))).
  assert (Hd0 : dom sts0 = {[f]} ∪ ({[s]} ∪ dom (states a))).
  { unfold sts0. by rewrite !dom_insert_L. }
  assert (Hc0 : closed_targets sts0).
  { unfold sts0. do 2 apply closed_insert_empty. by apply wf_closed_targets. }
  set (sts1 := add_transition sts0 s (_epsilon a) (start_state a)).
  assert (Hc1 : closed_targets sts1 ∧ dom sts1 = dom sts0).
  { unfold sts1. rewrite dom_add_transition. split; [|done].
    apply closed_add_transition; [done|]. rewrite Hd0.
    pose proof (wf_start a Ha). unfold owned in *. set_solver. }
  destruct Hc1 as [Hc1 Hd1].
  set (sts2 := add_transition sts1 s (_epsilon a) f).
  assert (Hc2 : closed_targets sts2 ∧ dom sts2 = dom sts0).
  { unfold sts2. rewrite dom_add_transition. split; [|done].
    apply closed_add_transition; [done|]. rewrite Hd1, Hd0. set_solver. }
  destruct Hc2 as [Hc2 Hd2].
  destruct (link_all_facts sts2 (_epsilon a) (accepted_states a) s Hc2)
    as [Hd3 Hc3].
  { rewrite Hd2, Hd0. set_solver. }
  destruct (link_all_facts (link_all sts2 (_epsilon a) (accepted_states a) s)
              (_epsilon a) (accepted_states a) f Hc3) as [Hd4 Hc4].
  { rewrite Hd3, Hd2, Hd0. set_solver. }
  apply wf_init; [done|..]; rewrite Hd4, Hd3, Hd2, Hd0; set_solver.
Qed.

Lemma wf_single_automaton (c : string) : wf (single_automaton c).
Proof.
  unfold single_automaton. apply wf_init.
  - apply closed_add_transition; [do 2 apply closed_insert_empty; apply closed_empty|].
    rewrite !dom_insert_L. set_solver.
  - rewrite dom_add_transition, !dom_insert_L. set_solver.
  - rewrite dom_add_transition, !dom_insert_L. set_solver.
Qed.

End BuildFacts.

(** ** Automata produced by the factory and by operator nodes *)

Module ProducedFacts.
Import Automata Closure Invariants Graphs Build Operators RegularExpressions.
Import Produced BuildFacts.

Lemma for_each_invariant {A S : Type} (P : S → Prop) (xs : list A) (st : S)
    (body : S → A → result S) :
  P st →
  (∀ st x st', P st → body st x = Ok st' → P st') →
  ∀ st', for_each xs st body = Ok st' → P st'.
Proof.
  intros Hst Hstep. revert st Hst.
  induction xs as [|x xs IH]; intros st Hst st' Hrun; simpl in Hrun.
  - by simplify_eq.
  - destruct (body st x) as [st1|e] eqn:Hb; [|done].
    eapply IH; [|exact Hrun]. by eapply Hstep.
Qed.

Lemma factory_good (text : string) (a : FA) :
  factory text = Ok a → good a.
Proof.
  unfold factory. intros H.
  destruct (split_on newline text) as [|l1 [|l2 [|l3 [|l4 lt]]]]; try done.
  set (names := list_to_set (names_of l1) : gset string) in *.
  destruct (for_each _ _ _) as [sts|e] eqn:Hloop; [|done]. simpl in H.
  assert (Hinv : dom sts = names ∧ closed_targets sts).
  { eapply (for_each_invariant
              (fun sts => dom sts = names ∧ closed_targets sts));
      [| |exact Hloop].
    - split; [apply dom_gset_to_gmap|].
      intros x tr sym Y y Hx HY Hy. rewrite lookup_gset_to_gmap in Hx.
      by case_guard; simplify_eq/=.
    - intros st line st' [Hd Hc] Hb.
      destruct (parse_transition line) as [[[src sym] dst]|e]; [|done].
      simpl in Hb. case_bool_decide as Hn; [|done]. simplify_eq.
      rewrite dom_add_transition. split; [done|].
      apply closed_add_transition; [done|]. rewrite Hd. by destruct Hn. }
  destruct Hinv as [Hd Hc].
  case_bool_decide as Hn; [|done]. destruct Hn as [Hs Ha]. simplify_eq.
  split_and!; [|done|simpl; set_solver].
  apply wf_init; [done|by rewrite Hd..].
Qed.

Lemma good_single_automaton (c : string) : good (single_automaton c).
Proof.
  split_and!; [apply wf_single_automaton|done|simpl; set_solver].
Qed.

Lemma alias_rename_fields taken (b : FA) counter :
  inputs (alias_rename taken b counter).1.1 = inputs b ∧
  _epsilon (alias_rename taken b counter).1.1 = _epsilon b.
Proof.
  unfold alias_rename. by destruct (alias_map _ _ _ _) as [[ρ used] counter'].
Qed.

Lemma union_fields (a b : FA) :
  inputs (union a b) = inputs a ∪ inputs b ∪ {[_epsilon a]} ∧
  _epsilon (union a b) = _epsilon a.
Proof.
  unfold union. destruct (alias_rename _ b 0) as [[b' used] counter].
  destruct (fresh used counter) as [s counter1].
  by destruct (fresh (used ∪ {[s]}) counter1) as [f counter2].
Qed.

Lemma concat_fields (a b : FA) :
  inputs (concat a b) = inputs a ∪ inputs b ∪ {[_epsilon a]} ∧
  _epsilon (concat a b) = _epsilon a.
Proof.
  unfold concat. by destruct (alias_rename _ b 0) as [[b' used] counter].
Qed.

Lemma kleene_operator_fields (a : FA) :
  inputs (kleene_operator a) = inputs a ∪ {[_epsilon a]} ∧
  _epsilon (kleene_operator a) = _epsilon a.
Proof.
  unfold kleene_operator. destruct (fresh (dom (states a)) 0) as [s counter1].
  by destruct (fresh (dom (states a) ∪ {[s]}) counter1) as [f counter2].
Qed.

Lemma good_deepcopy (a : FA) : good a → good (deepcopy a).
Proof.
  intros (Hwf & He & Hi). unfold deepcopy.
  destruct (alias_rename_fields (dom (states a)) a 0) as [Hin Hep].
  split_and!; [by apply wf_alias_rename|congruence|by rewrite Hin].
Qed.

Lemma good_union (a b : FA) : good a → good b → good (union a b).
Proof.
  intros (Hwf & He & Hi) (Hwf' & He' & Hi').
  destruct (union_fields a b) as [Hin Hep].
  split_and!; [by apply wf_union|congruence|rewrite Hin; set_solver].
Qed.

Lemma good_concat (a b : FA) : good a → good b → good (concat a b).
Proof.
  intros (Hwf & He & Hi) (Hwf' & He' & Hi').
  destruct (concat_fields a b) as [Hin Hep].
  split_and!; [by apply wf_concat|congruence|rewrite Hin; set_solver].
Qed.

Lemma good_kleene_operator (a : FA) : good a → good (kleene_operator a).
Proof.
  intros (Hwf & He & Hi). destruct (kleene_operator_fields a) as [Hin Hep].
  split_and!; [by apply wf_kleene_operator|congruence|rewrite Hin; set_solver].
Qed.

Scheme Operator_item_ind := Induction for Operator Sort Prop
  with item_Operator_ind := Induction for item Sort Prop.

(** The automaton of an operand: built from a text for a [str], produced
    by the node for an operator. *)
Lemma operand_good (text : string → string) (x : item) (a : FA) :
  (∀ o, x = Op o → ∀ a, execute o = Ok a → good a) →
  match x with
  | Str s => factory (text s)
  | Op o' => execute o'
  | Lst _ => Raise UnboundLocalError
  end = Ok a →
  good a.
Proof.
  intros IH H. destruct x as [s|l|o']; [|done|].
  - by eapply factory_good.
  - by eapply IH.
Qed.

Lemma bound_operand_good (text : string → string) (x : item) (a : FA) :
  (∀ o, x = Op o → ∀ a, execute o = Ok a → good a) →
  match x with
  | Str s => bound (factory (text s))
  | Op o' => bound (execute o')
  | Lst _ => Ok None
  end = Ok (Some a) →
  good a.
Proof.
  intros IH H. destruct x as [s|l|o']; [|done|].
  - apply bind_ok in H as (a' & H & [= <-]). by eapply factory_good.
  - apply bind_ok in H as (a' & H & [= <-]). by eapply IH.
Qed.

(** Whatever [execute] returns is a well-formed automaton over the default
    ε-symbol. *)
Lemma execute_good (o : Operator) (a : FA) : execute o = Ok a → good a.
Proof.
  revert a.
  apply (Operator_item_ind
    (fun o => ∀ a, execute o = Ok a → good a)
    (fun x => ∀ o, x = Op o → ∀ a, execute o = Ok a → good a)).
  - (* Single *)
    intros [s|l|o'] _ a H; simpl in H; simplify_eq.
    apply good_single_automaton.
  - (* Collation *)
    intros first _ last _ a H. simpl in H.
    destruct (all_characters first last) as [chars|e]; [|done]. simpl in H.
    destruct (foldl _ _ chars) as [result_ inputs_]. by eapply factory_good.
  - (* Alternation *)
    intros first IH1 last IH2 a H. simpl in H.
    apply bind_ok in H as ([a1|] & H1 & H);
      [|apply bind_ok in H as (y & _ & H); by destruct y].
    apply bind_ok in H as ([a2|] & H2 & H); [|done].
    apply (bound_operand_good alternation_text) in H1; [|done].
    apply (bound_operand_good alternation_text) in H2; [|done].
    simplify_eq. by apply good_union.
  - (* Concatenation *)
    intros first IH1 last IH2 a H. simpl in H.
    apply bind_ok in H as ([a1|] & H1 & H);
      [|apply bind_ok in H as (y & _ & H); by destruct y].
    apply bind_ok in H as ([a2|] & H2 & H); [|done].
    apply (bound_operand_good concatenation_first_text) in H1; [|done].
    apply (bound_operand_good concatenation_last_text) in H2; [|done].
    simplify_eq. by apply good_concat.
  - (* KleeneStar *)
    intros x IH a H. simpl in H.
    destruct (match x with Str _ => _ | Lst _ => _ | Op _ => _ end)
      as [a1|e] eqn:H1; [|done].
    apply (operand_good kleene_star_text) in H1; [|done]. simpl in H.
    simplify_eq. by apply good_kleene_operator.
  - (* KleenePlus *)
    intros x IH a H. simpl in H.
    destruct (match x with Str _ => _ | Lst _ => _ | Op _ => _ end)
      as [a1|e] eqn:H1; [|done].
    apply (operand_good kleene_plus_text) in H1; [|done]. simpl in H.
    simplify_eq.
    apply good_concat; [by apply good_deepcopy|by apply good_kleene_operator].
  - (* QuestionMark *)
    intros x IH a H. simpl in H. destruct x as [s|l|o']; [| done |].
    + by eapply factory_good.
    + by destruct (factory question_mark_start_text).
  - (* Str *) done.
  - (* Lst *) done.
  - (* Op *) intros o' IH o'' [= <-]. exact IH.
Qed.

Lemma RegEx_init_good (text name : string) (r : RegEx) :
  RegEx_init text name = Ok r → good (automaton r).
Proof.
  unfold RegEx_init. intros H.
  apply bind_ok in H as (g & _ & H).
  apply bind_ok in H as (x & _ & H).
  apply bind_ok in H as (a & Ha & H). simplify_eq. simpl.
  destruct x as [s|l|o]; try done. by eapply execute_good.
Qed.

End ProducedFacts.

(** ** The execution engine against acceptance *)

Module LanguageFacts.
Import Automata Closure Invariants Build Operators RegularExpressions.
Import Language ClosureFacts ClosuresFacts EngineFacts.

#[local] Arguments _e_closure : simpl never.
#[local] Arguments e_fuel : simpl never.

Lemma run_ext (a b : FA) q cs q' :
  states a = states b → inputs a = inputs b → _epsilon a = _epsilon b →
  run a q cs q' → run b q cs q'.
Proof.
  intros Hs Hi He Hr. induction Hr as [q|q q' cs q'' Hq _ IH|q c q' cs q'' Hc Hq _ IH].
  - constructor.
  - eapply run_eps; [|exact IH]. unfold state_obj in *. by rewrite <- Hs, <- He.
  - eapply run_sym; [by rewrite <- Hi| |exact IH].
    unfold state_obj in *. by rewrite <- Hs.
Qed.

Lemma run_eps_star (a : FA) q q' cs q'' :
  rtc (eps_step a) q q' → run a q' cs q'' → run a q cs q''.
Proof.
  intros Hr Hrun. induction Hr as [|x y z Hxy _ IH]; [done|].
  eapply run_eps; [exact Hxy|]. by apply IH.
Qed.

Lemma run_nil_inv (a : FA) q q' : run a q [] q' → rtc (eps_step a) q q'.
Proof.
  intros H. remember [] as cs eqn:Hcs.
  induction H as [q|q q' cs q'' Hq _ IH|]; [done| |done].
  eapply rtc_l; [exact Hq|]. by apply IH.
Qed.

(** The first character of a run is read from a state that ε-moves reach. *)
Lemma run_cons_inv (a : FA) q c cs q'' :
  run a q (c :: cs) q'' →
  ∃ q1 q2, rtc (eps_step a) q q1 ∧ c ∈ inputs a ∧
           q2 ∈ forward (state_obj a q1) c ∧ run a q2 cs q''.
Proof.
  intros H. remember (c :: cs) as l eqn:Hl.
  induction H as [q|q q' l q'' Hq _ IH|q c' q' l q'' Hc Hq Hrun _]; [done| |].
  - destruct (IH Hl) as (q1 & q2 & Hr & ? & ? & ?).
    exists q1, q2. split_and!; [|done..]. by eapply rtc_l.
  - simplify_eq. exists q, q'. by split_and!.
Qed.

Lemma run_chars_valid (a : FA) q cs q' :
  run a q cs q' → ∀ c, c ∈ cs → c ∈ inputs a.
Proof.
  intros H. induction H as [q|q q' cs q'' _ _ IH|q c' q' cs q'' Hc _ _ IH];
    intros c Hin.
  - by apply elem_of_nil in Hin.
  - by apply IH.
  - apply elem_of_cons in Hin as [->|Hin]; [done|by apply IH].
Qed.

Lemma closed_reach (a : FA) (S : gset string) q q' :
  eps_closed a S → q ∈ S → rtc (eps_step a) q q' → q' ∈ S.
Proof.
  intros Hcl Hq Hr. induction Hr as [|x y z Hxy _ IH]; [done|].
  apply IH. by eapply Hcl.
Qed.

(** The current set after a sequence of valid symbols holds exactly the
    states that runs over the sequence reach from the current set. *)
Lemma enters_reach (cs : list string) (a : FA) :
  wf a → eps_closed a (current a) →
  (∀ c, c ∈ cs → c ∈ inputs a) →
  ∃ C, for_each cs a enter = Ok (set_current a C) ∧
       C ⊆ dom (states a) ∧ eps_closed a C ∧
       ∀ q, q ∈ C ↔ ∃ q0, q0 ∈ current a ∧ run a q0 cs q.
Proof.
  revert a. induction cs as [|c cs IH]; intros a Hwf Hcl Hcs.
  - exists (current a). simpl. rewrite set_current_id.
    split_and!; [done|by apply wf_current|done|]. intros q. split.
    + intros Hq. exists q. split; [done|constructor].
    + intros (q0 & Hq0 & Hr%run_nil_inv). by eapply closed_reach.
  - assert (Hc : c ∈ inputs a) by (apply Hcs; left).
    cbn [for_each]. rewrite enter_access by done.
    destruct (access_ok a c Hwf Hc) as (C1 & -> & Hl & Hd & Hr).
    destruct (IH (set_current a C1)) as (C & HC & HdC & HclC & HrC).
    { by apply wf_set_current. }
    { by destruct Hl as (_ & ? & _). }
    { intros c' Hc'. apply Hcs. by right. }
    exists C. split_and!; [done|done|done|].
    intros q. rewrite HrC. simpl. split.
    + intros (q1 & Hq1 & Hrun). apply Hr in Hq1 as (q2 & Hq2 & Hreach).
      apply elem_of_step_set in Hq2 as (q0 & Hq0 & Hq2).
      exists q0. split; [done|]. eapply run_sym; [done|exact Hq2|].
      eapply run_eps_star; [exact Hreach|].
      eapply run_ext; [| | |exact Hrun]; done.
    + intros (q0 & Hq0 & Hrun).
      apply run_cons_inv in Hrun as (q1 & q2 & Hreach & _ & Hq2 & Hrun).
      exists q2. split.
      * apply Hr. exists q2. split; [|done]. apply elem_of_step_set.
        exists q1. split; [|done]. by eapply closed_reach.
      * eapply run_ext; [| | |exact Hrun]; done.
Qed.

(** The loop of [check], on an automaton whose inputs are the valid
    characters: either every character is valid and the answer is the
    acceptance query after entering them all, or the answer is [False]. *)
Lemma check_loop_spec (cs : list string) (a : FA) :
  wf a → eps_closed a (current a) →
  (∃ a', (∀ c, c ∈ cs → c ∈ inputs a) ∧ for_each cs a enter = Ok a' ∧
         check_loop (inputs a) a cs = Ok (accepted a', a')) ∨
  (∃ a', (∃ c, c ∈ cs ∧ c ∉ inputs a) ∧
         check_loop (inputs a) a cs = Ok (false, a')).
Proof.
  revert a. induction cs as [|c cs IH]; intros a Hwf Hcl.
  - left. exists a. split_and!; [by intros ? ?%elem_of_nil|done|done].
  - cbn [check_loop for_each]. destruct (decide (c ∈ inputs a)) as [Hc|Hc].
    + rewrite enter_access by done.
      destruct (access_ok a c Hwf Hc) as (C1 & -> & Hl & Hd & _).
      simpl. destruct (IH (set_current a C1)) as [(a' & Hall & Hrun & Hchk)|(a' & Hex & Hchk)].
      { by apply wf_set_current. }
      { by destruct Hl as (_ & ? & _). }
      * left. exists a'. split_and!; [|done|done].
        intros c' [->|Hc']%elem_of_cons; [done|by apply Hall].
      * right. exists a'. split; [|done]. destruct Hex as (c' & Hc' & Hn).
        exists c'. split; [by right|done].
    + right. exists a. split; [|done]. exists c. split; [left|done].
Qed.

End LanguageFacts.

(** ** The main properties of the engine and of [check] *)

Module Main.
Import Automata Closure Invariants Build Operators RegularExpressions.
Import Language Produced Notions Instances.
Import ClosureFacts ClosuresFacts EngineFacts BuildFacts ProducedFacts LanguageFacts.

#[local] Arguments _e_closure : simpl never.
#[local] Arguments e_fuel : simpl never.

Lemma accepted_true (a : FA) :
  accepted a = true ↔ ∃ q, q ∈ current a ∧ q ∈ accepted_states a.
Proof.
  unfold accepted. rewrite bool_decide_eq_true. split.
  - intros H. apply set_choose_L in H as [q Hq]. exists q. set_solver.
  - intros (q & H1 & H2). set_solver.
Qed.

(** [check] on an automaton that satisfies the structural invariants. *)
Lemma check_wf (r : RegEx) (s : string) :
  wf (automaton r) →
  (check r s = Ok true ↔ accepts (automaton r) (Py.chars s)) ∧
  (check r s = Ok true ∨ check r s = Ok false) ∧
  (∀ c, c ∈ Py.chars s → c ∉ valid_characters r → check r s = Ok false).
Proof.
  intros Hwf. set (a := automaton r) in *.
  destruct (reset_ok a Hwf) as (C0 & Hreset & Hl0 & Hd0 & Hr0).
  set (a0 := set_current a C0).
  assert (Hwf0 : wf a0) by by apply wf_set_current.
  assert (Hcl0 : eps_closed a0 (current a0)) by by destruct Hl0 as (_ & ? & _).
  assert (Hchk : check r s =
    '(is_ok, _) ← check_loop (inputs a0) a0 (Py.chars s); Ok is_ok).
  { unfold check, check_run. fold a. by rewrite Hreset. }
  destruct (check_loop_spec (Py.chars s) a0 Hwf0 Hcl0)
    as [(a' & Hall & Hrun & Hloop)|(a' & (c & Hc & Hn) & Hloop)].
  - destruct (enters_reach (Py.chars s) a0 Hwf0 Hcl0 Hall)
      as (C & HC & HdC & HclC & HrC).
    rewrite Hrun in HC. simplify_eq.
    rewrite Hloop in Hchk. simpl in Hchk. rewrite Hchk. split_and!.
    + split.
      * intros [= Hacc]. apply accepted_true in Hacc as (q & Hq & Hqa).
        simpl in Hq, Hqa. apply HrC in Hq as (q0 & Hq0 & Hq).
        exists q. split; [|done]. simpl in Hq0. apply Hr0 in Hq0.
        eapply run_eps_star; [exact Hq0|].
        eapply run_ext; [| | |exact Hq]; done.
      * intros (q & Hq & Hqa). f_equal. apply accepted_true.
        exists q. split; [|done]. simpl. apply HrC.
        exists (start_state a). split; [simpl; by apply Hr0|].
        eapply run_ext; [| | |exact Hq]; done.
    + destruct (accepted _); auto.
    + intros c Hc Hn. destruct Hn. by apply Hall.
  - rewrite Hloop in Hchk. simpl in Hchk. rewrite Hchk. split_and!.
    + split; [done|]. intros (q & Hq & _). destruct Hn.
      by eapply (run_chars_valid a).
    + by right.
    + done.
Qed.

Local Open Scope string_scope.


Lemma INTEGER_compiled : INTEGER = Ok (compiled INTEGER).
Proof. vm_compute. reflexivity. Qed.






(** C7.  The ε-closure is idempotent.  On a set [S] of states of an
    automaton whose ε-transitions stay inside it, [_e_closures] returns
    the smallest superset of [S] that is closed under ε-transitions, and
    applied to its own result it returns that result again. *)
Theorem e_closure_idempotent (a : FA) (S : gset string) :
  eps_targets_owned a → S ⊆ dom (states a) →
  ∃ C, _e_closures a (elements S) = Ok C ∧
       least_closed a S C ∧
       _e_closures a (elements C) = Ok C.
Proof.
  intros Hwf HS.
  destruct (e_closures_set_ok a S Hwf HS) as (C & HC & Hl & Hd & _).
  exists C. split_and!; [done|done|].
  destruct (e_closures_set_ok a C Hwf Hd) as (C' & HC' & Hl' & _).
  rewrite HC'. f_equal. eapply least_closed_unique; [exact Hl'|].
  apply least_closed_of_closed. by destruct Hl as (_ & ? & _).
Qed.

(** The same without assumptions on the automaton: whenever the closure
    is computed at all, computing it again changes nothing. *)
Lemma e_closure_idempotent_result (a : FA) (l : list string) (C : gset string) :
  _e_closures a l = Ok C → _e_closures a (elements C) = Ok C.
Proof.
  intros H. pose proof (e_closures_post a l) as Hp. rewrite H in Hp.
  destruct Hp as [HC Hd].
  assert (Hcl : ∀ i y, i ∈ C → rtc (eps_step a) i y → y ∈ C).
  { intros i y (j & Hj & Hr)%HC Hr'. apply HC. exists j. split; [done|].
    by etrans. }
  pose proof (e_closures_post a (elements C)) as Hp'.
  destruct (_e_closures a (elements C)) as [C'|e].
  - destruct Hp' as [HC' _]. f_equal. apply set_eq. intros y. rewrite HC'. split.
    + intros (i & Hi%elem_of_elements & Hr). by eapply Hcl.
    + intros Hy. exists y. by rewrite elem_of_elements.
  - destruct Hp' as (i & y & Hi%elem_of_elements & Hr & Ho & _). destruct Ho.
    apply Hd. by eapply Hcl.
Qed.

Lemma A_STAR_compiled : A_STAR = Ok (compiled A_STAR).
Proof. vm_compute. reflexivity. Qed.

Lemma A_STAR_eps_targets : eps_targets_owned (automaton (compiled A_STAR)).
Proof.
  apply wf_eps_targets.
  exact (proj1 (RegEx_init_good "a*" "AS" (compiled A_STAR) A_STAR_compiled)).
Qed.

Lemma A_STAR_start_owned :
  ({[start_state (automaton (compiled A_STAR))]} : gset string)
  ⊆ dom (states (automaton (compiled A_STAR))).
Proof.
  apply singleton_subseteq_l.
  apply (wf_start _ (proj1 (RegEx_init_good "a*" "AS" (compiled A_STAR)
                              A_STAR_compiled))).
Qed.

Lemma e_closure_idempotent_witness :
  ∃ C, _e_closures (automaton (compiled A_STAR))
         (elements ({[start_state (automaton (compiled A_STAR))]} : gset string))
       = Ok C ∧
       least_closed (automaton (compiled A_STAR))
         {[start_state (automaton (compiled A_STAR))]} C ∧
       _e_closures (automaton (compiled A_STAR)) (elements C) = Ok C.
Proof.
  exact (e_closure_idempotent (automaton (compiled A_STAR))
           {[start_state (automaton (compiled A_STAR))]}
           A_STAR_eps_targets A_STAR_start_owned).
Defined.

(** C10.  For every compiled regular expression the ε-symbol [$] is one
    of the valid characters, and the ε-symbol of its automaton is [$];
    hence the loop of [check] does not stop at a [$] in the text: it
    enters the symbol and goes on with the rest of the text. *)
Theorem epsilon_symbol_is_valid (text name : string) (r : RegEx) :
  RegEx_init text name = Ok r →
  "$" ∈ valid_characters r ∧
  _epsilon (automaton r) = "$" ∧
  ∀ a cs,
    check_loop (valid_characters r) a ("$" :: cs) =
    (a' ← enter a "$"; check_loop (valid_characters r) a' cs).
Proof.
  intros Hr. apply RegEx_init_good in Hr as (_ & He & Hi).
  split_and!; [done|done|].
  intros a cs. cbn [check_loop]. by rewrite decide_True.
Qed.

Lemma epsilon_symbol_is_valid_witness :
  "$" ∈ valid_characters (compiled A_STAR) ∧
  check (compiled A_STAR) "$" = Ok true.
Proof.
  split.
  - exact (proj1 (epsilon_symbol_is_valid "a*" "AS" (compiled A_STAR)
                    A_STAR_compiled)).
  - vm_compute. reflexivity.
Defined.

End Main.

(** ** The text form of a collation and the automaton read from it *)

Module TextFacts.
Import Automata Build Operators CollationText.

Lemma append_cons (c : ascii) (s t : string) :
  (String c s ++ t)%string = String c (s ++ t).
Proof. reflexivity. Qed.

Lemma append_nil_l (t : string) : (EmptyString ++ t)%string = t.
Proof. reflexivity. Qed.

Lemma append_nil_r (s : string) : (s ++ EmptyString)%string = s.
Proof.
  induction s as [|c s IH]; [done|]. by rewrite append_cons, IH.
Qed.

Lemma append_assoc (s1 s2 s3 : string) :
  ((s1 ++ s2) ++ s3 = s1 ++ (s2 ++ s3))%string.
Proof.
  induction s1 as [|c s1 IH]; [done|]. by rewrite !append_cons, IH.
Qed.

Lemma lacks_append (c : ascii) (s1 s2 : string) :
  lacks c (s1 ++ s2)%string ↔ lacks c s1 ∧ lacks c s2.
Proof.
  induction s1 as [|c' s1 IH]; [rewrite append_nil_l; simpl; tauto|].
  rewrite append_cons. simpl. rewrite IH. tauto.
Qed.

Lemma split_on_lacks (sep : ascii) (s : string) :
  lacks sep s → split_on sep s = [s].
Proof.
  induction s as [|c s IH]; simpl; [done|]. intros [Hc Hs].
  destruct (Ascii.eqb_spec c sep) as [->|_]; [done|]. by rewrite IH.
Qed.

Lemma split_on_append (sep : ascii) (s1 s2 : string) :
  lacks sep s1 →
  split_on sep (s1 ++ String sep s2) = s1 :: split_on sep s2.
Proof.
  induction s1 as [|c s1 IH].
  - intros _. rewrite append_nil_l. simpl. by rewrite Ascii.eqb_refl.
  - intros [Hc Hs]. rewrite append_cons. simpl.
    destruct (Ascii.eqb_spec c sep) as [->|_]; [done|]. by rewrite IH.
Qed.

(** Splitting what was joined gives the pieces back. *)
Lemma split_on_sep_join (sep : ascii) (p x : string) (l : list string) :
  lacks sep p → Forall (lacks sep) (x :: l) →
  split_on sep (p ++ sep_join sep (x :: l)) = (p ++ x)%string :: l.
Proof.
  intros Hp Hl. revert p x Hp Hl. induction l as [|y l IH]; intros p x Hp Hl.
  - simpl. apply split_on_lacks. apply lacks_append. split; [done|].
    by inversion Hl.
  - change (sep_join sep (x :: y :: l))
      with (x ++ String sep (sep_join sep (y :: l)))%string.
    rewrite <- append_assoc. inversion Hl as [|? ? Hx Hl']; subst.
    rewrite split_on_append by (apply lacks_append; done).
    f_equal. apply (IH EmptyString y); [done|done].
Qed.

Lemma chars_append (s1 s2 : string) :
  Py.chars (s1 ++ s2) = Py.chars s1 ++ Py.chars s2.
Proof.
  induction s1 as [|c s1 IH]; [done|]. rewrite append_cons. simpl.
  by rewrite IH.
Qed.

Lemma join_chars (s : string) : Py.join (Py.chars s) = s.
Proof.
  induction s as [|c s IH]; [done|].
  change (Py.join (Py.chars (String c s)))
    with (String c EmptyString ++ Py.join (Py.chars s))%string.
  by rewrite IH.
Qed.


(** [s[:-1]] removes the last character. *)
Lemma drop_last_snoc (s : string) (c : ascii) :
  Py.drop_last (s ++ String c EmptyString) = s.
Proof.
  unfold Py.drop_last, Py.str_slice, Py.getslice, Py.clamp, Py.len.
  rewrite chars_append. simpl Py.chars. rewrite length_app. simpl length.
  replace (0 <? 0)%Z with false by done.
  replace (-1 <? 0)%Z with true by done.
  rewrite Z.min_l by lia. simpl drop.
  replace (Z.to_nat (Z.max 0 (-1 + Z.of_nat (length (Py.chars s) + 1)) - 0))
    with (length (Py.chars s)) by lia.
  change (Z.to_nat 0) with 0. rewrite drop_0, take_app_length.
  apply join_chars.
Qed.

End TextFacts.
Module CollationFacts.
Import Automata Build Operators CollationText TextFacts.

Lemma terminated_sep_join (sep : ascii) (x : string) (l : list string) :
  terminated sep (x :: l) = (sep_join sep (x :: l) ++ String sep EmptyString)%string.
Proof.
  revert x. induction l as [|y l IH]; intros x; [done|].
  change (terminated sep (x :: y :: l))
    with (x ++ String sep (terminated sep (y :: l)))%string.
  change (sep_join sep (x :: y :: l))
    with (x ++ String sep (sep_join sep (y :: l)))%string.
  by rewrite IH, append_assoc.
Qed.

Lemma drop_last_terminated (sep : ascii) (l : list string) :
  Py.drop_last (terminated sep l) = sep_join sep l.
Proof.
  destruct l as [|x l]; [done|].
  rewrite terminated_sep_join. apply drop_last_snoc.
Qed.

(** The two texts that the loop of [Collation.execute] accumulates. *)
Lemma collation_loop (cs : list ascii) (r0 i0 : string) :
  foldl (fun '(result_, inputs) char =>
           (result_ ++ "c0," ++ char ++ "->c1" ++ nl,
            inputs ++ char ++ ","))%string
        (r0, i0) (single <$> cs)
  = ((r0 ++ terminated newline (line_of <$> cs))%string,
     (i0 ++ terminated ","%char (single <$> cs))%string).
Proof.
  revert r0 i0. induction cs as [|c cs IH]; intros r0 i0.
  - simpl. by rewrite !append_nil_r.
  - cbn [fmap list_fmap foldl]. rewrite IH. f_equal.
    + rewrite append_assoc. f_equal.
    + rewrite append_assoc. f_equal.
Qed.

Lemma collation_text_lines (inputs result_ : string) :
  collation_text inputs result_ =
  ("c0,c1" ++ String newline
     ((indent ++ inputs) ++ String newline
        ("            c1" ++ String newline
           ("            c0" ++ String newline (indent ++ result_)))))%string.
Proof.
  unfold collation_text, indent. rewrite !append_assoc. reflexivity.
Qed.

Lemma factory_lines (text l1 l2 l3 l4 : string) (lt : list string) :
  split_on newline text = l1 :: l2 :: l3 :: l4 :: lt →
  factory text =
  (let names : gset string := list_to_set (names_of l1) in
   let accept : gset string := list_to_set (names_of l3) in
   let start := strip l4 in
   sts ← for_each (filter (fun l => is_blank l = false) lt)
          (gset_to_gmap ∅ names)
          (fun sts line =>
             '(src, symbol, dst) ← parse_transition line;
             if bool_decide (src ∈ names ∧ dst ∈ names)
             then Ok (add_transition sts src symbol dst)
             else Raise (ValueError line));
   if bool_decide (start ∈ names ∧ accept ⊆ names)
   then Ok (EPSILON_NFA_init sts accept (list_to_set (names_of l2))
              start EPSILON)
   else Raise (ValueError text)).
Proof. intros H. unfold factory. by rewrite H. Qed.

Lemma plain_facts (c : ascii) :
  plain c = true → is_space c = false ∧ c ≠ newline.
Proof.
  unfold plain. intros Hs%negb_true_iff. split; [done|]. by intros ->.
Qed.

Lemma strip_single (c : ascii) : plain c = true → strip (single c) = single c.
Proof.
  intros (Hs & _)%plain_facts. unfold strip, single. simpl lstrip.
  rewrite Hs. change (String.rev (String c EmptyString)) with (String c EmptyString).
  simpl lstrip. by rewrite Hs.
Qed.

Lemma strip_indent_single (c : ascii) :
  plain c = true → strip (indent ++ single c) = single c.
Proof.
  intros Hc. rewrite <- (strip_single c Hc) at 2. reflexivity.
Qed.

(** Case analysis over all characters. *)
Ltac each_char c :=
  destruct c as [[] [] [] [] [] [] [] []].

Lemma parse_line (c : ascii) :
  plain c = true → parse_transition (line_of c) = Ok ("c0", single c, "c1")%string.
Proof. each_char c; intros Hc; try discriminate Hc; reflexivity. Qed.

Lemma parse_indented_line (c : ascii) :
  plain c = true →
  parse_transition (indent ++ line_of c) = Ok ("c0", single c, "c1")%string.
Proof. each_char c; intros Hc; try discriminate Hc; reflexivity. Qed.

Lemma line_not_blank (c : ascii) :
  is_blank (line_of c) = false ∧ is_blank (indent ++ line_of c) = false.
Proof. split; reflexivity. Qed.

Lemma filter_all {A : Type} (P : A → Prop) `{!∀ x, Decision (P x)} (l : list A) :
  Forall P l → filter P l = l.
Proof.
  induction 1 as [|x l Hx _ IH]; [done|]. by rewrite filter_cons_True, IH.
Qed.

Lemma lacks_single (sep c : ascii) : c ≠ sep → lacks sep (single c).
Proof. intros. by split. Qed.

Lemma lacks_newline_line (c : ascii) : c ≠ newline → lacks newline (line_of c).
Proof. intros Hc. unfold line_of. repeat split; done. Qed.

(** The inputs line of the collation text names the characters, when
    none of them is a comma. *)
Lemma names_of_inputs (cs : list ascii) :
  Forall (fun c => plain c = true ∧ c ≠ ","%char) cs →
  names_of (indent ++ sep_join ","%char (single <$> cs)) = single <$> cs.
Proof.
  intros Hcs. destruct cs as [|c cs]; [done|].
  inversion Hcs as [|? ? [Hc Hcomma] Hcs']; subst.
  unfold names_of. change (single <$> c :: cs) with (single c :: (single <$> cs)).
  rewrite split_on_sep_join.
  - change (strip <$> (indent ++ single c)%string :: (single <$> cs))
      with (strip (indent ++ single c) :: (strip <$> (single <$> cs))).
    rewrite strip_indent_single by done.
    replace (strip <$> (single <$> cs)) with (single <$> cs).
    + apply filter_all. apply Forall_cons. split; [done|].
      apply Forall_fmap, Forall_true. done.
    + rewrite <- list_fmap_compose. apply Forall_fmap_ext_1.
      eapply Forall_impl; [exact Hcs'|]. intros c' [Hc' _]. simpl.
      by rewrite strip_single.
  - unfold indent. repeat split; done.
  - change (single c :: (single <$> cs)) with (single <$> c :: cs).
    apply Forall_fmap. eapply Forall_impl; [exact Hcs|].
    intros c' [_ ?]. by apply lacks_single.
Qed.

(** The transition lines of the collation text. *)
Lemma transition_lines (cs : list ascii) :
  Forall (fun c => plain c = true) cs →
  ∃ lines,
    filter (fun l => is_blank l = false)
      (split_on newline (indent ++ sep_join newline (line_of <$> cs))) = lines ∧
    Forall2 (fun line c =>
               parse_transition line = Ok ("c0", single c, "c1")%string)
            lines cs.
Proof.
  intros Hcs. destruct cs as [|c cs].
  { exists []. split; [done|constructor]. }
  inversion Hcs as [|? ? Hc Hcs']; subst.
  change (line_of <$> c :: cs) with (line_of c :: (line_of <$> cs)).
  rewrite split_on_sep_join.
  - eexists. split; [reflexivity|].
    rewrite filter_all.
    + constructor; [by apply parse_indented_line|].
      apply Forall2_fmap_l. apply Forall_Forall2_diag.
      eapply Forall_impl; [exact Hcs'|]. intros c' Hc'. by apply parse_line.
    + constructor; [apply line_not_blank|].
      apply Forall_fmap, Forall_true. intros c'. apply line_not_blank.
  - unfold indent. repeat split; done.
  - change (line_of c :: (line_of <$> cs)) with (line_of <$> c :: cs).
    apply Forall_fmap. eapply Forall_impl; [exact Hcs|].
    intros c' (_ & ?)%plain_facts. by apply lacks_newline_line.
Qed.

End CollationFacts.
Module CollationAutomaton.
Import Automata Closure Invariants Build Operators RegularExpressions Language.
Import CollationText TextFacts CollationFacts BuildFacts Notions.
Import LanguageFacts Main.

Lemma lacks_sep_join (c sep : ascii) (l : list string) :
  c ≠ sep → Forall (lacks c) l → lacks c (sep_join sep l).
Proof.
  intros Hne Hl. induction Hl as [|x l Hx Hl IH]; [done|].
  destruct l as [|y l]; [done|].
  change (sep_join sep (x :: y :: l))
    with (x ++ String sep (sep_join sep (y :: l)))%string.
  apply lacks_append. split; [done|]. split; [done|]. exact IH.
Qed.



(** The loop of the factory over the transition lines of a collation. *)
Lemma transitions_loop (names : gset string) (lines : list string)
    (cs : list ascii) (sts : gmap string transitions) :
  "c0"%string ∈ names → "c1"%string ∈ names →
  Forall2 (fun line c =>
             parse_transition line = Ok ("c0", single c, "c1")%string)
          lines cs →
  for_each lines sts
    (fun sts line =>
       '(src, symbol, dst) ← parse_transition line;
       if bool_decide (src ∈ names ∧ dst ∈ names)
       then Ok (add_transition sts src symbol dst)
       else Raise (ValueError line))
  = Ok (foldl (fun m c => add_transition m "c0" (single c) "c1") sts cs).
Proof.
  intros H0 H1 Hl. revert sts.
  induction Hl as [|line c lines cs Hp _ IH]; intros sts; [done|].
  cbn [for_each foldl]. rewrite Hp. simpl.
  rewrite bool_decide_eq_true_2 by done. apply IH.
Qed.


Lemma all_characters_range (lo hi : ascii) :
  all_characters (Str (single lo)) (Str (single hi))
  = Ok (single <$> range_chars lo hi).
Proof.
  unfold all_characters, range_chars. simpl. f_equal.
  by rewrite <- list_fmap_compose.
Qed.

(** What [Collation.execute] returns for a range without whitespace. *)
Lemma collation_execute (lo hi : ascii) :
  Forall (fun c => plain c = true) (range_chars lo hi) →
  execute (Collation (Str (single lo)) (Str (single hi))) =
  Ok (EPSILON_NFA_init
        (foldl (fun m c => add_transition m "c0" (single c) "c1")
           (gset_to_gmap ∅ {["c0"; "c1"]}) (range_chars lo hi))
        {["c1"]}
        (list_to_set
           (names_of (indent ++ sep_join ","%char (single <$> range_chars lo hi))))
        "c0" EPSILON)%string.
Proof.
  intros Hcs. set (cs := range_chars lo hi) in *.
  cbn [execute]. rewrite all_characters_range. fold cs.
  cbn [mbind result_bind].
  pose proof (collation_loop cs EmptyString EmptyString) as Hloop.
  rewrite !append_nil_l in Hloop. rewrite Hloop.
  rewrite !drop_last_terminated, collation_text_lines.
  destruct (transition_lines cs Hcs) as (lines & Hlines & Hparse).
  erewrite factory_lines.
  2:{ rewrite split_on_append by (repeat split; done).
      rewrite split_on_append.
      2:{ apply lacks_append. split; [unfold indent; repeat split; done|].
          apply lacks_sep_join; [done|]. apply Forall_fmap.
          eapply Forall_impl; [exact Hcs|].
          intros c (_ & ?)%plain_facts. by apply lacks_single. }
      rewrite split_on_append by (repeat split; done).
      rewrite split_on_append by (repeat split; done).
      reflexivity. }
  cbv zeta. rewrite Hlines.
  change (names_of "c0,c1") with ["c0"; "c1"]%string.
  change (names_of "            c1") with ["c1"]%string.
  change (strip "            c0") with "c0"%string.
  replace (list_to_set ["c0"; "c1"]%string : gset string)
    with ({["c0"; "c1"]}%string : gset string) by set_solver.
  replace (list_to_set ["c1"]%string : gset string)
    with ({["c1"]}%string : gset string) by set_solver.
  rewrite (transitions_loop _ lines cs) by (done || set_solver).
  cbn [mbind result_bind].
  rewrite bool_decide_eq_true_2 by set_solver. done.
Qed.


Local Open Scope string_scope.
Local Open Scope nat_scope.


(** The inputs of the automaton of a collation whose range holds neither
    whitespace nor a comma: the characters of the range and the ε-symbol. *)
Lemma collation_inputs (lo hi : ascii) :
  Forall (fun c => plain c = true ∧ c ≠ ","%char) (range_chars lo hi) →
  ∃ a, execute (Collation (Str (single lo)) (Str (single hi))) = Ok a ∧
       inputs a = list_to_set (single <$> range_chars lo hi) ∪ {["$"]}.
Proof.
  intros Hcs. eexists. split.
  - apply collation_execute. eapply Forall_impl; [exact Hcs|]. by intros c [? _].
  - cbn [inputs EPSILON_NFA_init]. by rewrite names_of_inputs.
Qed.




End CollationAutomaton.

(** ** The parser always has fuel enough *)

Module ParserFacts.
Import Automata Build Operators RegularExpressions Nesting.

Lemma returns_bind {A B : Type} (Q : A → Prop) (P : B → Prop)
    (m : result A) (f : A → result B) :
  returns Q m → (∀ x, Q x → returns P (f x)) → returns P (m ≫= f).
Proof. destruct m as [x|e]; simpl; [|done]. intros Hx Hf. by apply Hf. Qed.

Lemma returns_impl {A : Type} (P Q : A → Prop) (r : result A) :
  returns P r → (∀ x, P x → Q x) → returns Q r.
Proof. destruct r; simpl; auto. Qed.

Lemma returns_for_each {A S : Type} (P : S → Prop) (xs : list A) (st : S)
    (body : S → A → result S) :
  P st →
  (∀ st x, P st → x ∈ xs → returns P (body st x)) →
  returns P (for_each xs st body).
Proof.
  revert st. induction xs as [|x xs IH]; intros st Hst Hbody; simpl; [done|].
  pose proof (Hbody st x Hst ltac:(left)) as Hx.
  destruct (body st x) as [st'|e]; simpl in *; [|done].
  apply IH; [done|]. intros st0 y Hst0 Hy. apply Hbody; [done|by right].
Qed.

Lemma group_depth_cons (x : item) (l : list item) :
  group_depth (x :: l) = item_depth x `max` group_depth l.
Proof. done. Qed.

Lemma group_depth_app (l1 l2 : list item) :
  group_depth (l1 ++ l2) = group_depth l1 `max` group_depth l2.
Proof.
  induction l1 as [|x l1 IH]; [done|].
  change (group_depth ((x :: l1) ++ l2))
    with (item_depth x `max` group_depth (l1 ++ l2)).
  rewrite group_depth_cons, IH. lia.
Qed.

Lemma item_depth_elem (x : item) (l : list item) :
  x ∈ l → item_depth x ≤ group_depth l.
Proof.
  intros H. induction l as [|y l IH]; [by apply elem_of_nil in H|].
  rewrite group_depth_cons. apply elem_of_cons in H as [->|H]; [lia|].
  specialize (IH H). lia.
Qed.

Lemma item_depth_Lst (l : list item) : item_depth (Lst l) = S (group_depth l).
Proof. done. Qed.

Lemma group_depth_take (n : nat) (l : list item) :
  group_depth (take n l) ≤ group_depth l.
Proof.
  rewrite <- (take_drop n l) at 2. rewrite group_depth_app. lia.
Qed.

Lemma group_depth_drop (n : nat) (l : list item) :
  group_depth (drop n l) ≤ group_depth l.
Proof.
  rewrite <- (take_drop n l) at 2. rewrite group_depth_app. lia.
Qed.

Lemma group_depth_setslice (l new : list item) (lo hi : Z) (d : nat) :
  group_depth l ≤ d → group_depth new ≤ d →
  group_depth (Py.setslice l lo hi new) ≤ d.
Proof.
  intros Hl Hn. unfold Py.setslice. rewrite !group_depth_app.
  pose proof (group_depth_take (Z.to_nat (Py.clamp (Py.len l) lo)) l).
  pose proof (group_depth_drop
    (Z.to_nat (Py.clamp (Py.len l) lo `max` Py.clamp (Py.len l) hi)) l).
  lia.
Qed.

Lemma group_depth_insert (l : list item) (i : nat) (x : item) (d : nat) :
  group_depth l ≤ d → item_depth x ≤ d → group_depth (<[i := x]> l) ≤ d.
Proof.
  revert i. induction l as [|y l IH]; intros i Hl Hx; [done|].
  rewrite group_depth_cons in Hl.
  destruct i as [|i].
  - change (<[0 := x]> (y :: l)) with (x :: l). rewrite group_depth_cons. lia.
  - change (<[S i := x]> (y :: l)) with (y :: <[i := x]> l).
    rewrite group_depth_cons. specialize (IH i ltac:(lia) Hx). lia.
Qed.

Lemma returns_getitem {A : Type} (l : list A) (i : Z) :
  returns (fun x => x ∈ l) (Py.getitem l i).
Proof.
  unfold Py.getitem. destruct (_ <? 0)%Z; [done|].
  destruct (l !! _) eqn:H; [|done]. simpl. by eapply list_elem_of_lookup_2.
Qed.

Lemma returns_setitem (l : list item) (i : Z) (x : item) (d : nat) :
  group_depth l ≤ d → item_depth x ≤ d →
  returns (fun l' => group_depth l' ≤ d) (Py.setitem l i x).
Proof.
  intros Hl Hx. unfold Py.setitem. destruct (_ || _); [done|]. simpl.
  by apply group_depth_insert.
Qed.

Lemma enumerate_elem {A : Type} (l : list A) (i : Z) (x : A) :
  (i, x) ∈ Py.enumerate l → x ∈ l.
Proof.
  unfold Py.enumerate. intros H. apply list_elem_of_lookup in H as [k Hk].
  rewrite list_lookup_imap in Hk.
  destruct (l !! k) eqn:Hl; simplify_eq/=. by eapply list_elem_of_lookup_2.
Qed.

Lemma returns_check_type (tys : list pytype) (x : item) :
  returns (fun _ => True) (_check_type_err tys x).
Proof.
  unfold _check_type_err. destruct tys; [done|]. by destruct (foldl _ _ _).
Qed.

Lemma returns_unary (c : op_class) (x : item) :
  returns (fun _ => True) (UnaryOperator_init c x).
Proof. apply returns_check_type. Qed.

Lemma returns_binary (c : op_class) (x y : item) :
  returns (fun _ => True) (BinaryOperator_init c x y).
Proof.
  unfold BinaryOperator_init.
  eapply returns_bind; [apply returns_check_type|].
  intros _ _. apply returns_check_type.
Qed.

Lemma returns_constructors :
  (∀ x, returns (fun _ => True) (new_Single x)) ∧
  (∀ x, returns (fun _ => True) (new_KleeneStar x)) ∧
  (∀ x, returns (fun _ => True) (new_KleenePlus x)) ∧
  (∀ x, returns (fun _ => True) (new_QuestionMark x)) ∧
  (∀ x y, returns (fun _ => True) (new_Collation x y)) ∧
  (∀ x y, returns (fun _ => True) (new_Alternation x y)) ∧
  (∀ x y, returns (fun _ => True) (new_Concatenation x y)).
Proof.
  split_and!; intros;
    (eapply returns_bind; [apply returns_unary || apply returns_binary|done]).
Qed.

Lemma returns_in_dict {V : Type} (d : string → option V) (x : item) :
  returns (fun _ => True) (in_dict d x).
Proof. by destruct x. Qed.

Lemma returns_call_Collation (args : list item) :
  returns (fun _ => True) (call_Collation args).
Proof.
  destruct args as [|x [|y [|z args]]]; try done. apply returns_constructors.
Qed.

Lemma group_depth_Op (o : Operator) : group_depth [Op o] = 0.
Proof. done. Qed.

(** The passes without nested calls keep the nesting depth. *)
Lemma returns_escape_characters (group : list item) (d : nat) :
  group_depth group ≤ d →
  returns (fun g => group_depth g ≤ d) (_escape_characters group).
Proof.
  intros Hd. unfold _escape_characters.
  eapply (returns_bind (fun '(copied, _, _) => group_depth copied ≤ d)).
  - apply returns_for_each; [done|].
    intros [[copied compressed] broken] [i x] Hst _.
    destruct broken; [done|]. destruct (_ <=? _)%Z; [done|].
    destruct (eq_str x _); [|done].
    eapply returns_bind; [apply returns_getitem|]. intros nxt _.
    eapply returns_bind; [apply returns_constructors|]. intros single _.
    simpl. apply group_depth_setslice; [done|]. rewrite group_depth_Op. lia.
  - by intros [[copied compressed] broken].
Qed.

Lemma returns_collate (group : list item) (d : nat) :
  group_depth group ≤ d →
  returns (fun g => group_depth g ≤ d) (_collate group).
Proof.
  intros Hd. unfold _collate.
  eapply (returns_bind (fun '(copied, _, _, _) => group_depth copied ≤ d)).
  - apply returns_for_each; [done|].
    intros [[[copied lpar] dash] compressed] [i x] Hst _.
    destruct (eq_str x "["); [done|]. destruct (eq_str x "-"); [done|].
    destruct (eq_str x "]"); [|done]. destruct (negb _); [|done].
    eapply returns_bind; [apply returns_call_Collation|]. intros collation _.
    simpl. apply group_depth_setslice; [done|]. rewrite group_depth_Op. lia.
  - by intros [[[copied lpar] dash] compressed].
Qed.

Lemma returns_clean (group : list item) (d : nat) :
  group_depth group ≤ d →
  returns (fun g => group_depth g ≤ d) (_clean group).
Proof.
  intros Hd. unfold _clean. apply returns_for_each; [done|].
  intros g [i x] Hg _. destruct x as [s|l|o]; [|done|done].
  eapply returns_bind; [apply returns_constructors|]. intros single _.
  apply returns_setitem; [done|simpl; lia].
Qed.

Section passes_return.
Variable rec : list item → result item.
Variable d : nat.
Hypothesis rec_returns :
  ∀ l, group_depth l < d → returns (fun x => item_depth x ≤ group_depth l) (rec l).

Lemma rec_on_sublist (group l : list item) (i : Z) :
  group_depth group ≤ d → (i, Lst l) ∈ Py.enumerate group →
  returns (fun x => item_depth x ≤ d) (rec l).
Proof.
  intros Hd Hin%enumerate_elem%item_depth_elem. rewrite item_depth_Lst in Hin.
  eapply returns_impl; [apply rec_returns; lia|]. intros x Hx. simpl in Hx. lia.
Qed.

Lemma returns_process_sublists (group : list item) :
  group_depth group ≤ d →
  returns (fun g => group_depth g ≤ d) (_process_sublists rec group).
Proof.
  intros Hd. unfold _process_sublists. apply returns_for_each; [done|].
  intros copied [i x] Hst Hin. destruct x as [s|l|o]; [done| |done].
  eapply returns_bind; [exact (rec_on_sublist group l i Hd Hin)|]. intros x' Hx'.
  by apply returns_setitem.
Qed.

Lemma returns_to_unary_operators (group : list item) :
  group_depth group ≤ d →
  returns (fun g => group_depth g ≤ d) (_to_unary_operators rec group).
Proof.
  intros Hd. unfold _to_unary_operators.
  eapply (returns_bind (fun '(copied, _) => group_depth copied ≤ d)).
  - apply returns_for_each; [done|].
    intros [copied compressed] [i x] Hst Hin. destruct x as [s|l|o]; [| |done].
    + destruct (unary_operators s) as [cls|] eqn:Hcls; [|done].
      eapply returns_bind; [apply returns_getitem|]. intros operand _.
      eapply (returns_bind (fun _ => True)).
      * unfold unary_operators in Hcls.
        repeat case_bool_decide; simplify_eq; apply returns_constructors.
      * intros node _. simpl. apply group_depth_setslice; [done|].
        rewrite group_depth_Op. lia.
    + eapply returns_bind; [exact (rec_on_sublist group l i Hd Hin)|]. intros x' Hx'.
      eapply returns_bind; [by apply returns_setitem|]. by intros copied' ?.
  - by intros [copied compressed].
Qed.

Lemma returns_concatenate (group : list item) :
  group_depth group ≤ d →
  returns (fun g => group_depth g ≤ d) (_concatenate rec group).
Proof.
  intros Hd. unfold _concatenate.
  eapply (returns_bind (fun '(copied, _) => group_depth copied ≤ d)).
  - apply returns_for_each; [done|].
    intros [copied compressed] [i x] Hst Hin.
    eapply (returns_bind (fun _ => True)).
    { destruct (_ <=? _)%Z; [done|].
      eapply returns_impl; [apply returns_getitem|done]. }
    intros next_char _.
    assert (Hrest : returns (fun '(copied, _) => group_depth copied ≤ d)
      (item_is_binary ← in_dict binary_operators x;
       next_is_binary ← (if (item_is_binary : bool) then Ok true
                          else in_dict binary_operators next_char);
       if negb item_is_binary && negb next_is_binary then
         left ← Py.getitem copied (i - compressed);
         right ← Py.getitem copied (i + 1 - compressed);
         node ← new_Concatenation left right;
         Ok (Py.setslice copied (i - compressed) (i + 2 - compressed) [Op node],
             (compressed + 1)%Z)
       else Ok (copied, compressed))).
    { eapply returns_bind; [apply returns_in_dict|]. intros b1 _.
      eapply (returns_bind (fun _ => True)).
      { destruct b1; [done|apply returns_in_dict]. }
      intros b2 _. destruct (negb b1 && negb b2); [|done].
      eapply returns_bind; [apply returns_getitem|]. intros left _.
      eapply returns_bind; [apply returns_getitem|]. intros right _.
      eapply returns_bind; [apply returns_constructors|]. intros node _.
      simpl. apply group_depth_setslice; [done|]. rewrite group_depth_Op. lia. }
    destruct x as [s|l|o]; [exact Hrest| |exact Hrest].
    eapply returns_bind; [exact (rec_on_sublist group l i Hd Hin)|]. intros x' Hx'.
    eapply returns_bind; [by apply returns_setitem|]. by intros copied' ?.
  - by intros [copied compressed].
Qed.

Lemma returns_alternate (group : list item) :
  group_depth group ≤ d →
  returns (fun g => group_depth g ≤ d) (_alternate rec group).
Proof.
  intros Hd. unfold _alternate.
  eapply (returns_bind (fun '(copied, _) => group_depth copied ≤ d)).
  - apply returns_for_each; [done|].
    intros [copied compressed] [i x] Hst Hin. destruct x as [s|l|o]; [| |done].
    + destruct (binary_operators s) as [cls|] eqn:Hcls; [|done].
      eapply returns_bind; [apply returns_getitem|]. intros left _.
      eapply returns_bind; [apply returns_getitem|]. intros right _.
      eapply (returns_bind (fun _ => True)).
      * unfold binary_operators in Hcls.
        repeat case_bool_decide; simplify_eq; apply returns_constructors.
      * intros node _. simpl. apply group_depth_setslice; [done|].
        rewrite group_depth_Op. lia.
    + eapply returns_bind; [exact (rec_on_sublist group l i Hd Hin)|]. intros x' Hx'.
      eapply returns_bind; [by apply returns_setitem|]. by intros copied' ?.
  - by intros [copied compressed].
Qed.

End passes_return.

(** [_process] returns or raises an exception of the program whenever its
    fuel exceeds the nesting depth of the group. *)
Lemma returns_process (fuel : nat) (group : list item) :
  group_depth group < fuel →
  returns (fun x => item_depth x ≤ group_depth group) (_process fuel group).
Proof.
  revert group. induction fuel as [|fuel IH]; intros group Hf; [lia|].
  set (d := group_depth group).
  assert (Hrec : ∀ l, group_depth l < d →
            returns (fun x => item_depth x ≤ group_depth l) (_process fuel l)).
  { intros l Hl. apply IH. lia. }
  assert (Hd : group_depth group ≤ d) by done.
  cbn [_process].
  eapply returns_bind; [exact (returns_escape_characters group d Hd)|].
  intros g1 H1.
  eapply returns_bind; [exact (returns_collate g1 d H1)|]. intros g2 H2.
  eapply returns_bind; [exact (returns_process_sublists _ d Hrec g2 H2)|].
  intros g3 H3.
  eapply returns_bind; [exact (returns_to_unary_operators _ d Hrec g3 H3)|].
  intros g4 H4.
  eapply returns_bind; [exact (returns_concatenate _ d Hrec g4 H4)|].
  intros g5 H5.
  eapply returns_bind; [exact (returns_alternate _ d Hrec g5 H5)|].
  intros g6 H6.
  eapply returns_bind; [exact (returns_clean g6 d H6)|]. intros g7 H7.
  destruct (1 <? Py.len g7)%Z; [done|].
  eapply returns_impl; [apply returns_getitem|]. intros x Hx%item_depth_elem.
  simpl in *. lia.
Qed.

Lemma chars_length (text : string) :
  length (Py.chars text) = String.length text.
Proof. induction text as [|c text IH]; [done|]. simpl. by rewrite IH. Qed.

Lemma chars_single (text : string) :
  Forall (fun s => String.length s = 1) (Py.chars text).
Proof. induction text as [|c text IH]; constructor; done. Qed.

Lemma length_append (s1 s2 : string) :
  String.length (s1 ++ s2) = String.length s1 + String.length s2.
Proof.
  induction s1 as [|c s1 IH]; [done|].
  change (String c s1 ++ s2)%string with (String c (s1 ++ s2)). simpl.
  by rewrite IH.
Qed.

Lemma length_join (l : list string) :
  Forall (fun s => String.length s = 1) l →
  String.length (Py.join l) = length l.
Proof.
  induction 1 as [|s l Hs _ IH]; [done|].
  change (Py.join (s :: l)) with (s ++ Py.join l)%string.
  rewrite length_append, Hs, IH. done.
Qed.

(** A group between parentheses is shorter than the text around it. *)
Lemma slice_shorter (text : string) (lo hi : Z) :
  (1 ≤ lo)%Z → text ≠ EmptyString →
  String.length (Py.str_slice text lo hi) < String.length text.
Proof.
  intros Hlo Hne. unfold Py.str_slice, Py.getslice.
  rewrite length_join by (apply Forall_take, Forall_drop, chars_single).
  rewrite length_take, length_drop. unfold Py.len, Py.clamp.
  rewrite chars_length.
  assert (0 < String.length text) by (destruct text; [done|simpl; lia]).
  destruct (lo <? 0)%Z eqn:Hl; [lia|]. lia.
Qed.

(** [_extract_bracket] returns, or raises an exception of the program,
    whenever its fuel exceeds the length of the text; the groups it
    returns nest no deeper than the text is long. *)
Lemma returns_extract_bracket (fuel : nat) (text : string) :
  String.length text < fuel →
  returns (fun g => group_depth g ≤ String.length text)
          (_extract_bracket fuel text).
Proof.
  revert text. induction fuel as [|fuel IH]; intros text Hf; [lia|].
  set (n := String.length text) in *.
  assert (Hclose : ∀ st : extract_state,
    text ≠ EmptyString → group_depth (ex_result st) ≤ n →
    returns (fun st' => group_depth (ex_result st') ≤ n)
      (if (par_count st =? 0)%Z && (0 <=? lpar_index st)%Z
          && (0 <=? rpar_index st)%Z
       then
         sub ← _extract_bracket fuel
                (Py.str_slice text (lpar_index st + 1) (rpar_index st));
         Ok (mkExtract (par_count st) (-1) (-1) (ex_result st ++ [Lst sub]))
       else Ok st)).
  { intros st Hne Hst. destruct (_ && _) eqn:Hc; [|done].
    apply andb_true_iff in Hc as [[_ Hl%Z.leb_le]%andb_true_iff _].
    pose proof (slice_shorter text (lpar_index st + 1) (rpar_index st)
                  ltac:(lia) Hne) as Hlt.
    eapply returns_bind; [apply IH; unfold n in *; lia|].
    intros sub Hsub. simpl. rewrite group_depth_app.
    change (group_depth [Lst sub]) with (S (group_depth sub) `max` 0).
    unfold n in *. lia. }
  cbn [_extract_bracket].
  eapply (returns_bind (fun st => group_depth (ex_result st) ≤ n)).
  - apply returns_for_each; [simpl; lia|].
    intros st [i char] Hst Hin.
    assert (Hne : text ≠ EmptyString).
    { intros ->. by apply elem_of_nil in Hin. }
    assert (Happend : group_depth (ex_result st ++ [Str char]) ≤ n).
    { rewrite group_depth_app. change (group_depth [Str char]) with 0. lia. }
    repeat case_bool_decide.
    + destruct (_ && _); [done|]. by apply (Hclose (mkExtract _ _ _ _)).
    + destruct (_ && _); [done|]. by apply (Hclose (mkExtract _ _ _ _)).
    + destruct (negb _); [by apply (Hclose (mkExtract _ _ _ _))|by apply Hclose].
  - intros st Hst. by destruct (negb _).
Qed.

Lemma returns_factory (text : string) : returns (fun _ => True) (factory text).
Proof.
  unfold factory.
  destruct (split_on newline text) as [|l1 [|l2 [|l3 [|l4 lt]]]]; try done.
  eapply (returns_bind (fun _ => True)).
  - apply returns_for_each; [done|]. intros sts line _ _.
    unfold parse_transition.
    destruct (cut_arrow line) as [[lhs dst]|]; [|done].
    destruct (cut_at _ lhs) as [[src symbol]|]; [|done]. simpl.
    by case_bool_decide.
  - intros sts _. by case_bool_decide.
Qed.

Lemma returns_execute (o : Operator) : returns (fun _ => True) (execute o).
Proof.
  apply (ProducedFacts.Operator_item_ind
    (fun o => returns (fun _ => True) (execute o))
    (fun x => ∀ o, x = Op o → returns (fun _ => True) (execute o))).
  - by intros [s|l|o'] _.
  - intros first _ last _. cbn [execute].
    eapply (returns_bind (fun _ => True)).
    { unfold all_characters. destruct first as [[|c [|]]|l|o']; try done.
      destruct last as [[|c' [|]]|l|o']; done. }
    intros chars _. destruct (foldl _ _ chars). apply returns_factory.
  - intros first IH1 last IH2. cbn [execute].
    eapply (returns_bind (fun _ => True)).
    { destruct first as [s|l|o']; [|done|].
      - eapply returns_bind; [apply returns_factory|done].
      - eapply returns_bind; [by apply IH1|done]. }
    intros [a1|] _.
    + eapply (returns_bind (fun _ => True)).
      { destruct last as [s|l|o']; [|done|].
        - eapply returns_bind; [apply returns_factory|done].
        - eapply returns_bind; [by apply IH2|done]. }
      by intros [a2|] _.
    + eapply (returns_bind (fun _ => True)).
      { destruct last as [s|l|o']; [|done|].
        - eapply returns_bind; [apply returns_factory|done].
        - eapply returns_bind; [by apply IH2|done]. }
      by intros [a2|] _.
  - intros first IH1 last IH2. cbn [execute].
    eapply (returns_bind (fun _ => True)).
    { destruct first as [s|l|o']; [|done|].
      - eapply returns_bind; [apply returns_factory|done].
      - eapply returns_bind; [by apply IH1|done]. }
    intros [a1|] _.
    + eapply (returns_bind (fun _ => True)).
      { destruct last as [s|l|o']; [|done|].
        - eapply returns_bind; [apply returns_factory|done].
        - eapply returns_bind; [by apply IH2|done]. }
      by intros [a2|] _.
    + eapply (returns_bind (fun _ => True)).
      { destruct last as [s|l|o']; [|done|].
        - eapply returns_bind; [apply returns_factory|done].
        - eapply returns_bind; [by apply IH2|done]. }
      by intros [a2|] _.
  - intros x IH. cbn [execute]. eapply (returns_bind (fun _ => True)); [|done].
    destruct x as [s|l|o']; [apply returns_factory|done|by apply IH].
  - intros x IH. cbn [execute]. eapply (returns_bind (fun _ => True)); [|done].
    destruct x as [s|l|o']; [apply returns_factory|done|by apply IH].
  - intros x IH. cbn [execute]. destruct x as [s|l|o']; [|done|].
    + apply returns_factory.
    + eapply returns_bind; [apply returns_factory|done].
  - done.
  - done.
  - intros o' IH o'' [= <-]. exact IH.
Qed.

(** The compilation of a pattern never stops for lack of fuel: it returns
    a regular expression or raises an exception of the program. *)
Lemma returns_RegEx_init (text name : string) :
  returns (fun _ => True) (RegEx_init text name).
Proof.
  unfold RegEx_init, parse_fuel.
  eapply returns_bind; [apply returns_extract_bracket; lia|].
  intros groups Hg.
  eapply returns_bind; [apply returns_process; simpl in Hg; lia|].
  intros x _. eapply (returns_bind (fun _ => True)); [|done].
  destruct x as [s|l|o]; [done|done|apply returns_execute].
Qed.

End ParserFacts.

(** ** The engine: outcomes of the closure and of a step, whole entries *)

Lemma for_each_ext {A S : Type} (xs : list A) (st : S)
    (f g : S → A → result S) :
  (∀ s x, x ∈ xs → f s x = g s x) → for_each xs st f = for_each xs st g.
Proof.
  revert st. induction xs as [|x xs IH]; intros st H; simpl; [done|].
  rewrite H by left. destruct (g st x); [|done].
  apply IH. intros s y Hy. apply H. by right.
Qed.

Module OutcomeFacts.
Import Automata Closure Invariants Language.
Import ClosureFacts ClosuresFacts EngineFacts LanguageFacts.

#[local] Arguments _e_closure : simpl never.
#[local] Arguments e_fuel : simpl never.

(** X1.  [_e_closures] on any automaton and any argument tuple, with no
    assumption at all: either it returns exactly the set of states that
    ε-moves reach from the arguments, which then is the smallest
    ε-closed superset of the arguments and holds states of the automaton
    only, or it raises the invalid-input error for a state that is
    ε-reachable from an argument and does not belong to the automaton.
    Nothing else is ever raised, and the search never fails to
    terminate. *)
Theorem e_closures_outcome (a : FA) (l : list string) :
  match _e_closures a l with
  | Ok C =>
      (∀ y, y ∈ C ↔ ∃ i, i ∈ l ∧ rtc (eps_step a) i y) ∧
      least_closed a (list_to_set l) C ∧
      C ⊆ dom (states a)
  | Raise e =>
      ∃ i y, i ∈ l ∧ rtc (eps_step a) i y ∧ y ∉ dom (states a) ∧
             e = ValueError (_input_error a y)
  end.
Proof.
  pose proof (e_closures_post a l) as H.
  destruct (_e_closures a l) as [C|e]; [|exact H].
  destruct H as [HC Hd]. split_and!; [done| |done].
  apply reach_least_closed. intros y. rewrite HC.
  by setoid_rewrite elem_of_list_to_set.
Qed.

(** The inner loop of [NFA._access] on arbitrary targets. *)
Lemma access_inner_outcome (a : FA) (l : list string) (acc : gset string) :
  match for_each l acc (fun old_currents end_ =>
          tgt ← states_getitem a (_get_alias a end_);
          Ok (old_currents ∪ {[tgt]})) with
  | Ok X => X = acc ∪ list_to_set l ∧ ∀ e, e ∈ l → owned a e
  | Raise err => ∃ e, e ∈ l ∧ ¬ owned a e ∧ err = KeyError e
  end.
Proof.
  revert acc. induction l as [|e l IH]; intros acc; simpl.
  { split; [set_solver|]. by intros e ?%elem_of_nil. }
  unfold states_getitem at 1, _get_alias at 1.
  destruct (states a !! e) as [tr|] eqn:He; simpl.
  - specialize (IH (acc ∪ {[e]})).
    destruct (for_each l _ _) as [X|err].
    + destruct IH as [-> Hall]. split; [set_solver|].
      intros e' [->|?]%elem_of_cons; [|by apply Hall].
      apply elem_of_dom. by exists tr.
    + destruct IH as (e' & ? & ? & ->). exists e'. split_and!; [by right|done..].
  - exists e. split_and!; [left| |done].
    unfold owned. by rewrite not_elem_of_dom.
Qed.

Lemma access_outer_outcome (a : FA) (v : string) (l : list string)
    (acc : gset string) :
  match for_each l acc (fun old_currents state =>
          let res := forward (state_obj a state) v in
          for_each (elements res) old_currents (fun old_currents end_ =>
            tgt ← states_getitem a (_get_alias a end_);
            Ok (old_currents ∪ {[tgt]}))) with
  | Ok X =>
      X = acc ∪ ⋃ ((fun s => forward (state_obj a s) v) <$> l) ∧
      ∀ s e, s ∈ l → e ∈ forward (state_obj a s) v → owned a e
  | Raise err =>
      ∃ s e, s ∈ l ∧ e ∈ forward (state_obj a s) v ∧ ¬ owned a e ∧
             err = KeyError e
  end.
Proof.
  revert acc. induction l as [|s l IH]; intros acc; simpl.
  { split; [set_solver|]. by intros s e ?%elem_of_nil. }
  pose proof (access_inner_outcome a
    (elements (forward (state_obj a s) v)) acc) as Hin.
  destruct (for_each (elements _) acc _) as [X1|err].
  - destruct Hin as [-> Hall]. specialize (IH (acc ∪
      list_to_set (elements (forward (state_obj a s) v)))).
    destruct (for_each l _ _) as [X|err].
    + destruct IH as [-> Hall']. split.
      * rewrite list_to_set_elements_L. set_solver.
      * intros s' e [->|?]%elem_of_cons He; [|by eapply Hall'].
        apply Hall. by apply elem_of_elements.
    + destruct IH as (s' & e & ? & ? & ? & ->).
      exists s', e. split_and!; [by right|done..].
  - destruct Hin as (e & He%elem_of_elements & Ho & ->).
    exists s, e. split_and!; [left|done..].
Qed.

(** X2.  [NFA._access] on any automaton, any current set and any symbol.
    It raises the invalid-input error exactly when the symbol is not one
    of the inputs; it raises [KeyError] exactly when the symbol is valid
    and some successor on it of a current state is not a state of the
    automaton; otherwise the current set becomes the union of the
    successors on the symbol of all current states, and nothing else
    changes. *)
Theorem NFA_access_outcome (a : FA) (v : string) :
  match NFA_access a v with
  | Ok a' =>
      v ∈ inputs a ∧
      a' = set_current a (step_set a (current a) v) ∧
      step_set a (current a) v ⊆ dom (states a)
  | Raise err =>
      (v ∉ inputs a ∧ err = ValueError (_input_error a v)) ∨
      (v ∈ inputs a ∧
       ∃ e, e ∈ step_set a (current a) v ∧ e ∉ dom (states a) ∧
            err = KeyError e)
  end.
Proof.
  unfold NFA_access. destruct (decide (v ∈ inputs a)) as [Hv|Hv]; [|by left].
  pose proof (access_outer_outcome a v (elements (current a)) ∅) as H.
  destruct (for_each _ _ _) as [X|err]; simpl.
  - destruct H as [-> Hall].
    assert (HX : ∅ ∪ ⋃ ((fun s => forward (state_obj a s) v) <$>
                        elements (current a)) = step_set a (current a) v).
    { unfold step_set. set_solver. }
    rewrite HX. split_and!; [done|done|].
    intros e (s & Hs & He)%elem_of_step_set.
    eapply Hall; [|exact He]. by apply elem_of_elements.
  - destruct H as (s & e & Hs%elem_of_elements & He & Ho & ->).
    right. split; [done|]. exists e. split_and!; [|done|done].
    apply elem_of_step_set. by exists s.
Qed.

(** One step from the empty current set. *)
Lemma access_empty (a : FA) (v : string) :
  current a = ∅ → v ∈ inputs a → _access a v = Ok a.
Proof.
  intros Hc Hv. unfold _access, NFA_access. rewrite decide_True by done.
  rewrite Hc, elements_empty. simpl. unfold _all_closures. simpl.
  rewrite elements_empty. unfold _e_closures. simpl.
  destruct a; simpl in *; by subst.
Qed.

(** X3.  The empty current set is a dead end that needs no ownership
    assumption: on any automaton whose current set is empty, processing
    any entry of valid symbols returns the automaton unchanged, so the
    current set stays empty, the machine does not accept, and nothing is
    raised. *)
Theorem empty_current_absorbs (a : FA) (entry : list string) :
  current a = ∅ → (∀ c, c ∈ entry → c ∈ inputs a) →
  _process a entry = Ok a ∧ accepted a = false.
Proof.
  intros Hc Hin. split; [|by apply accepted_empty].
  unfold _process, _all_closures. rewrite Hc, elements_empty.
  unfold _e_closures. simpl.
  replace (set_current a ∅) with a by (destruct a; simpl in *; by subst).
  unfold FA_process. induction entry as [|c entry IH]; [done|].
  simpl. rewrite access_empty; [|done|apply Hin; left].
  apply IH. intros c' ?. apply Hin. by right.
Qed.

(** On a closed current set, entering the symbols one by one and
    accessing them one by one is the same. *)
Lemma for_each_enter_access (cs : list string) (a : FA) :
  wf a → eps_closed a (current a) →
  for_each cs a enter = for_each cs a _access.
Proof.
  revert a. induction cs as [|c cs IH]; intros a Hwf Hcl; [done|].
  cbn [for_each]. rewrite enter_access by done.
  destruct (decide (c ∈ inputs a)) as [Hc|Hc].
  - destruct (access_ok a c Hwf Hc) as (C & -> & Hl & Hd & _).
    apply IH; [by apply wf_set_current|by destruct Hl as (_ & ? & _)].
  - by rewrite access_invalid.
Qed.

(** What a sequence of accesses preserves. *)
Lemma accesses_closed (cs : list string) (a a' : FA) :
  wf a → eps_closed a (current a) →
  for_each cs a _access = Ok a' →
  wf a' ∧ eps_closed a' (current a').
Proof.
  revert a. induction cs as [|c cs IH]; intros a Hwf Hcl H.
  - simpl in H. by simplify_eq.
  - cbn [for_each] in H. destruct (decide (c ∈ inputs a)) as [Hc|Hc].
    + destruct (access_ok a c Hwf Hc) as (C & HC & Hl & Hd & _).
      rewrite HC in H. apply IH in H; [done|by apply wf_set_current|].
      by destruct Hl as (_ & ? & _).
    + by rewrite access_invalid in H.
Qed.

(** The closure that [_process] starts with. *)
Lemma process_start (a : FA) :
  wf a →
  ∃ C, _all_closures a = Ok C ∧ wf (set_current a C) ∧
       eps_closed a C ∧
       ∀ y, y ∈ C ↔ ∃ i, i ∈ current a ∧ rtc (eps_step a) i y.
Proof.
  intros Hwf. unfold _all_closures.
  destruct (e_closures_set_ok a (current a)) as (C & HC & Hl & Hd & Hr).
  { by apply wf_eps_targets. } { by apply wf_current. }
  exists C. split_and!; [done|by apply wf_set_current| |done].
  by destruct Hl as (_ & ? & _).
Qed.

(** X4.  The subset construction is exact.  On an automaton that
    satisfies the structural invariants, whatever its current set,
    [_process] on an entry of valid symbols raises nothing, changes
    nothing but the current set, and the new current set holds exactly
    the states in which a run of the automaton over the entry, started in
    one of the current states, can end (a run reads the symbols in order
    and moves freely along ε-transitions before, between and after
    them). *)
Theorem process_reaches (a : FA) (entry : list string) :
  wf a → (∀ c, c ∈ entry → c ∈ inputs a) →
  ∃ C, _process a entry = Ok (set_current a C) ∧
       C ⊆ dom (states a) ∧
       ∀ q, q ∈ C ↔ ∃ q0, q0 ∈ current a ∧ run a q0 entry q.
Proof.
  intros Hwf Hin.
  destruct (process_start a Hwf) as (C0 & HC0 & Hwf0 & Hcl0 & Hr0).
  unfold _process, FA_process. rewrite HC0. simpl.
  rewrite <- for_each_enter_access by done.
  destruct (enters_reach entry (set_current a C0) Hwf0 Hcl0 Hin)
    as (C & HC & Hd & _ & Hr).
  exists C. split_and!; [done|done|].
  intros q. rewrite Hr. simpl. split.
  - intros (q1 & (q0 & Hq0 & Hreach)%Hr0 & Hrun).
    exists q0. split; [done|]. eapply run_eps_star; [exact Hreach|].
    eapply run_ext; [| | |exact Hrun]; done.
  - intros (q0 & Hq0 & Hrun). exists q0. split.
    + apply Hr0. by exists q0.
    + eapply run_ext; [| | |exact Hrun]; done.
Qed.

(** X5.  Processing composes.  On an automaton that satisfies the
    structural invariants, processing the entry [xs ++ ys] is processing
    [xs] and then, on the automaton this leaves, processing [ys]; this
    holds for the errors too: if a symbol of [xs] is invalid, both sides
    raise the same error. *)
Theorem process_app (a : FA) (xs ys : list string) :
  wf a →
  _process a (xs ++ ys) = (a' ← _process a xs; _process a' ys).
Proof.
  intros Hwf.
  destruct (process_start a Hwf) as (C0 & HC0 & Hwf0 & Hcl0 & _).
  assert (Hp : ∀ cs, _process a cs = for_each cs (set_current a C0) _access).
  { intros cs. unfold _process, FA_process. by rewrite HC0. }
  rewrite !Hp, for_each_app.
  destruct (for_each xs (set_current a C0) _access) as [a'|e] eqn:Hxs; [|done].
  simpl. apply accesses_closed in Hxs as [Hwf' Hcl']; [|done|done].
  unfold _process, FA_process. rewrite all_closures_closed by done. simpl.
  by rewrite set_current_id.
Qed.

End OutcomeFacts.
Module OutcomeWitnesses.
Import Automata Closure Invariants Build Language EngineInstances.
Import EngineFacts BuildFacts OutcomeFacts.
Local Open Scope string_scope.

Lemma single_a_inputs (entry : list string) :
  (∀ c, c ∈ entry → c = "a") →
  ∀ c, c ∈ entry → c ∈ inputs (single_automaton "a").
Proof. intros H c Hc. rewrite (H c Hc). simpl. set_solver. Qed.

Lemma a_a_entry : ∀ c, c ∈ ["a"; "a"] → c = "a".
Proof. intros c Hc. set_solver. Qed.

Lemma a_entry : ∀ c, c ∈ ["a"] → c = "a".
Proof. intros c Hc. set_solver. Qed.

Lemma empty_current_absorbs_witness :
  _process STUCK ["a"; "a"] = Ok STUCK ∧ accepted STUCK = false.
Proof.
  exact (empty_current_absorbs STUCK ["a"; "a"] eq_refl
           (single_a_inputs _ a_a_entry)).
Defined.

Lemma process_reaches_witness :
  ∃ C, _process (single_automaton "a") ["a"]
       = Ok (set_current (single_automaton "a") C) ∧
       C ⊆ dom (states (single_automaton "a")) ∧
       ∀ q, q ∈ C ↔
            ∃ q0, q0 ∈ current (single_automaton "a") ∧
                  run (single_automaton "a") q0 ["a"] q.
Proof.
  exact (process_reaches (single_automaton "a") ["a"]
           (wf_single_automaton "a") (single_a_inputs _ a_entry)).
Defined.

Lemma process_app_witness :
  _process (single_automaton "a") (["a"] ++ ["a"]) =
  (a' ← _process (single_automaton "a") ["a"]; _process a' ["a"]).
Proof.
  exact (process_app (single_automaton "a") ["a"] ["a"]
           (wf_single_automaton "a")).
Defined.

End OutcomeWitnesses.

(** ** The default accumulator of [_e_closure] *)

Module SharedDefaultFacts.
Import Automata Closure Build SharedDefault.
Import ClosureFacts ClosuresFacts.
Local Open Scope string_scope.

#[local] Arguments _e_closure : simpl never.
#[local] Arguments e_fuel : simpl never.

(** X6.  Calls of [_e_closure] that leave out the accumulator share the
    one default set.  When the first such call, on [x], and the next one,
    on [y], both return, the first returns exactly the states ε-reachable
    from [x], but the second returns the states ε-reachable from [x] or
    from [y]: what the first call found is still in the set, so [x] is
    reported in the closure of [y] whether or not ε-moves lead from [y]
    to [x]. *)
Theorem default_accumulator_is_shared (a : FA) (x y : string)
    (V1 V2 : gset string) :
  _e_closure_default a x ∅ = Ok V1 →
  _e_closure_default a y V1 = Ok V2 →
  (∀ z, z ∈ V1 ↔ rtc (eps_step a) x z) ∧
  (∀ z, z ∈ V2 ↔ rtc (eps_step a) x z ∨ rtc (eps_step a) y z) ∧
  x ∈ V2.
Proof.
  unfold _e_closure_default. intros H1 H2.
  pose proof (e_closure_post a (e_fuel a) x ∅ (e_fuel_enough a x ∅)) as P1.
  pose proof (e_closure_post a (e_fuel a) y V1 (e_fuel_enough a y V1)) as P2.
  rewrite H1 in P1. rewrite H2 in P2. simpl in P1, P2.
  destruct P1 as (Hs1 & Hr1 & Hn1). destruct P2 as (Hs2 & Hr2 & Hn2).
  assert (Hc1 : ∀ u v, u ∈ V1 → rtc (eps_step a) u v → v ∈ V1).
  { intros u v Hu Hr. induction Hr as [|u v w Huv _ IH]; [done|].
    apply IH. destruct (Hn1 u) as [_ Hz]; [left; set_solver|]. by apply Hz. }
  assert (Hx1 : ∀ z, z ∈ V1 ↔ rtc (eps_step a) x z).
  { intros z. split.
    - intros Hz. destruct (Hr1 z Hz) as [?|?]; [set_solver|done].
    - apply Hc1. set_solver. }
  assert (Hc2 : ∀ u v, u ∈ V2 → rtc (eps_step a) u v → v ∈ V2).
  { intros u v Hu Hr. induction Hr as [|u v w Huv _ IH]; [done|].
    apply IH. destruct (decide (u ∈ V1)) as [Hu1|Hu1].
    - apply Hs2. apply elem_of_union_l. apply (Hc1 u); [done|by apply rtc_once].
    - destruct (Hn2 u) as [_ Hz]; [by left|]. by apply Hz. }
  split_and!; [done| |].
  - intros z. split.
    + intros Hz. destruct (Hr2 z Hz) as [?%Hx1|?]; [by left|by right].
    + intros [Hz|Hz].
      * apply Hs2, elem_of_union_l. by apply Hx1.
      * apply (Hc2 y); [|done]. set_solver.
  - apply Hs2, elem_of_union_l. by apply Hx1.
Qed.

Lemma default_first_call :
  _e_closure_default (single_automaton "a") "s1" ∅ = Ok {["s1"]}.
Proof. vm_compute. reflexivity. Qed.

Lemma default_second_call :
  _e_closure_default (single_automaton "a") "s0" {["s1"]}
  = Ok ({["s1"]} ∪ {["s0"]}).
Proof. vm_compute. reflexivity. Qed.

Lemma default_accumulator_is_shared_witness :
  (∀ z, z ∈ ({["s1"]} : gset string) ↔
        rtc (eps_step (single_automaton "a")) "s1" z) ∧
  (∀ z, z ∈ ({["s1"]} ∪ {["s0"]} : gset string) ↔
        rtc (eps_step (single_automaton "a")) "s1" z ∨
        rtc (eps_step (single_automaton "a")) "s0" z) ∧
  "s1" ∈ ({["s1"]} ∪ {["s0"]} : gset string).
Proof.
  exact (default_accumulator_is_shared (single_automaton "a")
           "s1" "s0" {["s1"]} ({["s1"]} ∪ {["s0"]})
           default_first_call default_second_call).
Defined.

End SharedDefaultFacts.

(** ** Repeated checks *)

Module CheckFacts.
Import Automata Closure Invariants Build Operators RegularExpressions Checks.
Import Produced Nesting.
Import EngineFacts ProducedFacts ParserFacts.

(** The closure search reads the state map and the ε-symbol only. *)
Lemma e_closure_ext (fuel : nat) (a b : FA) (x : string) (V : gset string) :
  states a = states b → _epsilon a = _epsilon b →
  _e_closure fuel a x V = _e_closure fuel b x V.
Proof.
  intros Hs He. revert x V. induction fuel as [|fuel IH]; intros x V; [done|].
  simpl. unfold contains, state_obj. rewrite Hs, He.
  destruct (bool_decide _); [|done].
  apply for_each_ext. intros W e _. by destruct (decide (e ∈ W)).
Qed.

#[local] Arguments _e_closure : simpl never.
#[local] Arguments e_fuel : simpl never.

Lemma e_closures_ext (a b : FA) (l : list string) :
  states a = states b → _epsilon a = _epsilon b →
  _e_closures a l = _e_closures b l.
Proof.
  intros Hs He. unfold _e_closures. apply for_each_ext. intros W i _.
  unfold e_fuel. rewrite Hs. by rewrite (e_closure_ext _ a b).
Qed.

Lemma reset_set_current (a : FA) (C : gset string) :
  reset (set_current a C) = reset a.
Proof.
  unfold reset. rewrite (e_closures_ext (set_current a C) a) by done. done.
Qed.

(** A step changes the current set only. *)
Lemma access_structure (a a' : FA) (v : string) :
  _access a v = Ok a' → a' = set_current a (current a').
Proof.
  unfold _access, NFA_access. intros H.
  destruct (decide (v ∈ inputs a)); [|done].
  apply bind_ok in H as (a1 & H1 & H).
  apply bind_ok in H1 as (X & _ & H1).
  apply bind_ok in H as (c & _ & H). by simplify_eq.
Qed.

Lemma enter_structure (a a' : FA) (v : string) :
  enter a v = Ok a' → a' = set_current a (current a').
Proof.
  unfold enter, _process. intros H.
  apply bind_ok in H as (c & _ & H). unfold FA_process in H.
  cbn [for_each] in H.
  destruct (_access (set_current a c) v) as [a1|] eqn:Ha; [|done].
  apply access_structure in Ha. by simplify_eq.
Qed.

Lemma check_loop_structure (valid : gset string) (cs : list string)
    (a a' : FA) (b : bool) :
  check_loop valid a cs = Ok (b, a') → a' = set_current a (current a').
Proof.
  revert a. induction cs as [|c cs IH]; intros a H; simpl in H.
  - simplify_eq. by rewrite set_current_id.
  - destruct (decide (c ∈ valid)).
    + apply bind_ok in H as (a1 & H1 & H). apply enter_structure in H1.
      apply IH in H. rewrite H1 in H. exact H.
    + simplify_eq. by rewrite set_current_id.
Qed.

(** X7.  Checks do not disturb each other.  [check] mutates the
    automaton of the regular expression and does not reset it afterwards;
    still, whatever text [s] was checked before (and whether that check
    stopped at an invalid character or not), the next check of any text
    [s'] gives the answer that a check of [s'] on the untouched regular
    expression gives, errors included. *)
Theorem check_after_check (r : RegEx) (s s' : string) :
  check (with_automaton r (after_check r s)) s' = check r s'.
Proof.
  assert (H : ∃ C, after_check r s = set_current (automaton r) C).
  { unfold after_check. destruct (check_run r s) as [[b a']|e] eqn:Hrun.
    - unfold check_run in Hrun. apply bind_ok in Hrun as (a0 & H0 & Hrun).
      apply check_loop_structure in Hrun.
      unfold reset in H0. apply bind_ok in H0 as (c & _ & H0). simplify_eq.
      by exists (current a').
    - exists (current (automaton r)). by rewrite set_current_id. }
  destruct H as [C ->].
  unfold check, check_run, with_automaton, valid_characters. simpl.
  by rewrite reset_set_current.
Qed.

(** X8.  Compiling never fails to terminate and never yields a
    malformed automaton: for every text, [RegEx] either returns or raises
    one of the program's exceptions (the recursion on nested groups always
    ends), and the automaton of every regular expression it returns
    satisfies the structural invariants (every transition, the start
    state, the accept states and the current states are states of the
    automaton), has [$] as its ε-symbol, and has [$] among its inputs. *)
Theorem compile_returns_well_formed (text name : string) :
  RegEx_init text name ≠ Raise FuelExhausted ∧
  ∀ r, RegEx_init text name = Ok r →
       wf (automaton r) ∧ _epsilon (automaton r) = EPSILON ∧
       EPSILON ∈ inputs (automaton r).
Proof.
  split.
  - pose proof (returns_RegEx_init text name) as H.
    destruct (RegEx_init text name); [done|]. simpl in H. congruence.
  - intros r Hr. by apply RegEx_init_good in Hr.
Qed.

End CheckFacts.
(** ** The passes of the parser *)

Module LoopFacts.
Import Operators RegularExpressions PassNotions.

Lemma enum_from_cons {A : Type} (k : nat) (x : A) (l : list A) :
  enum_from k (x :: l) = (Z.of_nat k, x) :: enum_from (S k) l.
Proof.
  unfold enum_from. simpl. rewrite Nat.add_0_r. f_equal.
  apply imap_ext. intros i y _. simpl. do 2 f_equal. lia.
Qed.

Lemma enumerate_enum_from {A : Type} (l : list A) :
  Py.enumerate l = enum_from 0 l.
Proof. done. Qed.

Lemma enum_from_app {A : Type} (k : nat) (l1 l2 : list A) :
  enum_from k (l1 ++ l2) = enum_from k l1 ++ enum_from (k + length l1) l2.
Proof.
  unfold enum_from. rewrite imap_app. f_equal.
  apply imap_ext. intros i y _. simpl. do 2 f_equal. lia.
Qed.

(** A loop over [enumerate(l)] keeps an invariant indexed by the number
    of items read; [R] is what holds of an exception that leaves it. *)
Lemma enumerate_loop {A St : Type} (R : exn → Prop) (Inv : nat → St → Prop)
    (l : list A) (body : St → Z * A → result St) (st : St) :
  Inv 0 st →
  (∀ i x s, l !! i = Some x → Inv i s →
     match body s (Z.of_nat i, x) with
     | Ok s' => Inv (S i) s'
     | Raise e => R e
     end) →
  match for_each (Py.enumerate l) st body with
  | Ok s' => Inv (length l) s'
  | Raise e => R e
  end.
Proof.
  intros H0 Hstep. rewrite enumerate_enum_from.
  assert (Hgen : ∀ l' k s, (∀ i x, l' !! i = Some x → l !! (k + i) = Some x) →
    Inv k s →
    match for_each (enum_from k l') s body with
    | Ok s' => Inv (k + length l') s'
    | Raise e => R e
    end).
  { induction l' as [|x l' IH]; intros k s Hl Hk.
    - simpl. by rewrite Nat.add_0_r.
    - rewrite enum_from_cons. cbn [for_each].
      pose proof (Hstep k x s) as Hx.
      rewrite <- (Nat.add_0_r k) in Hx at 1. specialize (Hx (Hl 0 x eq_refl) Hk).
      destruct (body s (Z.of_nat k, x)) as [s1|e]; [|done].
      specialize (IH (S k) s1). simpl length.
      replace (k + S (length l')) with (S k + length l') by lia.
      apply IH; [|done]. intros i y Hy.
      replace (S k + i) with (k + S i) by lia. by apply Hl. }
  exact (Hgen l 0 st (fun i x H => H) H0).
Qed.

Lemma setitem_nat {A : Type} (l : list A) (i : nat) (x : A) :
  i < length l → Py.setitem l (Z.of_nat i) x = Ok (<[i := x]> l).
Proof.
  intros Hi. unfold Py.setitem, Py.len. cbv zeta.
  rewrite !(proj2 (Z.ltb_ge (Z.of_nat i) 0)) by lia.
  rewrite (proj2 (Z.leb_gt (Z.of_nat (length l)) (Z.of_nat i))) by lia.
  simpl. by rewrite Nat2Z.id.
Qed.

Lemma getitem_nat {A : Type} (l : list A) (i : nat) (x : A) :
  l !! i = Some x → Py.getitem l (Z.of_nat i) = Ok x.
Proof.
  intros Hi. unfold Py.getitem. cbv zeta.
  rewrite !(proj2 (Z.ltb_ge (Z.of_nat i) 0)) by lia.
  by rewrite Nat2Z.id, Hi.
Qed.

Lemma map_result_app {A B : Type} (f : A → result B) (l1 l2 : list A) :
  map_result f (l1 ++ l2) =
  (ys1 ← map_result f l1; ys2 ← map_result f l2; Ok (ys1 ++ ys2)).
Proof.
  induction l1 as [|x l1 IH]; simpl.
  - by destruct (map_result f l2).
  - destruct (f x) as [y|e]; simpl; [|done]. rewrite IH.
    destruct (map_result f l1) as [ys1|e]; simpl; [|done].
    by destruct (map_result f l2).
Qed.

Lemma map_result_length {A B : Type} (f : A → result B) (l : list A)
    (ys : list B) :
  map_result f l = Ok ys → length ys = length l.
Proof.
  revert ys. induction l as [|x l IH]; intros ys H; simpl in H.
  - by simplify_eq.
  - apply bind_ok in H as (y & _ & H). apply bind_ok in H as (ys' & H' & H).
    simplify_eq. simpl. f_equal. by apply IH.
Qed.

Lemma map_result_total {A B : Type} (f : A → B) (l : list A) :
  map_result (fun x => Ok (f x)) l = Ok (f <$> l).
Proof. induction l as [|x l IH]; simpl; [done|]. by rewrite IH. Qed.

(** A loop that replaces the item at each index by what [f] makes of it
    is [map_result f]. *)
Lemma update_loop (f : item → result item) (l : list item)
    (body : list item → Z * item → result (list item)) :
  (∀ i x g, g !! i = Some x →
     body g (Z.of_nat i, x) = (y ← f x; Ok (<[i := y]> g))) →
  for_each (Py.enumerate l) l body = map_result f l.
Proof.
  intros Hbody.
  pose proof (enumerate_loop
    (fun e => map_result f l = Raise e)
    (fun i g => ∃ ys, map_result f (take i l) = Ok ys ∧ g = ys ++ drop i l)
    l body l) as H.
  assert (H0 : ∃ ys, map_result f (take 0 l) = Ok ys ∧ l = ys ++ drop 0 l)
    by by exists [].
  specialize (H H0). clear H0.
  assert (Hstep : ∀ i x s, l !! i = Some x →
    (∃ ys, map_result f (take i l) = Ok ys ∧ s = ys ++ drop i l) →
    match body s (Z.of_nat i, x) with
    | Ok s' => ∃ ys, map_result f (take (S i) l) = Ok ys ∧ s' = ys ++ drop (S i) l
    | Raise e => map_result f l = Raise e
    end).
  { intros i x s Hi (ys & Hys & ->).
    assert (Hlen : length ys = i).
    { apply map_result_length in Hys. rewrite Hys, length_take.
      apply lookup_lt_Some in Hi. lia. }
    rewrite (Hbody i x).
    2:{ rewrite lookup_app_r by lia. rewrite Hlen, Nat.sub_diag.
        by rewrite lookup_drop, Nat.add_0_r. }
    destruct (f x) as [y|e] eqn:Hf; simpl.
    - exists (ys ++ [y]). split.
      + rewrite (take_S_r l i x Hi), map_result_app, Hys. simpl. by rewrite Hf.
      + rewrite insert_app_r_alt by lia. rewrite Hlen, Nat.sub_diag.
        rewrite (drop_S l x i Hi). simpl. by rewrite <- app_assoc.
    - rewrite <- (take_drop i l), map_result_app, Hys. simpl.
      rewrite (drop_S l x i Hi). simpl. by rewrite Hf. }
  specialize (H Hstep).
  destruct (for_each (Py.enumerate l) l body) as [g|e]; [|done].
  destruct H as (ys & Hys & ->).
  rewrite firstn_all in Hys. by rewrite drop_all, app_nil_r.
Qed.

End LoopFacts.

Module PassFacts.
Import Operators RegularExpressions PassNotions LoopFacts.
Local Open Scope string_scope.

(** [_clean] is a map. *)
Lemma clean_map (group : list item) :
  _clean group = Ok (wrap_single <$> group).
Proof.
  unfold _clean. rewrite <- map_result_total.
  apply update_loop. intros i x g Hi.
  assert (Hlt : i < length g) by by eapply lookup_lt_Some.
  destruct x as [s|l|o]; simpl.
  - by rewrite setitem_nat.
  - by rewrite list_insert_id.
  - by rewrite list_insert_id.
Qed.

(** X9.  [_clean] is a map: it never raises, keeps the length and the
    order of the group, replaces every loose [str] by the [Single] node
    over it, and leaves operator nodes and nested lists as they are. *)
Theorem clean_wraps (group : list item) :
  _clean group = Ok (wrap_single <$> group).
Proof. apply clean_map. Qed.

(** [_process_sublists] is a map in the error monad. *)
Lemma process_sublists_map (process : list item → result item)
    (group : list item) :
  _process_sublists process group = map_result (sublist_result process) group.
Proof.
  unfold _process_sublists. apply update_loop. intros i x g Hi.
  assert (Hlt : i < length g) by by eapply lookup_lt_Some.
  destruct x as [s|l|o]; simpl.
  - by rewrite list_insert_id.
  - destruct (process l) as [y|e]; simpl; [|done]. by rewrite setitem_nat.
  - by rewrite list_insert_id.
Qed.

(** X10.  [_process_sublists] is a map in the error monad: every nested
    list is replaced by what [_process] returns for it, the lists being
    processed from left to right; every other item stays where it is; and
    if [_process] raises on a nested list, the pass raises that same
    exception, the one of the leftmost failing list. *)
Theorem process_sublists_maps (process : list item → result item)
    (group : list item) :
  _process_sublists process group = map_result (sublist_result process) group.
Proof. apply process_sublists_map. Qed.

End PassFacts.
Module SliceFacts.

Lemma setslice_mid {A : Type} (pre mid post new : list A) (lo hi : Z) :
  lo = Z.of_nat (length pre) → hi = Z.of_nat (length pre + length mid) →
  Py.setslice (pre ++ mid ++ post) lo hi new = pre ++ new ++ post.
Proof.
  intros -> ->. unfold Py.setslice, Py.clamp, Py.len. cbv zeta.
  rewrite !length_app.
  rewrite (proj2 (Z.ltb_ge (Z.of_nat (length pre)) 0)) by lia.
  rewrite (proj2 (Z.ltb_ge (Z.of_nat (length pre + length mid)) 0)) by lia.
  rewrite !Z.min_l by lia. rewrite Z.max_r by lia.
  rewrite !Nat2Z.id. rewrite take_app_length. f_equal. f_equal.
  rewrite drop_app_add', drop_app_length; [done|done].
Qed.

Lemma getitem_mid {A : Type} (pre : list A) (x : A) (post : list A) (i : Z) :
  i = Z.of_nat (length pre) → Py.getitem (pre ++ x :: post) i = Ok x.
Proof.
  intros ->. unfold Py.getitem. cbv zeta.
  rewrite !(proj2 (Z.ltb_ge (Z.of_nat (length pre)) 0)) by lia.
  by rewrite Nat2Z.id, list_lookup_middle.
Qed.

Lemma getitem_out {A : Type} (l : list A) (i : Z) :
  (Z.of_nat (length l) ≤ i)%Z → Py.getitem l i = Raise IndexError.
Proof.
  intros Hi. unfold Py.getitem. cbv zeta.
  rewrite !(proj2 (Z.ltb_ge i 0)) by lia.
  rewrite lookup_ge_None_2; [done|lia].
Qed.

Lemma getitem_second {A : Type} (pre : list A) (x y : A) (post : list A)
    (i : Z) :
  i = Z.of_nat (length pre + 1) → Py.getitem (pre ++ x :: y :: post) i = Ok y.
Proof.
  intros ->. change (pre ++ x :: y :: post) with (pre ++ [x] ++ y :: post).
  rewrite app_assoc. apply getitem_mid. by rewrite length_app.
Qed.

End SliceFacts.

Module EscapeFacts.
Import Operators RegularExpressions PassNotions Segments LoopFacts SliceFacts.
Local Open Scope string_scope.
Local Open Scope list_scope.

Lemma escape_characters_body (group : list item) :
  _escape_characters group =
  ('(copied_group, _, _) ←
     for_each (Py.enumerate group) (group, 0%Z, false)
       (escape_body (Py.len group));
   Ok copied_group).
Proof. done. Qed.

(** After [break] nothing changes any more. *)
Lemma escape_broken (n : Z) (l : list item) (k : nat) (cp : list item) (c : Z) :
  for_each (enum_from k l) (cp, c, true) (escape_body n) = Ok (cp, c, true).
Proof.
  revert k. induction l as [|x l IH]; intros k; [done|].
  rewrite enum_from_cons. cbn [for_each]. simpl. apply IH.
Qed.

(** Items that are no backslash leave the copied group as it is, and
    the loop is not left while items are still to come. *)
Lemma escape_plain (n : Z) (l : list item) (k : nat) (cp : list item) (c : Z) :
  Forall (fun x => eq_str x "\" = false) l →
  (Z.of_nat (k + length l) ≤ n - c)%Z →
  for_each (enum_from k l) (cp, c, false) (escape_body n) = Ok (cp, c, false).
Proof.
  intros Hl. revert k. induction Hl as [|x l Hx _ IH]; intros k Hk; [done|].
  rewrite enum_from_cons. cbn [for_each escape_body]. simpl in Hk.
  rewrite (proj2 (Z.leb_gt _ _)) by lia. rewrite Hx. apply IH. lia.
Qed.

(** The step on an escaping backslash that is resolved. *)
Lemma escape_step_pair (n : Z) (k c : nat) (pre rest : list item) (ch : string) :
  length pre + c = k → (Z.of_nat k < n - Z.of_nat c)%Z →
  escape_body n (pre ++ [Str "\"; Str ch] ++ rest, Z.of_nat c, false)
    (Z.of_nat k, Str "\")
  = Ok (pre ++ [Op (Single (Str ch))] ++ rest, Z.of_nat (S c), false).
Proof.
  intros Hpre Hle. cbn [escape_body].
  rewrite (proj2 (Z.leb_gt _ _)) by lia.
  change (eq_str (Str "\") "\") with true. cbv iota.
  rewrite (getitem_second pre (Str "\") (Str ch) rest) by lia.
  unfold mbind, result_bind. cbv beta iota.
  change (new_Single (Str ch)) with (Ok (Single (Str ch))). cbv beta iota.
  rewrite (setslice_mid pre [Str "\"; Str ch] rest); [|lia|simpl; lia].
  do 3 f_equal. lia.
Qed.

(** The step on an item that is no backslash, or on an escaped
    character. *)
Lemma escape_step_other (n : Z) (k c : nat) (cp : list item) (x : item)
    (b : bool) :
  (b = true → (n ≤ Z.of_nat (k + c))%Z) →
  (eq_str x "\" = false ∨ (n - Z.of_nat c ≤ Z.of_nat k)%Z) →
  ∃ b1, escape_body n (cp, Z.of_nat c, b) (Z.of_nat k, x)
        = Ok (cp, Z.of_nat c, b1) ∧
        (b1 = true → (n ≤ Z.of_nat (S k + c))%Z).
Proof.
  intros Hb Hx. cbn [escape_body]. destruct b.
  - exists true. split; [done|]. intros _. specialize (Hb eq_refl). lia.
  - destruct (n - Z.of_nat c <=? Z.of_nat k)%Z eqn:Hle.
    + exists true. split; [done|]. intros _. apply Z.leb_le in Hle. lia.
    + apply Z.leb_gt in Hle. destruct Hx as [-> | ?]; [|lia]. by exists false.
Qed.

(** The step at which the loop is left, or after it was left. *)
Lemma escape_step_break (n : Z) (k : nat) (c : Z) (cp : list item) (x : item)
    (b : bool) :
  b = true ∨ (n - c ≤ Z.of_nat k)%Z →
  escape_body n (cp, c, b) (Z.of_nat k, x) = Ok (cp, c, true).
Proof.
  intros H. cbn [escape_body]. destruct b; [done|].
  destruct H as [?|H]; [done|]. by rewrite (proj2 (Z.leb_le _ _)).
Qed.

(** The step on a backslash with nothing behind it. *)
Lemma escape_step_last (n : Z) (k : nat) (cp : list item) :
  (Z.of_nat k < n)%Z → length cp = S k →
  escape_body n (cp, 0%Z, false) (Z.of_nat k, Str "\") = Raise IndexError.
Proof.
  intros Hk Hcp. cbn [escape_body].
  rewrite (proj2 (Z.leb_gt _ _)) by lia.
  change (eq_str (Str "\") "\") with true. cbv iota.
  rewrite getitem_out; [done|lia].
Qed.

#[local] Arguments escape_body : simpl never.

Lemma escape_loop (n : Z) (segs : list escape_segment) :
  ∀ (k : nat) (pre : list item) (c : nat) (b : bool),
    n = Z.of_nat (k + length (flat_map escape_raw segs)) →
    length pre + c = k →
    escape_wf segs →
    (b = true → (n ≤ Z.of_nat (k + c))%Z) →
    ∃ c' b',
      for_each (enum_from k (flat_map escape_raw segs))
        (pre ++ flat_map escape_raw segs, Z.of_nat c, b) (escape_body n)
      = Ok (pre ++ escape_cooked c segs, c', b').
Proof.
  induction segs as [|[x|ch] r IH]; intros k pre c b Hn Hpre Hwf Hb.
  - by exists (Z.of_nat c), b.
  - (* an item *)
    destruct Hwf as [Hx Hwf]. cbn [flat_map escape_raw app escape_cooked] in *.
    rewrite enum_from_cons. cbn [for_each].
    destruct (escape_step_other n k c (pre ++ x :: flat_map escape_raw r) x b
                Hb (or_introl Hx)) as (b1 & -> & Hb1).
    destruct (IH (S k) (pre ++ [x]) c b1) as (c' & b' & Hrun).
    { rewrite Hn. simpl. lia. }
    { rewrite length_app. simpl. lia. }
    { done. } { done. }
    rewrite <- !app_assoc in Hrun. simpl in Hrun. by exists c', b'.
  - (* a backslash and the character behind it *)
    destruct Hwf as [Hch Hwf].
    cbn [flat_map escape_raw escape_cooked] in *.
    set (rest := flat_map escape_raw r) in *.
    assert (Hlen : n = Z.of_nat (k + 2 + length rest)).
    { rewrite Hn, length_app. simpl. lia. }
    destruct (decide (b = true ∨ (n - Z.of_nat c ≤ Z.of_nat k)%Z)) as [Hbr|Hgo].
    { (* the loop is left here, or was left before *)
      cbn [app]. rewrite enum_from_cons. cbn [for_each].
      rewrite escape_step_break by done. rewrite escape_broken.
      rewrite bool_decide_eq_false_2.
      - by exists (Z.of_nat c), true.
      - destruct Hbr as [Hbt|Hle]; [specialize (Hb Hbt)|]; lia. }
    assert (b = false) as -> by (destruct b; [destruct Hgo; by left|done]).
    assert (Hle : (Z.of_nat k < n - Z.of_nat c)%Z).
    { apply Z.nle_gt. intros ?. apply Hgo. by right. }
    rewrite bool_decide_eq_true_2 by lia.
    change ([Str "\"; Str ch] ++ rest) with (Str "\" :: Str ch :: rest) at 1.
    rewrite !enum_from_cons. cbn [for_each].
    rewrite escape_step_pair by done.
    destruct (escape_step_other n (S k) (S c)
                (pre ++ [Op (Single (Str ch))] ++ rest) (Str ch) false)
      as (b1 & -> & Hb1); [done| |].
    { destruct Hch as [Hch| ->].
      - left. simpl. by rewrite bool_decide_eq_false_2.
      - right. subst rest. simpl in Hlen. lia. }
    destruct (IH (S (S k)) (pre ++ [Op (Single (Str ch))]) (S c) b1)
      as (c' & b' & Hrun).
    { rewrite Hlen. lia. }
    { rewrite length_app. simpl. lia. }
    { done. } { intros ?. specialize (Hb1 H). lia. }
    rewrite <- !app_assoc in Hrun. by exists c', b'.
Qed.

(** The loop of [_escape_characters] on a well-formed group. *)
Lemma escape_resolved (segs : list escape_segment) :
  escape_wf segs →
  _escape_characters (flat_map escape_raw segs) = Ok (escape_cooked 0 segs).
Proof.
  intros Hwf. rewrite escape_characters_body.
  destruct (escape_loop (Py.len (flat_map escape_raw segs)) segs 0 [] 0 false)
    as (c' & b' & Hrun); [done|done|done|done|].
  rewrite enumerate_enum_from. simpl in Hrun.
  change (Z.of_nat 0) with 0%Z in Hrun. by rewrite Hrun.
Qed.

(** X11.  [_escape_characters] on a group in which no backslash is
    escaped by a backslash (except, possibly, at the very end).  The pass
    never raises on such a group, and it resolves the escapes from left to
    right: a backslash and the character [ch] behind it become the one node
    [Single(ch)], as long as the number of escapes resolved before is at
    most one more than the number of items behind the pair.  From the
    first pair for which this fails, the rest of the group is returned as
    it stands, backslashes included. *)
Theorem escape_characters_resolves (segs : list escape_segment) :
  escape_wf segs →
  _escape_characters (flat_map escape_raw segs) = Ok (escape_cooked 0 segs).
Proof. apply escape_resolved. Qed.

(** X12.  A backslash that ends the group, with no backslash before
    it, has nothing to escape: the pass raises [IndexError]. *)
Theorem escape_trailing_backslash (group : list item) :
  Forall (fun x => eq_str x "\" = false) group →
  _escape_characters (group ++ [Str "\"]) = Raise IndexError.
Proof.
  intros Hg. rewrite escape_characters_body, enumerate_enum_from.
  rewrite enum_from_app, for_each_app.
  rewrite (escape_plain _ group 0 _ 0 Hg).
  2:{ unfold Py.len. rewrite length_app. simpl. lia. }
  cbn [enum_from imap for_each]. rewrite Nat.add_0_r.
  rewrite escape_step_last; [done| |].
  - unfold Py.len. rewrite length_app. simpl. lia.
  - rewrite length_app. simpl. lia.
Qed.

End EscapeFacts.
Module EscapeWitness.
Import Operators RegularExpressions PassNotions Segments EscapeFacts.
Local Open Scope string_scope.

Lemma three_escapes_wf : escape_wf [EPair "a"; EPair "b"; EPair "c"].
Proof. simpl. split_and!; (left; done) || done. Qed.

Lemma escape_characters_resolves_witness :
  _escape_characters
    [Str "\"; Str "a"; Str "\"; Str "b"; Str "\"; Str "c"]
  = Ok [Op (Single (Str "a")); Op (Single (Str "b")); Str "\"; Str "c"].
Proof.
  exact (escape_characters_resolves [EPair "a"; EPair "b"; EPair "c"]
           three_escapes_wf).
Defined.

Lemma no_backslash_in_a : Forall (fun x => eq_str x "\" = false) [Str "a"].
Proof. by repeat constructor. Qed.

Lemma escape_trailing_backslash_witness :
  _escape_characters ([Str "a"] ++ [Str "\"]) = Raise IndexError.
Proof. exact (escape_trailing_backslash [Str "a"] no_backslash_in_a). Defined.

End EscapeWitness.
Module CollateFacts.
Import Operators RegularExpressions PassNotions Segments LoopFacts SliceFacts.
Local Open Scope string_scope.
Local Open Scope list_scope.

Lemma collate_loop_body (group : list item) :
  _collate group =
  ('(copied_groups, _, _, _) ←
     for_each (Py.enumerate group) (group, -1, -1, 0)%Z collate_body;
   Ok copied_groups).
Proof. done. Qed.

Lemma getslice_mid {A : Type} (pre mid post : list A) (lo hi : Z) :
  lo = Z.of_nat (length pre) → hi = Z.of_nat (length pre + length mid) →
  Py.getslice (pre ++ mid ++ post) lo hi = mid.
Proof.
  intros -> ->. unfold Py.getslice, Py.clamp, Py.len. cbv zeta.
  rewrite !length_app.
  rewrite (proj2 (Z.ltb_ge (Z.of_nat (length pre)) 0)) by lia.
  rewrite (proj2 (Z.ltb_ge (Z.of_nat (length pre + length mid)) 0)) by lia.
  rewrite !Z.min_l by lia.
  replace (Z.to_nat (Z.of_nat (length pre + length mid) - Z.of_nat (length pre)))
    with (length mid) by lia.
  rewrite Nat2Z.id, drop_app_length. by rewrite take_app_length.
Qed.

Lemma collate_step_item (cp : list item) (lp d c i : Z) (x : item) :
  eq_str x "]" = false →
  ∃ lp' d', collate_body (cp, lp, d, c) (i, x) = Ok (cp, lp', d', c).
Proof.
  intros Hx. cbn [collate_body].
  destruct (eq_str x "["); [by eexists _, _|].
  destruct (eq_str x "-"); [by eexists _, _|].
  rewrite Hx. by eexists _, _.
Qed.

Lemma collate_step_open (cp : list item) (lp d c i : Z) :
  collate_body (cp, lp, d, c) (i, Str "[") = Ok (cp, i, d, c).
Proof. done. Qed.

Lemma collate_step_dash (cp : list item) (lp d c i : Z) :
  collate_body (cp, lp, d, c) (i, Str "-") = Ok (cp, lp, i, c).
Proof. done. Qed.

Lemma collate_step_end (cp : list item) (lp d c i : Z) (ch : string) :
  ch ≠ "[" → ch ≠ "]" →
  ∃ d', collate_body (cp, lp, d, c) (i, Str ch) = Ok (cp, lp, d', c) ∧
        (d' = d ∨ d' = i).
Proof.
  intros H1 H2. cbn [collate_body eq_str].
  rewrite (bool_decide_eq_false_2 (ch = "[")) by done.
  destruct (bool_decide (ch = "-")); [exists i; auto|].
  rewrite (bool_decide_eq_false_2 (ch = "]")) by done. exists d; auto.
Qed.

Lemma collate_step_close (pre rest : list item) (lo hi : string)
    (k comp : nat) (d : Z) :
  length pre + comp = k → (0 ≤ d)%Z →
  collate_body
    (pre ++ [Str "["; Str lo; Str "-"; Str hi; Str "]"] ++ rest,
     Z.of_nat k, d, Z.of_nat comp)
    (Z.of_nat (k + 4), Str "]")
  = Ok (pre ++ [Op (Collation (Str lo) (Str hi))] ++ rest,
        Z.of_nat k, d, Z.of_nat (comp + 4)).
Proof.
  intros Hpre Hd. cbn [collate_body].
  change (eq_str (Str "]") "[") with false.
  change (eq_str (Str "]") "-") with false.
  change (eq_str (Str "]") "]") with true. cbv iota.
  rewrite (proj2 (Z.eqb_neq d (-1))) by lia. cbn [negb].
  unfold Py.getslice2.
  assert (Hslice :
    Py.getslice (pre ++ [Str "["; Str lo; Str "-"; Str hi; Str "]"] ++ rest)
      (Z.of_nat k + 1 - Z.of_nat comp) (Z.of_nat (k + 4) - Z.of_nat comp)
    = [Str lo; Str "-"; Str hi]).
  { replace (pre ++ [Str "["; Str lo; Str "-"; Str hi; Str "]"] ++ rest)
      with ((pre ++ [Str "["]) ++ [Str lo; Str "-"; Str hi] ++ Str "]" :: rest)
      by (by rewrite <- app_assoc).
    apply getslice_mid; rewrite length_app; simpl; lia. }
  rewrite Hslice. cbn [Py.every_other call_Collation].
  change (new_Collation (Str lo) (Str hi))
    with (Ok (Collation (Str lo) (Str hi))).
  unfold mbind, result_bind. cbv beta iota.
  rewrite setslice_mid; [|lia|simpl; lia].
  do 3 f_equal. lia.
Qed.

#[local] Arguments collate_body : simpl never.

Lemma collate_loop (segs : list collate_segment) :
  ∀ (k : nat) (pre : list item) (comp : nat) (lp d : Z),
    length pre + comp = k →
    Forall collate_ok segs →
    ∃ lp' d' comp',
      for_each (enum_from k (flat_map collate_raw segs))
        (pre ++ flat_map collate_raw segs, lp, d, Z.of_nat comp) collate_body
      = Ok (pre ++ (collate_cooked <$> segs), lp', d', comp').
Proof.
  induction segs as [|[x|lo hi] r IH]; intros k pre comp lp d Hpre Hok.
  - by eexists _, _, _.
  - apply Forall_cons in Hok as [Hx Hok].
    cbn [flat_map collate_raw app fmap list_fmap collate_cooked] in *.
    rewrite enum_from_cons. cbn [for_each].
    destruct (collate_step_item (pre ++ x :: flat_map collate_raw r)
                lp d (Z.of_nat comp) (Z.of_nat k) x Hx) as (lp1 & d1 & ->).
    destruct (IH (S k) (pre ++ [x]) comp lp1 d1) as (lp' & d' & comp' & Hrun).
    { rewrite length_app. simpl. lia. } { done. }
    rewrite <- !app_assoc in Hrun. simpl in Hrun. by exists lp', d', comp'.
  - apply Forall_cons in Hok as [(Hlo1 & Hlo2 & Hhi1 & Hhi2) Hok].
    cbn [flat_map collate_raw fmap list_fmap collate_cooked] in *.
    set (rest := flat_map collate_raw r) in *.
    set (cp := pre ++ [Str "["; Str lo; Str "-"; Str hi; Str "]"] ++ rest).
    change ([Str "["; Str lo; Str "-"; Str hi; Str "]"] ++ rest)
      with (Str "[" :: Str lo :: Str "-" :: Str hi :: Str "]" :: rest).
    rewrite !enum_from_cons. cbn [for_each].
    rewrite collate_step_open.
    destruct (collate_step_end cp (Z.of_nat k) d (Z.of_nat comp)
                (Z.of_nat (S k)) lo Hlo1 Hlo2) as (d1 & -> & _).
    rewrite collate_step_dash.
    destruct (collate_step_end cp (Z.of_nat k) (Z.of_nat (S (S k)))
                (Z.of_nat comp) (Z.of_nat (S (S (S k)))) hi Hhi1 Hhi2)
      as (d2 & -> & Hd2).
    replace (S (S (S (S k)))) with (k + 4) by lia.
    subst cp. rewrite (collate_step_close pre rest lo hi k comp d2 Hpre).
    2:{ destruct Hd2 as [-> | ->]; lia. }
    destruct (IH (S (k + 4)) (pre ++ [Op (Collation (Str lo) (Str hi))])
                (comp + 4) (Z.of_nat k) d2) as (lp' & d' & comp' & Hrun).
    { rewrite length_app. simpl. lia. } { done. }
    rewrite <- !app_assoc in Hrun. by exists lp', d', comp'.
Qed.

(** The loop of [_collate] on well-formed brackets. *)
Lemma collate_bracketed (segs : list collate_segment) :
  Forall collate_ok segs →
  _collate (flat_map collate_raw segs) = Ok (collate_cooked <$> segs).
Proof.
  intros Hok. rewrite collate_loop_body, enumerate_enum_from.
  destruct (collate_loop segs 0 [] 0 (-1)%Z (-1)%Z eq_refl Hok)
    as (lp' & d' & comp' & Hrun).
  simpl in Hrun. change (Z.of_nat 0) with 0%Z in Hrun. by rewrite Hrun.
Qed.

(** X13.  [_collate] on a group made of items that are no closing
    bracket and of well-formed brackets [[lo-hi]], in any number and any
    order: every bracket becomes the one node [Collation(lo, hi)], every
    other item stays where it is, and nothing is raised.  The ends of a
    range may be any strings other than the two bracket characters. *)
Theorem collate_brackets (segs : list collate_segment) :
  Forall collate_ok segs →
  _collate (flat_map collate_raw segs) = Ok (collate_cooked <$> segs).
Proof. apply collate_bracketed. Qed.



End CollateFacts.
Module UnaryFacts.
Import Operators RegularExpressions PassNotions Segments LoopFacts SliceFacts.
Local Open Scope string_scope.
Local Open Scope list_scope.

Section unary.
Variable process : list item → result item.

Lemma unary_loop_body (group : list item) :
  _to_unary_operators process group =
  ('(copied_groups, _) ←
     for_each (Py.enumerate group) (group, 0%Z) (unary_body process);
   Ok copied_groups).
Proof. done. Qed.

Lemma unary_step_operand (cp : list item) (c i : Z) (x : item) :
  operand unary_operators x →
  unary_body process (cp, c) (i, x) = Ok (cp, c).
Proof. destruct x as [s|l|o]; simpl; [|done|done]. by intros ->. Qed.

Lemma postfix_new (p : postfix) (acc : item) :
  (∀ l, acc ≠ Lst l) →
  ∃ cls, unary_operators (postfix_char p) = Some cls ∧
         cls acc = Ok (postfix_node p acc).
Proof.
  intros Hacc. destruct p; (eexists; split; [reflexivity|]);
    (destruct acc as [s|l|o]; [done|by destruct (Hacc l)|done]).
Qed.

Lemma unary_step_postfix (pre rest : list item) (acc : item) (p : postfix)
    (i comp : nat) :
  length pre + comp + 1 = i → (∀ l, acc ≠ Lst l) →
  unary_body process
    (pre ++ [acc; Str (postfix_char p)] ++ rest, Z.of_nat comp)
    (Z.of_nat i, Str (postfix_char p))
  = Ok (pre ++ [Op (postfix_node p acc)] ++ rest, Z.of_nat (S comp)).
Proof.
  intros Hi Hacc. cbn [unary_body].
  destruct (postfix_new p acc Hacc) as (cls & -> & Hcls).
  change (pre ++ [acc; Str (postfix_char p)] ++ rest)
    with (pre ++ acc :: Str (postfix_char p) :: rest).
  rewrite (getitem_mid pre acc) by lia.
  unfold mbind, result_bind. cbv beta iota. rewrite Hcls.
  change (pre ++ acc :: Str (postfix_char p) :: rest)
    with (pre ++ [acc; Str (postfix_char p)] ++ rest).
  rewrite setslice_mid; [|lia|simpl; lia].
  do 2 f_equal. lia.
Qed.

#[local] Arguments unary_body : simpl never.

Lemma unary_ops_loop (ops : list postfix) :
  ∀ (i comp : nat) (pre rest : list item) (acc : item),
    length pre + comp + 1 = i → (∀ l, acc ≠ Lst l) →
    for_each (enum_from i (Str ∘ postfix_char <$> ops))
      (pre ++ acc :: (Str ∘ postfix_char <$> ops) ++ rest, Z.of_nat comp)
      (unary_body process)
    = Ok (pre ++ foldl (fun acc p => Op (postfix_node p acc)) acc ops :: rest,
          Z.of_nat (comp + length ops)).
Proof.
  induction ops as [|p ops IH]; intros i comp pre rest acc Hi Hacc.
  - simpl. by rewrite Nat.add_0_r.
  - cbn [fmap list_fmap foldl]. rewrite enum_from_cons. cbn [for_each].
    change (pre ++ acc :: ((Str ∘ postfix_char) p :: (Str ∘ postfix_char <$> ops))
              ++ rest)
      with (pre ++ [acc; Str (postfix_char p)]
              ++ ((Str ∘ postfix_char <$> ops) ++ rest)).
    change ((Str ∘ postfix_char) p) with (Str (postfix_char p)).
    rewrite unary_step_postfix by done.
    cbn [app]. rewrite IH; [|lia|done].
    do 3 f_equal. simpl. lia.
Qed.

Lemma unary_loop (segs : list (item * list postfix)) :
  ∀ (k comp : nat) (pre : list item),
    length pre + comp = k →
    Forall (fun s => operand unary_operators s.1) segs →
    ∃ comp',
      for_each (enum_from k (flat_map unary_raw segs))
        (pre ++ flat_map unary_raw segs, Z.of_nat comp) (unary_body process)
      = Ok (pre ++ (unary_cooked <$> segs), comp').
Proof.
  induction segs as [|[x ops] r IH]; intros k comp pre Hk Hok.
  - by eexists.
  - apply Forall_cons in Hok as [Hx Hok]. simpl in Hx.
    cbn [flat_map fmap list_fmap]. unfold unary_raw at 1 3, unary_cooked at 1.
    cbn [fst snd]. set (rest := flat_map unary_raw r).
    cbn [app]. rewrite enum_from_cons, enum_from_app. cbn [for_each].
    rewrite unary_step_operand by done.
    rewrite for_each_app.
    rewrite (unary_ops_loop ops (S k) comp pre rest x); [|lia|].
    2:{ intros l ->. done. }
    destruct (IH (S k + length (Str ∘ postfix_char <$> ops))
                 (comp + length ops)
                 (pre ++ [foldl (fun acc p => Op (postfix_node p acc)) x ops]))
      as (comp' & Hrun).
    { rewrite length_app, length_fmap. simpl. lia. } { done. }
    rewrite <- !app_assoc in Hrun. by exists comp'.
Qed.

(** The loop of [_to_unary_operators] on operands with postfix
    characters. *)
Lemma unary_chains (segs : list (item * list postfix)) :
  Forall (fun s => operand unary_operators s.1) segs →
  _to_unary_operators process (flat_map unary_raw segs)
  = Ok (unary_cooked <$> segs).
Proof.
  intros Hok. rewrite unary_loop_body, enumerate_enum_from.
  destruct (unary_loop segs 0 0 [] eq_refl Hok) as (comp' & Hrun).
  simpl in Hrun. change (Z.of_nat 0) with 0%Z in Hrun. by rewrite Hrun.
Qed.

(** X15.  [_to_unary_operators] on a group made of operands (operator
    nodes, and characters other than [+], [?], [*]), each followed by any
    number of the postfix characters [+], [?], [*]: every operand absorbs
    its postfix characters from left to right, the first one applied
    innermost, so that [x*+] becomes [KleenePlus(KleeneStar(x))]; an
    operand without postfix characters stays as it is; nothing is
    raised. *)
Theorem unary_postfix_chains (segs : list (item * list postfix)) :
  Forall (fun s => operand unary_operators s.1) segs →
  _to_unary_operators process (flat_map unary_raw segs)
  = Ok (unary_cooked <$> segs).
Proof. apply unary_chains. Qed.

End unary.
End UnaryFacts.
Module ConcatFacts.
Import Operators RegularExpressions PassNotions Segments LoopFacts SliceFacts.
Local Open Scope string_scope.
Local Open Scope list_scope.
Local Open Scope nat_scope.

Section concat.
Variable process : list item → result item.

Lemma concat_loop_body (group : list item) :
  _concatenate process group =
  ('(copied_groups, _) ←
     for_each (Py.enumerate group) (group, 0%Z) (concat_body process group);
   Ok copied_groups).
Proof. done. Qed.

Lemma alternate_loop_body (group : list item) :
  _alternate process group =
  ('(copied_groups, _) ←
     for_each (Py.enumerate group) (group, 0%Z) (alternate_body process);
   Ok copied_groups).
Proof. done. Qed.

Lemma operand_in_dict (x : item) :
  operand binary_operators x → in_dict binary_operators x = Ok false.
Proof.
  destruct x as [s|l|o]; simpl; [|done|done]. by intros ->.
Qed.

Lemma operand_not_list {V : Type} (keys : string → option V) (x : item) :
  operand keys x → ∀ l, x ≠ Lst l.
Proof. by destruct x. Qed.

Lemma new_Concatenation_ok (x y : item) :
  (∀ l, x ≠ Lst l) → (∀ l, y ≠ Lst l) →
  new_Concatenation x y = Ok (Concatenation x y).
Proof.
  intros Hx Hy. destruct x as [s|l|o]; [|by destruct (Hx l)|];
    (destruct y as [s'|l'|o']; [done|by destruct (Hy l')|done]).
Qed.

Lemma new_Alternation_ok (x y : item) :
  (∀ l, x ≠ Lst l) → (∀ l, y ≠ Lst l) →
  new_Alternation x y = Ok (Alternation x y).
Proof.
  intros Hx Hy. destruct x as [s|l|o]; [|by destruct (Hx l)|];
    (destruct y as [s'|l'|o']; [done|by destruct (Hy l')|done]).
Qed.

(** The item behind index [i] of the group, as the loop reads it. *)
Lemma next_char_some (group : list item) (i : nat) (y : item) :
  group !! S i = Some y →
  (if (Py.len group <=? Z.of_nat i + 1)%Z then Ok (Str EmptyString)
   else Py.getitem group (Z.of_nat i + 1)%Z) = Ok y.
Proof.
  intros Hy. pose proof (lookup_lt_Some _ _ _ Hy) as Hlt.
  unfold Py.len. rewrite (proj2 (Z.leb_gt _ _)) by lia.
  replace (Z.of_nat i + 1)%Z with (Z.of_nat (S i)) by lia.
  by apply getitem_nat.
Qed.

Lemma next_char_none (group : list item) (i : nat) :
  length group ≤ S i →
  (if (Py.len group <=? Z.of_nat i + 1)%Z then Ok (Str EmptyString)
   else Py.getitem group (Z.of_nat i + 1)%Z) = Ok (Str EmptyString).
Proof.
  intros Hle. unfold Py.len. by rewrite (proj2 (Z.leb_le _ _)) by lia.
Qed.

Lemma next_char_ok (group : list item) (i : nat) :
  ∃ y, (if (Py.len group <=? Z.of_nat i + 1)%Z then Ok (Str EmptyString)
        else Py.getitem group (Z.of_nat i + 1)%Z) = Ok y.
Proof.
  destruct (group !! S i) as [y|] eqn:Hy.
  - exists y. by apply next_char_some.
  - eexists. apply next_char_none. by apply lookup_ge_None.
Qed.

(** An operand followed by an operand is joined with it. *)
Lemma concat_step_join (group pre rest : list item) (acc x y : item)
    (i comp : nat) :
  length pre + comp = i → group !! S i = Some y →
  operand binary_operators x → operand binary_operators y →
  (∀ l, acc ≠ Lst l) →
  concat_body process group (pre ++ [acc; y] ++ rest, Z.of_nat comp)
    (Z.of_nat i, x)
  = Ok (pre ++ [Op (Concatenation acc y)] ++ rest, Z.of_nat (S comp)).
Proof.
  intros Hi Hy Hx Hoy Hacc. unfold concat_body.
  rewrite (next_char_some group i y Hy).
  unfold mbind at 1, result_bind at 1. cbv beta iota.
  assert (Hbody :
    (item_is_binary ← in_dict binary_operators x;
     next_is_binary ← (if (item_is_binary : bool) then Ok true
                        else in_dict binary_operators y);
     if negb item_is_binary && negb next_is_binary then
       left ← Py.getitem (pre ++ [acc; y] ++ rest) (Z.of_nat i - Z.of_nat comp)%Z;
       right ← Py.getitem (pre ++ [acc; y] ++ rest)
                 (Z.of_nat i + 1 - Z.of_nat comp)%Z;
       node ← new_Concatenation left right;
       Ok (Py.setslice (pre ++ [acc; y] ++ rest) (Z.of_nat i - Z.of_nat comp)%Z
             (Z.of_nat i + 2 - Z.of_nat comp)%Z [Op node],
           (Z.of_nat comp + 1)%Z)
     else Ok (pre ++ [acc; y] ++ rest, Z.of_nat comp))
    = Ok (pre ++ [Op (Concatenation acc y)] ++ rest, Z.of_nat (S comp))).
  { rewrite (operand_in_dict x Hx). unfold mbind at 1, result_bind at 1.
    cbv beta iota. rewrite (operand_in_dict y Hoy).
    unfold mbind at 1, result_bind at 1. cbv beta iota. cbn [negb andb].
    change (pre ++ [acc; y] ++ rest) with (pre ++ acc :: y :: rest).
    rewrite (getitem_mid pre acc (y :: rest) (Z.of_nat i - Z.of_nat comp)%Z)
      by lia.
    rewrite (getitem_second pre acc y rest) by lia.
    unfold mbind, result_bind. cbv beta iota.
    rewrite new_Concatenation_ok; [|done|by eapply operand_not_list].
    change (pre ++ acc :: y :: rest) with (pre ++ [acc; y] ++ rest).
    rewrite setslice_mid; [|lia|simpl; lia]. do 2 f_equal. lia. }
  destruct x as [s|l|o]; [exact Hbody|done|exact Hbody].
Qed.

(** An operand before a bar, or at the end of the group, stays. *)
Lemma concat_step_keep (group cp : list item) (x : item) (i : nat) (c : Z) :
  operand binary_operators x →
  length group ≤ S i ∨ group !! S i = Some (Str "|") →
  concat_body process group (cp, c) (Z.of_nat i, x) = Ok (cp, c).
Proof.
  intros Hx Hnext. unfold concat_body.
  assert (Hn : ∃ s, binary_operators s ≠ None ∧
    (if (Py.len group <=? Z.of_nat i + 1)%Z then Ok (Str EmptyString)
     else Py.getitem group (Z.of_nat i + 1)%Z) = Ok (Str s)).
  { destruct Hnext as [Hle|Hbar].
    - exists EmptyString. split; [done|]. by apply next_char_none.
    - exists "|". split; [done|]. by apply next_char_some. }
  destruct Hn as (s & Hs & ->).
  unfold mbind at 1, result_bind at 1. cbv beta iota.
  assert (Hbody : ∀ K : result (list item * Z),
    (item_is_binary ← in_dict binary_operators x;
     next_is_binary ← (if (item_is_binary : bool) then Ok true
                        else in_dict binary_operators (Str s));
     if negb item_is_binary && negb next_is_binary then K else Ok (cp, c))
    = Ok (cp, c)).
  { intros K. rewrite (operand_in_dict x Hx).
    unfold mbind at 1, result_bind at 1. cbv beta iota. simpl.
    rewrite bool_decide_eq_true_2; [done|].
    destruct (binary_operators s); [by eexists|done]. }
  destruct x as [s'|l|o]; [apply Hbody|done|apply Hbody].
Qed.

(** A bar stays. *)
Lemma concat_step_bar (group cp : list item) (i : nat) (c : Z) :
  concat_body process group (cp, c) (Z.of_nat i, Str "|") = Ok (cp, c).
Proof.
  unfold concat_body. destruct (next_char_ok group i) as [y ->]. done.
Qed.

#[local] Arguments concat_body : simpl never.

Lemma concat_run_loop (group : list item) (xs : list item) :
  ∀ (i comp : nat) (pre : list item) (acc x : item) (tail : list item),
    length pre + comp = i →
    drop i group = x :: xs ++ tail →
    operand binary_operators x → Forall (operand binary_operators) xs →
    (∀ l, acc ≠ Lst l) →
    tail = [] ∨ (∃ t, tail = Str "|" :: t) →
    for_each (enum_from i (x :: xs)) (pre ++ acc :: xs ++ tail, Z.of_nat comp)
      (concat_body process group)
    = Ok (pre ++ foldl (fun acc y => Op (Concatenation acc y)) acc xs :: tail,
          Z.of_nat (comp + length xs)).
Proof.
  induction xs as [|y xs IH];
    intros i comp pre acc x tail Hi Hdrop Hx Hxs Hacc Htail.
  - rewrite enum_from_cons. cbn [for_each enum_from imap app foldl].
    rewrite concat_step_keep; [by rewrite Nat.add_0_r|done|].
    destruct Htail as [-> | [t ->]].
    + left. apply (f_equal length) in Hdrop. rewrite length_drop in Hdrop.
      simpl in Hdrop. lia.
    + right. rewrite <- (Nat.add_1_r i), <- lookup_drop, Hdrop. done.
  - apply Forall_cons in Hxs as [Hy Hxs].
    rewrite enum_from_cons. cbn [for_each foldl].
    change (pre ++ acc :: (y :: xs) ++ tail)
      with (pre ++ [acc; y] ++ (xs ++ tail)).
    rewrite (concat_step_join group pre (xs ++ tail) acc x y i comp);
      [|done| |done|done|done].
    2:{ rewrite <- (Nat.add_1_r i), <- lookup_drop, Hdrop. done. }
    cbn [app].
    rewrite (IH (S i) (S comp) pre (Op (Concatenation acc y)) y tail);
      [|lia| |done|done|done|done].
    + do 2 f_equal. simpl. lia.
    + replace (S i) with (i + 1) by lia. rewrite <- drop_drop, Hdrop. done.
Qed.

Lemma bars_raw_cons (x : item) (xs : list item) (rs : list (item * list item)) :
  bars_raw ((x, xs) :: rs) = Str "|" :: (x :: xs) ++ bars_raw rs.
Proof. done. Qed.

Lemma bars_cooked_cons (x : item) (xs : list item)
    (rs : list (item * list item)) :
  bars_cooked ((x, xs) :: rs)
  = Str "|" :: foldl (fun acc y => Op (Concatenation acc y)) x xs
      :: bars_cooked rs.
Proof. done. Qed.

Lemma concat_bars_loop (group : list item) (rs : list (item * list item)) :
  ∀ (k comp : nat) (pre : list item),
    length pre + comp = k →
    drop k group = bars_raw rs →
    Forall run_ok rs →
    ∃ comp',
      for_each (enum_from k (bars_raw rs)) (pre ++ bars_raw rs, Z.of_nat comp)
        (concat_body process group)
      = Ok (pre ++ bars_cooked rs, comp').
Proof.
  induction rs as [|[x xs] rs IH]; intros k comp pre Hk Hdrop Hok.
  - by eexists.
  - apply Forall_cons in Hok as [[Hx Hxs] Hok]. simpl in Hx, Hxs.
    rewrite bars_raw_cons in Hdrop. rewrite bars_raw_cons, bars_cooked_cons.
    set (tail := bars_raw rs) in *.
    rewrite enum_from_cons. cbn [for_each]. rewrite concat_step_bar.
    rewrite enum_from_app, for_each_app.
    change (pre ++ Str "|" :: (x :: xs) ++ tail)
      with (pre ++ [Str "|"] ++ x :: xs ++ tail).
    rewrite app_assoc.
    rewrite (concat_run_loop group xs (S k) comp (pre ++ [Str "|"]) x x tail);
      [| | |done|done| |].
    2:{ rewrite length_app. simpl. lia. }
    2:{ replace (S k) with (k + 1) by lia. rewrite <- drop_drop, Hdrop. done. }
    2:{ by eapply operand_not_list. }
    2:{ subst tail. destruct rs as [|[x' xs'] rs']; [by left|right].
        by eexists. }
    destruct (IH (S k + length (x :: xs)) (comp + length xs)
                (pre ++ [Str "|";
                         foldl (fun acc y => Op (Concatenation acc y)) x xs]))
      as (comp' & Hrun).
    { rewrite length_app. simpl. lia. }
    { replace (S k + length (x :: xs)) with (k + length (Str "|" :: x :: xs))
        by (simpl; lia).
      rewrite <- drop_drop, Hdrop.
      change (Str "|" :: (x :: xs) ++ tail) with ((Str "|" :: x :: xs) ++ tail).
      by rewrite drop_app_length. }
    { done. }
    fold tail in Hrun. exists comp'.
    rewrite <- !app_assoc in Hrun. rewrite <- !app_assoc. exact Hrun.
Qed.

(** The loop of [_concatenate] on runs of operands. *)
Lemma concatenate_run_items (r : item * list item) (rs : list (item * list item)) :
  run_ok r → Forall run_ok rs →
  _concatenate process (run_raw r ++ bars_raw rs)
  = Ok (concat_run r :: bars_cooked rs).
Proof.
  intros [Hx Hxs] Hok. destruct r as [x xs]. simpl in Hx, Hxs.
  unfold run_raw, concat_run. cbn [fst snd].
  rewrite concat_loop_body, enumerate_enum_from.
  rewrite enum_from_app, for_each_app.
  pose proof (concat_run_loop ((x :: xs) ++ bars_raw rs) xs 0 0 [] x x
                (bars_raw rs) eq_refl eq_refl Hx Hxs
                (operand_not_list _ x Hx)) as H1.
  change (0 + length xs) with (length xs) in H1.
  destruct (concat_bars_loop ((x :: xs) ++ bars_raw rs) rs
              (length (x :: xs)) (length xs)
              [foldl (fun acc y => Op (Concatenation acc y)) x xs])
    as (comp' & H2).
  { simpl. lia. }
  { by rewrite drop_app_length. }
  { done. }
  change (0 + length (x :: xs)) with (length (x :: xs)).
  change (Z.of_nat 0) with 0%Z in H1.
  cbn [app] in *. rewrite H1.
  - by rewrite H2.
  - destruct rs as [|[x' xs'] rs']; [by left|right]. by eexists.
Qed.

(** X16.  [_concatenate] on a group made of runs of operands (operator
    nodes, and characters other than the bar), the runs separated by single
    bars: every run becomes one item, the concatenation of its operands
    nested to the left, so that [abc] becomes
    [Concatenation(Concatenation(a, b), c)]; a run of one operand stays as
    it is; the bars stay; nothing is raised. *)
Theorem concatenate_runs (r : item * list item) (rs : list (item * list item)) :
  run_ok r → Forall run_ok rs →
  _concatenate process (run_raw r ++ bars_raw rs)
  = Ok (concat_run r :: bars_cooked rs).
Proof. apply concatenate_run_items. Qed.

Lemma alternate_step_operand (cp : list item) (c i : Z) (x : item) :
  operand binary_operators x →
  alternate_body process (cp, c) (i, x) = Ok (cp, c).
Proof. destruct x as [s|l|o]; simpl; [|done|done]. by intros ->. Qed.

Lemma alternate_step_bar (acc y : item) (rest : list item) (i comp : nat) :
  i = comp + 1 → (∀ l, acc ≠ Lst l) → (∀ l, y ≠ Lst l) →
  alternate_body process (acc :: Str "|" :: y :: rest, Z.of_nat comp)
    (Z.of_nat i, Str "|")
  = Ok (Op (Alternation acc y) :: rest, Z.of_nat (comp + 2)).
Proof.
  intros -> Hacc Hy. cbn [alternate_body].
  change (binary_operators "|") with (Some new_Alternation). cbv iota.
  replace (Z.of_nat (comp + 1) - 1 - Z.of_nat comp)%Z with 0%Z by lia.
  replace (Z.of_nat (comp + 1) + 1 - Z.of_nat comp)%Z with 2%Z by lia.
  replace (Z.of_nat (comp + 1) + 2 - Z.of_nat comp)%Z with 3%Z by lia.
  change (Py.getitem (acc :: Str "|" :: y :: rest) 0) with (Ok acc).
  change (Py.getitem (acc :: Str "|" :: y :: rest) 2) with (Ok y).
  unfold mbind, result_bind. cbv beta iota.
  rewrite new_Alternation_ok by done.
  pose proof (setslice_mid [] [acc; Str "|"; y] rest
                [Op (Alternation acc y)] 0 3 eq_refl eq_refl) as Hs.
  cbn [app] in Hs. rewrite Hs. do 2 f_equal. lia.
Qed.

(** A bar whose right operand is missing. *)
Lemma alternate_step_last (acc : item) (i comp : nat) :
  i = comp + 1 →
  alternate_body process ([acc; Str "|"], Z.of_nat comp) (Z.of_nat i, Str "|")
  = Raise IndexError.
Proof.
  intros ->. cbn [alternate_body].
  change (binary_operators "|") with (Some new_Alternation). cbv iota.
  replace (Z.of_nat (comp + 1) - 1 - Z.of_nat comp)%Z with 0%Z by lia.
  replace (Z.of_nat (comp + 1) + 1 - Z.of_nat comp)%Z with 2%Z by lia.
  done.
Qed.

Lemma length_flat_map_bars (xs : list item) :
  length (flat_map (fun y => [Str "|"; y]) xs) = 2 * length xs.
Proof. induction xs as [|y xs IH]; [done|]. simpl. rewrite IH. lia. Qed.

#[local] Arguments alternate_body : simpl never.

Lemma alternate_loop (xs tail : list item) :
  ∀ (i comp : nat) (acc : item),
    i = comp + 1 → (∀ l, acc ≠ Lst l) →
    Forall (operand binary_operators) xs →
    for_each (enum_from i (flat_map (fun y => [Str "|"; y]) xs))
      (acc :: flat_map (fun y => [Str "|"; y]) xs ++ tail, Z.of_nat comp)
      (alternate_body process)
    = Ok (alternate_chain acc xs :: tail, Z.of_nat (comp + 2 * length xs)).
Proof.
  induction xs as [|y xs IH]; intros i comp acc Hi Hacc Hxs.
  - simpl. by rewrite Nat.add_0_r.
  - apply Forall_cons in Hxs as [Hy Hxs].
    cbn [flat_map app]. rewrite !enum_from_cons. cbn [for_each].
    rewrite alternate_step_bar; [|done|done|by eapply operand_not_list].
    rewrite alternate_step_operand by done.
    rewrite (IH (S (S i)) (comp + 2) (Op (Alternation acc y)));
      [|lia|done|done].
    unfold alternate_chain. simpl. do 3 f_equal. lia.
Qed.

(** The loop of [_alternate] on operands separated by bars. *)
Lemma alternate_chain_items (x : item) (xs : list item) :
  operand binary_operators x → Forall (operand binary_operators) xs →
  _alternate process (x :: flat_map (fun y => [Str "|"; y]) xs)
  = Ok [alternate_chain x xs].
Proof.
  intros Hx Hxs. rewrite alternate_loop_body, enumerate_enum_from.
  rewrite enum_from_cons. cbn [for_each].
  rewrite alternate_step_operand by done.
  change 0%Z with (Z.of_nat 0).
  pose proof (alternate_loop xs [] 1 0 x eq_refl (operand_not_list _ x Hx) Hxs)
    as Hloop.
  rewrite app_nil_r in Hloop. by rewrite Hloop.
Qed.

(** X17.  [_alternate] on a group made of operands (operator nodes,
    and characters other than the bar) with one bar between any two of
    them: the whole group becomes one item, the alternation of the operands
    nested to the left, so that [a|b|c] becomes
    [Alternation(Alternation(a, b), c)]; a group of one operand stays as it
    is; nothing is raised. *)
Theorem alternate_chains (x : item) (xs : list item) :
  operand binary_operators x → Forall (operand binary_operators) xs →
  _alternate process (x :: flat_map (fun y => [Str "|"; y]) xs)
  = Ok [alternate_chain x xs].
Proof. apply alternate_chain_items. Qed.

End concat.
End ConcatFacts.
Module PipelineFacts.
Import Operators RegularExpressions PassNotions Segments.
Import LoopFacts SliceFacts PassFacts EscapeFacts CollateFacts UnaryFacts ConcatFacts.
Local Open Scope string_scope.
Local Open Scope list_scope.
Local Open Scope nat_scope.

Lemma escape_items (l : list item) :
  Forall (fun x => eq_str x "\" = false) l →
  _escape_characters l = Ok l.
Proof.
  intros Hl.
  assert (Hraw : flat_map escape_raw (EItem <$> l) = l).
  { clear Hl. induction l as [|x l IH]; [done|]. simpl. f_equal. exact IH. }
  assert (Hcooked : escape_cooked 0 (EItem <$> l) = l).
  { clear Hl Hraw. induction l as [|x l IH]; [done|]. simpl. f_equal. exact IH. }
  transitivity (_escape_characters (flat_map escape_raw (EItem <$> l)));
    [by rewrite Hraw|].
  rewrite escape_resolved; [by rewrite Hcooked|].
  clear Hraw Hcooked. induction Hl as [|x l Hx _ IH]; [done|]. by split.
Qed.

Lemma collate_items (l : list item) :
  Forall (fun x => eq_str x "]" = false) l →
  _collate l = Ok l.
Proof.
  intros Hl.
  assert (Hraw : flat_map collate_raw (CItem <$> l) = l).
  { clear Hl. induction l as [|x l IH]; [done|]. simpl. f_equal. exact IH. }
  assert (Hcooked : collate_cooked <$> (CItem <$> l) = l).
  { clear Hl Hraw. induction l as [|x l IH]; [done|]. simpl. f_equal. exact IH. }
  transitivity (_collate (flat_map collate_raw (CItem <$> l)));
    [by rewrite Hraw|].
  rewrite collate_bracketed; [by rewrite Hcooked|].
  clear Hraw Hcooked. induction Hl as [|x l Hx _ IH]; by constructor.
Qed.

Lemma sublists_items (process : list item → result item) (l : list item) :
  Forall (fun x => ∀ l', x ≠ Lst l') l →
  _process_sublists process l = Ok l.
Proof.
  intros Hl. rewrite process_sublists_map.
  induction Hl as [|x l Hx _ IH]; [done|]. simpl. rewrite IH.
  destruct x as [s|l'|o]; [done|by destruct (Hx l')|done].
Qed.

Lemma bind_of_Ok {A B : Type} (x : A) (f : A → result B) : (Ok x ≫= f) = f x.
Proof. done. Qed.

Lemma process_unfold (fuel : nat) (group : list item) :
  _process (S fuel) group =
  (group ← _escape_characters group;
   group ← _collate group;
   group ← _process_sublists (_process fuel) group;
   group ← _to_unary_operators (_process fuel) group;
   group ← _concatenate (_process fuel) group;
   group ← _alternate (_process fuel) group;
   group ← _clean group;
   if (1 <? Py.len group)%Z then Raise (ValueError "Parsing failed.")
   else Py.getitem group 0).
Proof. done. Qed.

(** The item of an atom: its character, or a node. *)
Lemma atom_tree_cases (a : atom) :
  atom_tree a = Str a.1 ∨ ∃ o, atom_tree a = Op o.
Proof.
  destruct a as [c ops]. unfold atom_tree, unary_cooked. simpl.
  induction ops as [|p ops IH] using rev_ind; [by left|].
  right. rewrite foldl_app. simpl. by eexists.
Qed.

Lemma atom_tree_operand (a : atom) :
  plain_char a.1 → operand binary_operators (atom_tree a).
Proof.
  intros (_ & _ & _ & Hb).
  destruct (atom_tree_cases a) as [-> | [o ->]]; [exact Hb|done].
Qed.

Lemma concat_run_cases (x : item) (xs : list item) :
  concat_run (x, xs) = x ∨ ∃ o, concat_run (x, xs) = Op o.
Proof.
  unfold concat_run. simpl.
  induction xs as [|y xs IH] using rev_ind; [by left|].
  right. rewrite foldl_app. simpl. by eexists.
Qed.

Lemma atoms_run_ok (r : atoms) : atoms_ok r → run_ok (atoms_run r).
Proof.
  intros Hr. apply Forall_cons in Hr as [H1 H2]. split; simpl.
  - by apply atom_tree_operand.
  - apply Forall_fmap. eapply Forall_impl; [exact H2|].
    intros a Ha. by apply atom_tree_operand.
Qed.

Lemma atoms_tree_operand (r : atoms) :
  atoms_ok r → operand binary_operators (atoms_tree r).
Proof.
  intros Hr. unfold atoms_tree.
  destruct (concat_run_cases (atom_tree r.1) (atom_tree <$> r.2))
    as [-> | [o ->]]; [|done].
  apply Forall_cons in Hr as [H1 _]. by apply atom_tree_operand.
Qed.

Lemma atoms_raw_segments (r : atoms) :
  flat_map unary_raw (atom_segment <$> (r.1 :: r.2)) = atoms_raw r.
Proof.
  unfold atoms_raw. generalize (r.1 :: r.2). intros l.
  induction l as [|a l IH]; [done|]. simpl. f_equal. f_equal. exact IH.
Qed.

Lemma atoms_cooked_segments (r : atoms) :
  unary_cooked <$> (atom_segment <$> (r.1 :: r.2)) = run_raw (atoms_run r).
Proof.
  unfold run_raw, atoms_run. simpl. f_equal.
  generalize (r.2). intros l.
  induction l as [|a l IH]; [done|]. simpl. f_equal. exact IH.
Qed.

Lemma pattern_raw_segments (r : atoms) (rs : list atoms) :
  flat_map unary_raw (pattern_segments r rs) = pattern_raw r rs.
Proof.
  unfold pattern_segments, pattern_raw.
  rewrite flat_map_app, atoms_raw_segments. f_equal.
  induction rs as [|r' rs IH]; [done|].
  cbn [flat_map]. rewrite flat_map_app. cbn [flat_map].
  rewrite <- app_comm_cons. rewrite atoms_raw_segments, IH. done.
Qed.

Lemma pattern_cooked_segments (r : atoms) (rs : list atoms) :
  unary_cooked <$> pattern_segments r rs
  = run_raw (atoms_run r) ++ bars_raw (atoms_run <$> rs).
Proof.
  unfold pattern_segments.
  rewrite fmap_app, atoms_cooked_segments. f_equal.
  induction rs as [|r' rs IH]; [done|].
  cbn [flat_map]. rewrite fmap_app, fmap_cons, atoms_cooked_segments, IH.
  done.
Qed.

Lemma postfix_char_facts (p : postfix) :
  postfix_char p ≠ "\" ∧ postfix_char p ≠ "]".
Proof. by destruct p. Qed.

Lemma atoms_raw_items (r : atoms) :
  atoms_ok r →
  Forall (fun x => ∃ c, x = Str c ∧ c ≠ "\" ∧ c ≠ "]") (atoms_raw r).
Proof.
  unfold atoms_ok, atoms_raw. generalize (r.1 :: r.2). intros l Hl.
  induction Hl as [|[c ops] l (H1 & H2 & _) _ IH]; [constructor|].
  cbn [flat_map]. apply Forall_app. split; [|exact IH].
  unfold atom_raw, unary_raw. simpl. constructor; [by exists c|].
  apply Forall_fmap, Forall_forall. intros p _. simpl.
  exists (postfix_char p). split; [done|]. apply postfix_char_facts.
Qed.

Lemma pattern_raw_items (r : atoms) (rs : list atoms) :
  atoms_ok r → Forall atoms_ok rs →
  Forall (fun x => ∃ c, x = Str c ∧ c ≠ "\" ∧ c ≠ "]") (pattern_raw r rs).
Proof.
  intros Hr Hrs. unfold pattern_raw. apply Forall_app. split.
  { by apply atoms_raw_items. }
  induction Hrs as [|r' rs Hr' _ IH]; [constructor|].
  cbn [flat_map]. constructor; [by exists "|"|].
  apply Forall_app. split; [by apply atoms_raw_items|exact IH].
Qed.

Lemma pattern_segments_ok (r : atoms) (rs : list atoms) :
  atoms_ok r → Forall atoms_ok rs →
  Forall (fun s => operand unary_operators s.1) (pattern_segments r rs).
Proof.
  assert (Hatoms : ∀ r', atoms_ok r' →
    Forall (fun s : item * list postfix => operand unary_operators s.1)
      (atom_segment <$> (r'.1 :: r'.2))).
  { intros r' Hr'. apply Forall_fmap. eapply Forall_impl; [exact Hr'|].
    intros a (_ & _ & Hu & _). exact Hu. }
  intros Hr Hrs. unfold pattern_segments. apply Forall_app. split.
  { by apply Hatoms. }
  induction Hrs as [|r' rs Hr' _ IH]; [constructor|].
  cbn [flat_map]. constructor; [done|].
  apply Forall_app. split; [by apply Hatoms|exact IH].
Qed.

Lemma bars_cooked_runs (rs : list atoms) :
  bars_cooked (atoms_run <$> rs)
  = flat_map (fun y => [Str "|"; y]) (atoms_tree <$> rs).
Proof.
  induction rs as [|r rs IH]; [done|].
  rewrite !fmap_cons. cbn [flat_map]. rewrite <- IH. done.
Qed.

(** X18.  Precedence.  A flat pattern consists of atoms (a plain
    character followed by any number of the postfix characters [+], [?],
    [*]), put in non-empty runs, the runs separated by single bars; a
    plain character is any character other than the backslash, the closing
    bracket, the three postfix characters and the bar.  For every such
    pattern [_process] returns, with any fuel, the one tree in which the
    postfix operators bind tightest (applied to their atom, the first one
    innermost), concatenation comes next (each run nested to the left),
    and alternation binds weakest (the runs nested to the left); a pattern
    of one character is parsed to the [Single] node over it. *)
Theorem flat_pattern_parses (fuel : nat) (r : atoms) (rs : list atoms) :
  atoms_ok r → Forall atoms_ok rs →
  _process (S fuel) (pattern_raw r rs) = Ok (pattern_tree r rs).
Proof.
  intros Hr Hrs. rewrite process_unfold.
  pose proof (pattern_raw_items r rs Hr Hrs) as Hitems.
  rewrite escape_items, bind_of_Ok.
  2:{ eapply Forall_impl; [exact Hitems|]. intros x (c & -> & Hc & _).
      simpl. by apply bool_decide_eq_false_2. }
  rewrite collate_items, bind_of_Ok.
  2:{ eapply Forall_impl; [exact Hitems|]. intros x (c & -> & _ & Hc).
      simpl. by apply bool_decide_eq_false_2. }
  rewrite sublists_items, bind_of_Ok.
  2:{ eapply Forall_impl; [exact Hitems|]. by intros x (c & -> & _) l. }
  rewrite <- pattern_raw_segments.
  rewrite unary_chains, bind_of_Ok by by apply pattern_segments_ok.
  rewrite pattern_cooked_segments.
  rewrite concatenate_run_items, bind_of_Ok.
  2:{ by apply atoms_run_ok. }
  2:{ apply Forall_fmap. eapply Forall_impl; [exact Hrs|].
      intros r'. apply atoms_run_ok. }
  rewrite bars_cooked_runs.
  change (concat_run (atoms_run r)) with (atoms_tree r).
  rewrite alternate_chain_items, bind_of_Ok.
  2:{ by apply atoms_tree_operand. }
  2:{ apply Forall_fmap. eapply Forall_impl; [exact Hrs|].
      intros r'. apply atoms_tree_operand. }
  rewrite clean_map, bind_of_Ok. done.
Qed.

End PipelineFacts.
Module NodeFacts.
Import Operators RegularExpressions PassNotions Segments.
Import LoopFacts SliceFacts PassFacts EscapeFacts CollateFacts UnaryFacts
  ConcatFacts PipelineFacts ParserFacts.
Local Open Scope string_scope.
Local Open Scope list_scope.
Local Open Scope nat_scope.

Lemma for_each_invariant_elem {A St : Type} (P : St → Prop) (xs : list A)
    (st : St) (body : St → A → result St) :
  P st →
  (∀ st x st', x ∈ xs → P st → body st x = Ok st' → P st') →
  ∀ st', for_each xs st body = Ok st' → P st'.
Proof.
  intros Hst Hstep. revert st Hst.
  induction xs as [|x xs IH]; intros st Hst st' Hrun; simpl in Hrun.
  - by simplify_eq.
  - destruct (body st x) as [st1|e] eqn:Hb; [|done].
    eapply IH; [| |exact Hrun].
    + intros st0 y st0' Hy. apply Hstep. by right.
    + eapply Hstep; [left|exact Hst|exact Hb].
Qed.

Lemma setslice_Forall {A : Type} (P : A → Prop) (l new : list A) (lo hi : Z) :
  Forall P l → Forall P new → Forall P (Py.setslice l lo hi new).
Proof.
  intros Hl Hn. unfold Py.setslice. cbv zeta.
  apply Forall_app. split; [by apply Forall_take|].
  apply Forall_app. split; [done|by apply Forall_drop].
Qed.

Section passes_nodes.
Variable process : list item → result item.

Lemma unary_no_lists (g g' : list item) :
  no_lists g → _to_unary_operators process g = Ok g' → no_lists g'.
Proof.
  intros Hg H. rewrite unary_loop_body in H.
  apply bind_ok in H as ([cp c] & Hloop & H). simplify_eq.
  apply (for_each_invariant_elem (fun st : list item * Z => no_lists st.1)
           (Py.enumerate g) (g, 0%Z) _ Hg) in Hloop; [done|].
  intros [cp0 c0] [i x] [cp1 c1] Hx%enumerate_elem Hcp Hbody. simpl in *.
  destruct x as [s|l|o].
  - destruct (unary_operators s) as [cls|]; [|by simplify_eq].
    apply bind_ok in Hbody as (operand & _ & Hbody).
    apply bind_ok in Hbody as (node & _ & Hbody). simplify_eq.
    apply setslice_Forall; [done|]. by repeat constructor.
  - unfold no_lists in Hg. rewrite Forall_forall in Hg.
    by destruct (Hg _ Hx l).
  - by simplify_eq.
Qed.

Lemma concatenate_no_lists (g g' : list item) :
  no_lists g → _concatenate process g = Ok g' → no_lists g'.
Proof.
  intros Hg H. rewrite concat_loop_body in H.
  apply bind_ok in H as ([cp c] & Hloop & H). simplify_eq.
  apply (for_each_invariant_elem (fun st : list item * Z => no_lists st.1)
           (Py.enumerate g) (g, 0%Z) _ Hg) in Hloop; [done|].
  intros [cp0 c0] [i x] [cp1 c1] Hx%enumerate_elem Hcp Hbody. simpl in *.
  apply bind_ok in Hbody as (next_char & _ & Hbody).
  assert (Hrest :
    (item_is_binary ← in_dict binary_operators x;
     next_is_binary ← (if (item_is_binary : bool) then Ok true
                        else in_dict binary_operators next_char);
     if negb item_is_binary && negb next_is_binary then
       left ← Py.getitem cp0 (i - c0)%Z;
       right ← Py.getitem cp0 (i + 1 - c0)%Z;
       node ← new_Concatenation left right;
       Ok (Py.setslice cp0 (i - c0)%Z (i + 2 - c0)%Z [Op node], (c0 + 1)%Z)
     else Ok (cp0, c0)) = Ok (cp1, c1) → no_lists cp1).
  { intros H. apply bind_ok in H as (b1 & _ & H).
    apply bind_ok in H as (b2 & _ & H).
    destruct (negb b1 && negb b2); [|by simplify_eq].
    apply bind_ok in H as (left & _ & H).
    apply bind_ok in H as (right & _ & H).
    apply bind_ok in H as (node & _ & H). simplify_eq.
    apply setslice_Forall; [done|]. by repeat constructor. }
  destruct x as [s|l|o]; [by apply Hrest| |by apply Hrest].
  unfold no_lists in Hg. rewrite Forall_forall in Hg.
  by destruct (Hg _ Hx l).
Qed.

Lemma alternate_no_lists (g g' : list item) :
  no_lists g → _alternate process g = Ok g' → no_lists g'.
Proof.
  intros Hg H. rewrite alternate_loop_body in H.
  apply bind_ok in H as ([cp c] & Hloop & H). simplify_eq.
  apply (for_each_invariant_elem (fun st : list item * Z => no_lists st.1)
           (Py.enumerate g) (g, 0%Z) _ Hg) in Hloop; [done|].
  intros [cp0 c0] [i x] [cp1 c1] Hx%enumerate_elem Hcp Hbody. simpl in *.
  destruct x as [s|l|o].
  - destruct (binary_operators s) as [cls|]; [|by simplify_eq].
    apply bind_ok in Hbody as (left & _ & Hbody).
    apply bind_ok in Hbody as (right & _ & Hbody).
    apply bind_ok in Hbody as (node & _ & Hbody). simplify_eq.
    apply setslice_Forall; [done|]. by repeat constructor.
  - unfold no_lists in Hg. rewrite Forall_forall in Hg.
    by destruct (Hg _ Hx l).
  - by simplify_eq.
Qed.

Lemma sublists_no_lists (g g' : list item) :
  (∀ l x, process l = Ok x → ∃ o, x = Op o) →
  _process_sublists process g = Ok g' → no_lists g'.
Proof.
  intros Hp. rewrite process_sublists_map. revert g'.
  induction g as [|x g IH]; intros g' H; simpl in H.
  - simplify_eq. constructor.
  - apply bind_ok in H as (y & Hy & H). apply bind_ok in H as (ys & Hys & H).
    simplify_eq. constructor; [|by apply IH].
    destruct x as [s|l|o]; simpl in Hy; simplify_eq; [done| |done].
    destruct (Hp _ _ Hy) as [o ->]. done.
Qed.

End passes_nodes.

(** X19.  Whatever [_process] returns is an operator node: never a
    loose [str], never a list.  So the call of [execute] on the result in
    [RegEx.__init__] always finds the method: compiling a text never ends
    in an [AttributeError]. *)
Theorem process_returns_node (fuel : nat) (group : list item) (x : item) :
  _process fuel group = Ok x → ∃ o, x = Op o.
Proof.
  revert group x. induction fuel as [|fuel IH]; intros group x H; [done|].
  rewrite process_unfold in H.
  apply bind_ok in H as (g1 & _ & H). apply bind_ok in H as (g2 & _ & H).
  apply bind_ok in H as (g3 & H3 & H). apply bind_ok in H as (g4 & H4 & H).
  apply bind_ok in H as (g5 & H5 & H). apply bind_ok in H as (g6 & H6 & H).
  apply bind_ok in H as (g7 & H7 & H).
  apply sublists_no_lists in H3; [|exact IH].
  apply unary_no_lists in H4; [|done].
  apply concatenate_no_lists in H5; [|done].
  apply alternate_no_lists in H6; [|done].
  rewrite clean_map in H7. simplify_eq.
  destruct (1 <? _)%Z; [done|].
  pose proof (returns_getitem (wrap_single <$> g6) 0) as Hget.
  rewrite H in Hget. simpl in Hget.
  apply list_elem_of_fmap in Hget as (y & -> & Hy).
  unfold no_lists in H6. rewrite Forall_forall in H6. specialize (H6 y Hy).
  destruct y as [s|l|o]; [by eexists|by destruct (H6 l)|by eexists].
Qed.

End NodeFacts.
Module BracketFacts.
Import Operators RegularExpressions Nesting PassNotions Brackets.
Import TextFacts LoopFacts SliceFacts CollateFacts ParserFacts.
Local Open Scope string_scope.
Local Open Scope list_scope.
Local Open Scope nat_scope.

Lemma extract_unfold (fuel : nat) (text : string) :
  _extract_bracket (S fuel) text =
  (st ← for_each (Py.enumerate (Py.chars text)) (mkExtract 0 (-1) (-1) [])
          (extract_body (_extract_bracket fuel) text);
   if negb (par_count st =? 0)%Z
   then Raise (ValueError "Unbalanced parentheses.")
   else Ok (ex_result st)).
Proof. done. Qed.

(** *** The count of parentheses *)

Section count.
Variable rec : string → result (list item).
Variable text : string.

Lemma close_count (st st' : extract_state) :
  extract_close rec text st = Ok st' → par_count st' = par_count st.
Proof.
  unfold extract_close. destruct (_ && _); [|by intros [= <-]].
  intros H. apply bind_ok in H as (sub & _ & H). by simplify_eq.
Qed.

Lemma close_error (st : extract_state) (e : exn) :
  extract_close rec text st = Raise e → ∃ t, rec t = Raise e.
Proof.
  unfold extract_close. destruct (_ && _); [|done].
  destruct (rec _) as [sub|e'] eqn:Hr; [done|]. intros [= <-]. by eexists.
Qed.

Lemma body_count (st st' : extract_state) (ic : Z * string) :
  extract_body rec text st ic = Ok st' →
  par_count st' = paren_step text (par_count st) ic.
Proof.
  destruct ic as [i char]. unfold extract_body, paren_step. simpl.
  destruct (bool_decide (char = "(")).
  { destruct (escaped_at text i); [by intros [= <-]|].
    intros H%close_count. by rewrite H. }
  destruct (bool_decide (char = ")")).
  { destruct (escaped_at text i); [by intros [= <-]|].
    intros H%close_count. by rewrite H. }
  intros H%close_count. rewrite H. by destruct (negb _).
Qed.

Lemma body_error (st : extract_state) (ic : Z * string) (e : exn) :
  extract_body rec text st ic = Raise e → ∃ t, rec t = Raise e.
Proof.
  destruct ic as [i char]. unfold extract_body.
  destruct (bool_decide (char = "(")).
  { destruct (escaped_at text i); [done|]. apply close_error. }
  destruct (bool_decide (char = ")")).
  { destruct (escaped_at text i); [done|]. apply close_error. }
  apply close_error.
Qed.

Lemma loop_count (l : list (Z * string)) (st : extract_state) :
  match for_each l st (extract_body rec text) with
  | Ok st' => par_count st' = foldl (paren_step text) (par_count st) l
  | Raise e => ∃ t, rec t = Raise e
  end.
Proof.
  revert st. induction l as [|ic l IH]; intros st; [done|].
  cbn [for_each foldl].
  destruct (extract_body rec text st ic) as [st1|e] eqn:Hb.
  - apply body_count in Hb. rewrite <- Hb. apply IH.
  - by eapply body_error.
Qed.

End count.

Lemma extract_bracket_facts (fuel : nat) (text : string) :
  match _extract_bracket fuel text with
  | Ok _ => paren_balance text = 0%Z
  | Raise e => e = ValueError "Unbalanced parentheses." ∨ e = FuelExhausted
  end.
Proof.
  revert text. induction fuel as [|fuel IH]; intros text; [by right|].
  rewrite extract_unfold.
  pose proof (loop_count (_extract_bracket fuel) text
                (Py.enumerate (Py.chars text)) (mkExtract 0 (-1) (-1) [])) as H.
  destruct (for_each _ _ _) as [st|e]; simpl.
  - simpl in H. fold (paren_balance text) in H. rewrite H.
    destruct (paren_balance text =? 0)%Z eqn:Hz; simpl; [|by left].
    by apply Z.eqb_eq.
  - destruct H as [t Ht]. specialize (IH t). by rewrite Ht in IH.
Qed.

(** X20.  [_extract_bracket] and the count of parentheses.  For every
    text, the only exception that [_extract_bracket] raises (called as
    [RegEx.__init__] calls it) is the [ValueError] that reports unbalanced
    parentheses; and it raises it whenever the numbers of unescaped opening
    and closing parentheses of the text differ, a parenthesis being escaped
    when the character before it is a backslash. *)
Theorem extract_bracket_outcome (text : string) :
  match _extract_bracket (parse_fuel text) text with
  | Ok _ => paren_balance text = 0%Z
  | Raise e => e = ValueError "Unbalanced parentheses."
  end.
Proof.
  pose proof (extract_bracket_facts (parse_fuel text) text) as H.
  pose proof (returns_extract_bracket (parse_fuel text) text) as Hr.
  destruct (_extract_bracket _ text) as [g|e]; [done|].
  destruct H as [-> | ->]; [done|].
  exfalso. apply Hr; [unfold parse_fuel; lia|done].
Qed.

(** *** Rendered groups are read back *)

Lemma render_cons (x : item) (g : list item) :
  render (x :: g) = (render_item x ++ render g)%string.
Proof. done. Qed.

Lemma render_Lst (l : list item) :
  render_item (Lst l) = ("(" ++ render l ++ ")")%string.
Proof. done. Qed.

Lemma grouped_cons (x : item) (g : list item) :
  grouped (x :: g) ↔ grouped_item x ∧ grouped g.
Proof. done. Qed.

Lemma grouped_Lst (l : list item) : grouped_item (Lst l) ↔ grouped l.
Proof. done. Qed.

(** Induction on groups of characters and nested groups. *)
Lemma grouped_induction (P : list item → Prop) :
  P [] →
  (∀ s g, grouped_item (Str s) → grouped g → P g → P (Str s :: g)) →
  (∀ l g, grouped l → grouped g → P l → P g → P (Lst l :: g)) →
  ∀ g, grouped g → P g.
Proof.
  intros Hnil Hstr Hlst.
  assert (H : ∀ n g, group_depth g ≤ n → grouped g → P g).
  { induction n as [|n IHn]; intros g0; induction g0 as [|x g IHg];
      intros Hd Hg; try done.
    - rewrite group_depth_cons in Hd. apply grouped_cons in Hg as [Hx Hg].
      destruct x as [s|l|o]; [|rewrite item_depth_Lst in Hd; lia|done].
      apply Hstr; [done|done|]. apply IHg; [lia|done].
    - rewrite group_depth_cons in Hd. apply grouped_cons in Hg as [Hx Hg].
      destruct x as [s|l|o]; [| |done].
      + apply Hstr; [done|done|]. apply IHg; [lia|done].
      + rewrite item_depth_Lst in Hd. apply Hlst; [done|done| |].
        * apply IHn; [lia|done].
        * apply IHg; [lia|done]. }
  intros g. by apply (H (group_depth g)).
Qed.

Lemma render_no_backslash (g : list item) :
  grouped g → Forall (fun c => c ≠ "\") (Py.chars (render g)).
Proof.
  revert g. apply (grouped_induction
    (fun g => Forall (fun c => c ≠ "\") (Py.chars (render g)))).
  - constructor.
  - intros s g (c & -> & _ & _ & Hc) _ IH. rewrite render_cons.
    simpl. by constructor.
  - intros l g _ _ IHl IHg. rewrite render_cons, render_Lst.
    rewrite !chars_append. repeat (apply Forall_app; split); try done.
    + by repeat constructor.
    + by repeat constructor.
Qed.

Lemma not_escaped (text : string) (i : Z) :
  Forall (fun c => c ≠ "\") (Py.chars text) → escaped_at text i = false.
Proof.
  intros Hall. unfold escaped_at. destruct (0 <? i)%Z; [|done]. simpl.
  pose proof (returns_getitem (Py.chars text) (i - 1)) as Hget.
  destruct (Py.getitem _ _) as [c|]; [|done]. simpl in Hget.
  rewrite Forall_forall in Hall. by apply bool_decide_eq_false_2, Hall.
Qed.

Lemma str_slice_mid (p m s : string) (lo hi : Z) :
  lo = Z.of_nat (String.length p) →
  hi = Z.of_nat (String.length p + String.length m) →
  Py.str_slice (p ++ m ++ s) lo hi = m.
Proof.
  intros -> ->. unfold Py.str_slice. rewrite !chars_append.
  rewrite getslice_mid; [apply join_chars| |]; by rewrite !chars_length.
Qed.

Section read_back.
Variable rec : string → result (list item).
Variable text : string.
Hypothesis text_plain : Forall (fun c => c ≠ "\") (Py.chars text).

(** A character other than the parentheses, inside a group. *)
Lemma body_inside_char (d L rp i : Z) (res : list item) (s : string) :
  s ≠ "(" → s ≠ ")" → (1 ≤ d)%Z → (0 ≤ L)%Z →
  extract_body rec text (mkExtract d L rp res) (i, s)
  = Ok (mkExtract d L rp res).
Proof.
  intros H1 H2 Hd HL. unfold extract_body.
  rewrite !bool_decide_eq_false_2 by done. simpl.
  rewrite (proj2 (Z.leb_le 0 L)) by done. simpl.
  unfold extract_close. simpl.
  by rewrite (proj2 (Z.eqb_neq d 0)) by lia.
Qed.

Lemma body_inside_open (d L rp i : Z) (res : list item) :
  (1 ≤ d)%Z → (0 ≤ L)%Z →
  extract_body rec text (mkExtract d L rp res) (i, "(")
  = Ok (mkExtract (d + 1) L rp res).
Proof.
  intros Hd HL. unfold extract_body. simpl.
  rewrite not_escaped by done.
  rewrite (proj2 (Z.eqb_neq L (-1))) by lia.
  unfold extract_close. simpl.
  by rewrite (proj2 (Z.eqb_neq (d + 1) 0)) by lia.
Qed.

Lemma body_inside_close (d L rp i : Z) (res : list item) :
  (1 ≤ d)%Z → (0 ≤ L)%Z →
  extract_body rec text (mkExtract (d + 1) L rp res) (i, ")")
  = Ok (mkExtract d L i res).
Proof.
  intros Hd HL. unfold extract_body. simpl.
  rewrite not_escaped by done.
  unfold extract_close. simpl.
  replace (d + 1 - 1)%Z with d by lia.
  by rewrite (proj2 (Z.eqb_neq d 0)) by lia.
Qed.

(** Inside a group nothing is appended and the count comes back to what
    it was. *)
Lemma loop_inside (g : list item) :
  grouped g →
  ∀ (j : nat) (d L rp : Z) (res : list item),
    (1 ≤ d)%Z → (0 ≤ L)%Z →
    ∃ rp',
      for_each (enum_from j (Py.chars (render g))) (mkExtract d L rp res)
        (extract_body rec text)
      = Ok (mkExtract d L rp' res).
Proof.
  revert g. apply (grouped_induction (fun g =>
    ∀ (j : nat) (d L rp : Z) (res : list item),
      (1 ≤ d)%Z → (0 ≤ L)%Z →
      ∃ rp',
        for_each (enum_from j (Py.chars (render g))) (mkExtract d L rp res)
          (extract_body rec text)
        = Ok (mkExtract d L rp' res))).
  - intros j d L rp res _ _. by exists rp.
  - intros s g (c & -> & H1 & H2 & _) _ IH j d L rp res Hd HL.
    rewrite render_cons. cbn [render_item]. rewrite append_cons, append_nil_l.
    cbn [Py.chars]. rewrite enum_from_cons. cbn [for_each].
    rewrite body_inside_char by done. by apply IH.
  - intros l g _ _ IHl IHg j d L rp res Hd HL.
    rewrite render_cons, render_Lst, !chars_append.
    change (Py.chars "(") with ["("]. change (Py.chars ")") with [")"].
    rewrite <- !app_assoc. cbn [app].
    rewrite enum_from_cons. cbn [for_each].
    rewrite body_inside_open by done.
    rewrite enum_from_app, for_each_app.
    destruct (IHl (S j) (d + 1)%Z L rp res) as [rp1 ->]; [lia|done|].
    rewrite enum_from_cons. cbn [for_each].
    rewrite body_inside_close by done. by apply IHg.
Qed.

(** A character other than the parentheses, outside the groups. *)
Lemma body_top_char (i : Z) (res : list item) (s : string) :
  s ≠ "(" → s ≠ ")" →
  extract_body rec text (mkExtract 0 (-1) (-1) res) (i, s)
  = Ok (mkExtract 0 (-1) (-1) (res ++ [Str s])).
Proof.
  intros H1 H2. unfold extract_body.
  by rewrite !bool_decide_eq_false_2 by done.
Qed.

Lemma body_top_open (i : nat) (res : list item) :
  extract_body rec text (mkExtract 0 (-1) (-1) res) (Z.of_nat i, "(")
  = Ok (mkExtract 1 (Z.of_nat i) (-1) res).
Proof.
  unfold extract_body. simpl. by rewrite not_escaped by done.
Qed.

Lemma body_top_close (i j : nat) (rp : Z) (res sub : list item) :
  rec (Py.str_slice text (Z.of_nat i + 1) (Z.of_nat j)) = Ok sub →
  extract_body rec text (mkExtract 1 (Z.of_nat i) rp res) (Z.of_nat j, ")")
  = Ok (mkExtract 0 (-1) (-1) (res ++ [Lst sub])).
Proof.
  intros Hrec. unfold extract_body. simpl.
  rewrite not_escaped by done. unfold extract_close. simpl.
  rewrite (proj2 (Z.leb_le 0 (Z.of_nat i))) by lia.
  rewrite (proj2 (Z.leb_le 0 (Z.of_nat j))) by lia. simpl.
  by rewrite Hrec.
Qed.

Lemma loop_top (g : list item) :
  ∀ (pfx : string) (res : list item),
    grouped g →
    (∀ l, Lst l ∈ g → rec (render l) = Ok l) →
    text = (pfx ++ render g)%string →
    for_each (enum_from (String.length pfx) (Py.chars (render g)))
      (mkExtract 0 (-1) (-1) res) (extract_body rec text)
    = Ok (mkExtract 0 (-1) (-1) (res ++ g)).
Proof.
  induction g as [|x g IH]; intros pfx res Hg Hrec Htext.
  - simpl. by rewrite app_nil_r.
  - apply grouped_cons in Hg as [Hx Hg]. rewrite render_cons in *.
    destruct x as [s|l|o]; [| |done].
    + destruct Hx as (c & -> & H1 & H2 & _).
      cbn [render_item] in *. rewrite append_cons, append_nil_l in *.
      cbn [Py.chars]. rewrite enum_from_cons. cbn [for_each].
      rewrite body_top_char by done.
      replace (S (String.length pfx))
        with (String.length (pfx ++ String c EmptyString))
        by (rewrite length_append; simpl; lia).
      rewrite (IH (pfx ++ String c EmptyString)%string).
      * by rewrite <- app_assoc.
      * done.
      * intros l' Hl'. apply Hrec. by right.
      * by rewrite append_assoc.
    + apply grouped_Lst in Hx. rewrite render_Lst in *.
      rewrite !chars_append.
      change (Py.chars "(") with ["("]. change (Py.chars ")") with [")"].
      rewrite <- !app_assoc. cbn [app].
      rewrite enum_from_cons. cbn [for_each]. rewrite body_top_open.
      rewrite enum_from_app, for_each_app.
      destruct (loop_inside l Hx (S (String.length pfx)) 1
                  (Z.of_nat (String.length pfx)) (-1) res) as [rp1 ->];
        [lia|lia|].
      rewrite enum_from_cons. cbn [for_each].
      rewrite (body_top_close _ _ _ _ l).
      2:{ rewrite Htext, !append_assoc. rewrite <- (append_assoc pfx "(").
          rewrite (str_slice_mid (pfx ++ "(") (render l)).
          - apply Hrec. left.
          - rewrite length_append. simpl. lia.
          - rewrite length_append, chars_length. simpl. lia. }
      replace (S (String.length pfx) + length (Py.chars (render l)))
        with (String.length pfx + String.length ("(" ++ render l))
        by (rewrite length_append, chars_length; simpl; lia).
      replace (S (String.length pfx + String.length ("(" ++ render l)))
        with (String.length (pfx ++ "(" ++ render l ++ ")"))
        by (rewrite !length_append; simpl; lia).
      rewrite (IH (pfx ++ "(" ++ render l ++ ")")%string).
      * by rewrite <- app_assoc.
      * done.
      * intros l' Hl'. apply Hrec. by right.
      * by rewrite Htext, !append_assoc.
Qed.

End read_back.

Lemma extract_rendered (fuel : nat) (g : list item) :
  grouped g → group_depth g < fuel →
  _extract_bracket fuel (render g) = Ok g.
Proof.
  revert g. induction fuel as [|fuel IH]; intros g Hg Hd; [lia|].
  rewrite extract_unfold, enumerate_enum_from.
  pose proof (loop_top (_extract_bracket fuel) (render g)
                (render_no_backslash g Hg) g EmptyString [] Hg) as Hloop.
  change (String.length EmptyString) with 0 in Hloop.
  rewrite Hloop; [done| |done].
  intros l Hl. apply IH.
  - apply list_elem_of_lookup in Hl as [i Hi].
    clear -Hg Hi. revert i Hi. induction g as [|x g IHg]; intros i Hi; [done|].
    apply grouped_cons in Hg as [Hx Hg]. destruct i as [|i].
    + simpl in Hi. simplify_eq. by apply grouped_Lst.
    + by eapply IHg.
  - apply item_depth_elem in Hl. rewrite item_depth_Lst in Hl. lia.
Qed.

(** The groups nest no deeper than their text is long. *)
Lemma rendered_depth (g : list item) :
  grouped g → group_depth g ≤ String.length (render g).
Proof.
  intros Hg.
  set (fuel := S (group_depth g `max` String.length (render g))).
  pose proof (returns_extract_bracket fuel (render g)) as Hr.
  rewrite (extract_rendered fuel g Hg) in Hr by (unfold fuel; lia).
  apply Hr. unfold fuel. lia.
Qed.

(** X21.  [_extract_bracket] reads back what was written with
    parentheses.  Take any group of single characters (other than the two
    parentheses and the backslash) and of nested groups of the same kind,
    nested to any depth, and write it as a text, every nested group between
    an opening and a closing parenthesis.  On that text [_extract_bracket]
    returns the group itself: the characters in order, and one nested list
    for every parenthesised part, with its contents read in the same way;
    an empty pair of parentheses gives an empty nested list.  Any fuel
    above the nesting depth suffices, and so does the fuel with which
    [RegEx.__init__] is modelled. *)
Theorem extract_bracket_reads_back (g : list item) :
  grouped g →
  (∀ fuel, group_depth g < fuel → _extract_bracket fuel (render g) = Ok g) ∧
  _extract_bracket (parse_fuel (render g)) (render g) = Ok g.
Proof.
  intros Hg. split.
  - intros fuel Hf. by apply extract_rendered.
  - apply extract_rendered; [done|].
    pose proof (rendered_depth g Hg). unfold parse_fuel. lia.
Qed.

End BracketFacts.
(** ** The stack automaton: ε-probes, failure, the driver *)

Module PDADriverFacts.
Import PDA PDADriver PDAFacts.

(** X23.  [_access_epsilon], the ε-probe of the second loop of the
    driver.  On an empty stack it reports no move and changes nothing.
    Otherwise it pops the stack top [t]; if the current state has the
    ε-input transition for [t], it takes it exactly as [_access] does on
    any input symbol (same new state, same stack) and reports a move; if
    there is none, it reports no move, but the machine has lost its stack
    top: the popped symbol is not pushed back. *)
Theorem access_epsilon_outcome (p : DeterministicPDA) :
  (stack p = [] → _access_epsilon p = (false, p)) ∧
  (∀ rest t, stack p = rest ++ [t] →
     (∀ q seq,
        table p !! (current p, empty_symbol p, t) = Some (q, seq) →
        _access_epsilon p = (true, fired p rest q seq) ∧
        ∀ v, _access p v = (false, fired p rest q seq)) ∧
     (table p !! (current p, empty_symbol p, t) = None →
      _access_epsilon p = (false, set_stack p rest) ∧
      stack (_access_epsilon p).2 = rest)).
Proof.
  split.
  - intros Hst. unfold _access_epsilon. by rewrite Hst.
  - intros rest t Hst. split.
    + intros q seq He. split.
      * unfold _access_epsilon. rewrite Hst, pop_snoc.
        unfold clean_forward. simpl. by rewrite He.
      * intros v. unfold _access. rewrite Hst, pop_snoc.
        unfold clean_forward. simpl. by rewrite He.
    + intros He.
      assert (H : _access_epsilon p = (false, set_stack p rest)).
      { unfold _access_epsilon. rewrite Hst, pop_snoc.
        unfold clean_forward. simpl. by rewrite He. }
      by rewrite H.
Qed.

Lemma pop_cases (s : list string) :
  s = [] ∨ ∃ rest t, s = rest ++ [t].
Proof.
  induction s as [|t rest _] using rev_ind; [by left|right]. by eexists _, _.
Qed.

(** In the failure state the probe fires no transition. *)
Lemma probe_in_failed_state (p : DeterministicPDA) :
  fresh_failed_state p → current p = failed_state p →
  ∃ s, _access_epsilon p = (false, set_stack p s).
Proof.
  intros [_ Hno] Hc. unfold _access_epsilon.
  destruct (pop (stack p)) as [[symbol rest]|].
  - unfold clean_forward. simpl. rewrite Hc, Hno. by eexists.
  - exists (stack p). by destruct p.
Qed.

(** X24.  Failure is final.  The failure state of a machine is the
    fresh state that the constructor creates: it has no transitions and is
    no accept state.  Once such a machine is in its failure state,
    [_process] on any entry, with any fuel of at least one round, returns
    without having left the failure state, and the machine does not
    accept; if input was left, the machine is marked as not having
    processed all of it. *)
Theorem failure_is_final (fuel : nat) (p : DeterministicPDA)
    (entry : list string) :
  fresh_failed_state p → current p = failed_state p →
  ∃ p', _process (S fuel) p entry = Ok p' ∧
        current p' = failed_state p' ∧
        accepted p' = false ∧
        (entry ≠ [] → processed_all p' = false).
Proof.
  intros Hfresh Hc. unfold _process. destruct entry as [|value entry].
  - cbn [read_entry]. cbn [mbind result_bind].
    assert (Hacc : accepted p = false).
    { unfold accepted. destruct (processed_all p); [|done].
      apply bool_decide_eq_false_2. rewrite Hc. apply Hfresh. }
    destruct (processed_all p) eqn:Hall.
    + cbn [run_epsilon]. rewrite Hacc.
      destruct (probe_in_failed_state p Hfresh Hc) as [s ->].
      exists (set_stack p s). split_and!; [done|done| |done].
      unfold accepted. simpl. rewrite Hall.
      apply bool_decide_eq_false_2. rewrite Hc. apply Hfresh.
    + exists p. split_and!; [done|done|done|done].
  - cbn [read_entry]. unfold process_round.
    rewrite bool_decide_eq_true_2 by done. cbn [mbind result_bind].
    exists (set_processed_all p false). by split_and!.
Qed.

(** A round on a machine without ε-input transitions consumes its
    symbol. *)
Lemma round_consumes (p : DeterministicPDA) (value : string)
    (entry : list string) :
  epsilon_free p →
  (∃ p', process_round p value entry = Break p') ∨
  (∃ p', process_round p value entry = Continue p' entry ∧
         table p' = table p ∧ empty_symbol p' = empty_symbol p).
Proof.
  intros Hfree. unfold process_round.
  destruct (bool_decide _); [left; by eexists|right].
  unfold _access. destruct (pop (stack p)) as [[symbol rest]|].
  - unfold clean_forward. simpl. rewrite Hfree.
    destruct (table p !! (current p, value, symbol)) as [[q seq]|];
      by eexists.
  - by eexists.
Qed.

Lemma read_entry_returns (entry : list string) :
  ∀ (fuel : nat) (p : DeterministicPDA),
    epsilon_free p → length entry ≤ fuel →
    ∃ p', read_entry fuel p entry = Ok p' ∧
          table p' = table p ∧ empty_symbol p' = empty_symbol p.
Proof.
  induction entry as [|value entry IH]; intros fuel p Hfree Hf.
  - exists p. by destruct fuel.
  - destruct fuel as [|fuel]; [simpl in Hf; lia|]. cbn [read_entry].
    destruct (round_consumes p value entry Hfree)
      as [[p' Hr]|(p' & Hr & Ht & He)]; rewrite Hr.
    + exists p'. split; [done|]. unfold process_round in Hr.
      destruct (bool_decide _); [by simplify_eq|].
      by destruct (_access p value) as [[] ?].
    + destruct (IH fuel p') as (p'' & Hp'' & Ht' & He').
      { intros q t. by rewrite Ht, He. } { simpl in Hf. lia. }
      exists p''. split; [done|]. by rewrite Ht', He'.
Qed.

(** X25.  Without ε-input transitions the driver terminates.  On a
    machine none of whose transitions reads the ε-symbol as its input,
    every round of the first loop consumes its symbol, and the probe of
    the second loop never moves: [_process] returns within as many rounds
    as the entry has symbols, plus one. *)
Theorem epsilon_free_terminates (p : DeterministicPDA) (entry : list string) :
  epsilon_free p →
  ∃ p', _process (S (length entry)) p entry = Ok p'.
Proof.
  intros Hfree. unfold _process.
  destruct (read_entry_returns entry (S (length entry)) p Hfree)
    as (p' & -> & Ht & He); [lia|].
  cbn [mbind result_bind]. destruct (processed_all p'); [|by eexists].
  cbn [run_epsilon]. destruct (accepted p'); [by eexists|].
  unfold _access_epsilon. destruct (pop (stack p')) as [[symbol rest]|].
  - unfold clean_forward. simpl. rewrite Ht, He, Hfree. by eexists.
  - by eexists.
Qed.

(** X26.  An ε-transition that restores the configuration makes the
    driver run forever.  When the current state (not the failure state)
    has, for the stack top [t], an ε-input transition that leads back to
    the same state and pushes [t] again, [_access] changes nothing and
    reports that the input symbol was not consumed, the driver puts the
    symbol back, and the first loop of [_process] never ends: on a
    non-empty entry no number of rounds suffices. *)
Theorem epsilon_loop_diverges (fuel : nat) (p : DeterministicPDA)
    (rest : list string) (t value : string) (entry : list string) :
  stack p = rest ++ [t] → t ≠ empty_symbol p →
  current p ≠ failed_state p →
  table p !! (current p, empty_symbol p, t) = Some (current p, [t]) →
  _access p value = (false, p) ∧
  _process fuel p (value :: entry) = Raise FuelExhausted.
Proof.
  intros Hst Ht Hc He.
  assert (Ha : _access p value = (false, p)).
  { unfold _access. rewrite Hst, pop_snoc. unfold clean_forward. simpl.
    rewrite He. f_equal. unfold exclude, push_all.
    rewrite filter_cons_True by done. rewrite filter_nil.
    rewrite <- Hst. by destruct p. }
  split; [done|]. unfold _process.
  assert (Hloop : read_entry fuel p (value :: entry) = Raise FuelExhausted).
  { induction fuel as [|fuel IH]; [done|]. cbn [read_entry].
    unfold process_round. rewrite bool_decide_eq_false_2 by done.
    rewrite Ha. exact IH. }
  by rewrite Hloop.
Qed.

End PDADriverFacts.
(** ** The lexer *)

Module LexerFacts.
Import Automata Invariants RegularExpressions PassNotions Lexers.
Import TextFacts LoopFacts SliceFacts CollateFacts PipelineFacts ParserFacts Main.
Local Open Scope string_scope.
Local Open Scope list_scope.
Local Open Scope nat_scope.

Lemma scan_unfold (fuel : nat) (regexes : list regex_object) (text : string) :
  scan (S fuel) regexes text =
  (st ← for_each (Py.enumerate (Py.chars text)) (Scanning (-1) None)
          (scan_body (scan fuel regexes) regexes text);
   match st with
   | Returned tokens => Ok tokens
   | Scanning start_index current_regex =>
       match current_regex with
       | Some current =>
           if negb (start_index =? -1)%Z
           then Ok [mkToken (_name current.2)
                      (Py.str_slice text start_index (Py.len (Py.chars text)))]
           else Ok []
       | None => Ok []
       end
   end).
Proof. done. Qed.

Lemma str_slice_length (text : string) (lo hi : nat) :
  lo ≤ hi → hi ≤ String.length text →
  String.length (Py.str_slice text (Z.of_nat lo) (Z.of_nat hi)) = hi - lo.
Proof.
  intros H1 H2. unfold Py.str_slice, Py.getslice.
  rewrite length_join by (apply Forall_take, Forall_drop, chars_single).
  rewrite length_take, length_drop. unfold Py.len, Py.clamp.
  rewrite chars_length.
  rewrite (proj2 (Z.ltb_ge (Z.of_nat lo) 0)) by lia.
  rewrite (proj2 (Z.ltb_ge (Z.of_nat hi) 0)) by lia. lia.
Qed.

Lemma str_slice_one (text : string) (i : nat) (char : string) :
  Py.chars text !! i = Some char →
  Py.str_slice text (Z.of_nat i) (Z.of_nat i + 1) = char.
Proof.
  intros Hi. unfold Py.str_slice.
  rewrite <- (take_drop_middle _ _ _ Hi).
  change (take i (Py.chars text) ++ char :: drop (S i) (Py.chars text))
    with (take i (Py.chars text) ++ [char] ++ drop (S i) (Py.chars text)).
  rewrite getslice_mid.
  - unfold Py.join. simpl. apply append_nil_r.
  - rewrite length_take. apply lookup_lt_Some in Hi. lia.
  - rewrite length_take. apply lookup_lt_Some in Hi. simpl. lia.
Qed.

Lemma chars_join (l : list string) :
  Forall (fun s => String.length s = 1) l → Py.chars (Py.join l) = l.
Proof.
  induction 1 as [|s l Hs _ IH]; [done|].
  destruct s as [|c [|c' s]]; try done.
  change (Py.join (String c EmptyString :: l)) with (String c (Py.join l)).
  simpl. by rewrite IH.
Qed.

Lemma getslice_nat {A : Type} (l : list A) (lo hi : nat) :
  lo ≤ hi → hi ≤ length l →
  Py.getslice l (Z.of_nat lo) (Z.of_nat hi) = take (hi - lo) (drop lo l).
Proof.
  intros H1 H2. unfold Py.getslice, Py.clamp, Py.len. cbv zeta.
  rewrite (proj2 (Z.ltb_ge (Z.of_nat lo) 0)) by lia.
  rewrite (proj2 (Z.ltb_ge (Z.of_nat hi) 0)) by lia.
  rewrite !Z.min_l by lia. rewrite Nat2Z.id. f_equal. lia.
Qed.

(** A prefix of a slice is a slice. *)
Lemma str_slice_prefix (text : string) (lo hi k : nat) :
  lo ≤ hi → hi ≤ String.length text → k ≤ hi - lo →
  Py.str_slice (Py.str_slice text (Z.of_nat lo) (Z.of_nat hi)) 0 (Z.of_nat k)
  = Py.str_slice text (Z.of_nat lo) (Z.of_nat (lo + k)).
Proof.
  intros H1 H2 H3. unfold Py.str_slice.
  rewrite chars_join by (apply Forall_take, Forall_drop, chars_single).
  rewrite <- chars_length in H2.
  rewrite (getslice_nat (Py.chars text) lo hi) by lia.
  rewrite (getslice_nat (Py.chars text) lo (lo + k)) by lia.
  change 0%Z with (Z.of_nat 0).
  rewrite getslice_nat; [|lia|rewrite length_take, length_drop; lia].
  rewrite drop_0, take_take. f_equal. f_equal. lia.
Qed.

Section lexer.
Variable regexes : list regex_object.
Hypothesis regexes_answer : ∀ regex, regex ∈ regexes → answers_all regex.2.

Lemma first_match_loop (l : list regex_object) (char : string)
    (found : option regex_object) :
  (∀ regex, regex ∈ l → regex ∈ regexes) →
  (∀ regex, found = Some regex →
     regex ∈ regexes ∧ check regex.2 char = Ok true) →
  ∃ found',
    for_each l found (fun found regex =>
      match found with
      | Some _ => Ok found
      | None =>
          result_ ← check regex.2 char;
          if (result_ : bool) then Ok (Some regex) else Ok None
      end) = Ok found' ∧
    ∀ regex, found' = Some regex →
      regex ∈ regexes ∧ check regex.2 char = Ok true.
Proof.
  revert found. induction l as [|rg l IH]; intros found Hl Hf.
  - by exists found.
  - cbn [for_each]. destruct found as [rg0|].
    + apply IH; [|done]. intros ? ?. apply Hl. by right.
    + assert (Hrg : rg ∈ regexes) by (apply Hl; left).
      destruct (regexes_answer rg Hrg char) as [Hc|Hc]; rewrite Hc; simpl.
      * apply IH; [intros ? ?; apply Hl; by right|].
        intros ? [= <-]. done.
      * apply IH; [intros ? ?; apply Hl; by right|done].
Qed.

Lemma first_match_spec (char : string) :
  ∃ found, first_match regexes char = Ok found ∧
    ∀ regex, found = Some regex →
      regex ∈ regexes ∧ check regex.2 char = Ok true.
Proof. apply first_match_loop; done. Qed.

Lemma extend_match_loop (l : list regex_object) (sub : string)
    (flag : bool) (cur cur0 : regex_object) :
  (∀ regex, regex ∈ l → regex ∈ regexes) →
  cur ∈ regexes → cur0 ∈ regexes →
  (flag = true → check cur.2 sub = Ok true) →
  (flag = false → cur = cur0) →
  ∃ flag' cur',
    for_each l (flag, Some cur)
      (fun '(continue_flag, current_regex) regex =>
         if (continue_flag : bool) then Ok (continue_flag, current_regex)
         else
           accepts ← check regex.2 sub;
           let differs :=
             match current_regex with
             | Some current => negb (bool_decide (regex.1 = current.1))
             | None => true
             end in
           if (accepts : bool) && differs then Ok (true, Some regex)
           else
             match current_regex with
             | None => Raise AttributeError
             | Some current =>
                 still ← check current.2 sub;
                 if (still : bool) then Ok (true, current_regex)
                 else Ok (false, current_regex)
             end) = Ok (flag', Some cur') ∧
    cur' ∈ regexes ∧
    (flag' = true → check cur'.2 sub = Ok true) ∧
    (flag' = false → cur' = cur0).
Proof.
  revert flag cur. induction l as [|rg l IH]; intros flag cur Hl Hc Hc0 Ht Hf.
  - by exists flag, cur.
  - cbn [for_each].
    assert (Hl' : ∀ regex, regex ∈ l → regex ∈ regexes)
      by (intros ? ?; apply Hl; by right).
    destruct flag; [by apply IH|].
    assert (Hrg : rg ∈ regexes) by (apply Hl; left).
    destruct (regexes_answer rg Hrg sub) as [Ha|Ha]; rewrite Ha; simpl.
    + destruct (bool_decide (rg.1 = cur.1)); simpl.
      * destruct (regexes_answer cur Hc sub) as [Hs|Hs]; rewrite Hs; simpl;
          by apply IH.
      * by apply IH.
    + destruct (regexes_answer cur Hc sub) as [Hs|Hs]; rewrite Hs; simpl;
        by apply IH.
Qed.

Lemma extend_match_spec (sub : string) (cur : regex_object) :
  cur ∈ regexes →
  ∃ flag cur',
    extend_match regexes (Some cur) sub = Ok (flag, Some cur') ∧
    cur' ∈ regexes ∧
    (flag = true → check cur'.2 sub = Ok true) ∧
    (flag = false → cur' = cur).
Proof. intros Hc. apply extend_match_loop; done. Qed.

Lemma scan_total (fuel : nat) :
  ∀ text, String.length text < fuel →
  ∃ tokens, scan fuel regexes text = Ok tokens ∧
            Forall (sound_token regexes) tokens.
Proof.
  induction fuel as [|fuel IH]; intros text Hf; [lia|].
  rewrite scan_unfold.
  pose proof (enumerate_loop (fun _ => False) (scan_invariant regexes text)
                (Py.chars text) (scan_body (scan fuel regexes) regexes text)
                (Scanning (-1) None)) as Hloop.
  assert (H0 : scan_invariant regexes text 0 (Scanning (-1) None)) by by left.
  assert (Hstep : ∀ i char st, Py.chars text !! i = Some char →
    scan_invariant regexes text i st →
    match scan_body (scan fuel regexes) regexes text st (Z.of_nat i, char) with
    | Ok st' => scan_invariant regexes text (S i) st'
    | Raise _ => False
    end).
  { intros i char st Hi Hinv.
    assert (Hlen : i < String.length text).
    { rewrite <- chars_length. by eapply lookup_lt_Some. }
    destruct st as [start cur|tokens]; [|done].
    cbn [scan_body]. destruct Hinv as [-> | (s & rg & -> & Hs & -> & Hrg & Hchk & Hpre)].
    - change (-1 =? -1)%Z with true. cbv iota.
      destruct (first_match_spec char) as (found & -> & Hfound).
      rewrite bind_of_Ok. destruct found as [rg|]; [|by left].
      destruct (Hfound rg eq_refl) as [Hrg Hchk].
      assert (Hone : check rg.2 (Py.str_slice text (Z.of_nat i)
                                   (Z.of_nat (S i))) = Ok true).
      { replace (Z.of_nat (S i)) with (Z.of_nat i + 1)%Z by lia.
        by rewrite (str_slice_one text i char Hi). }
      right. exists i, rg. split_and!; [done|lia|done|done|done|].
      intros j Hj. assert (j = S i) as -> by lia. by exists rg.
    - rewrite (proj2 (Z.eqb_neq (Z.of_nat s) (-1))) by lia.
      destruct (extend_match_spec
                  (Py.str_slice text (Z.of_nat s) (Z.of_nat i + 1)) rg Hrg)
        as (flag & cur' & -> & Hcur' & Ht & Hfl).
      rewrite bind_of_Ok. cbv beta iota. destruct flag.
      + assert (Hnew : check cur'.2 (Py.str_slice text (Z.of_nat s)
                                      (Z.of_nat (S i))) = Ok true).
        { replace (Z.of_nat (S i)) with (Z.of_nat i + 1)%Z by lia.
          by apply Ht. }
        right. exists s, cur'. split_and!; [done|lia|done|done|done|].
        intros j Hj. destruct (decide (j = S i)) as [-> | Hne].
        * by exists cur'.
        * apply Hpre. lia.
      + rewrite (Hfl eq_refl).
        destruct (IH (Py.str_slice text (Z.of_nat i)
                        (Py.len (Py.chars text)))) as (rest & -> & Hrest).
        { assert (String.length (Py.str_slice text (Z.of_nat i)
                    (Py.len (Py.chars text))) < String.length text); [|lia].
          apply slice_shorter; [lia|]. intros ->. simpl in Hlen. lia. }
        rewrite bind_of_Ok. cbn [scan_invariant].
        constructor; [|done]. split_and!.
        * simpl. intros Hempty.
          apply (f_equal String.length) in Hempty.
          rewrite str_slice_length in Hempty; [simpl in Hempty|lia|lia]. lia.
        * exists rg. by split_and!.
        * simpl. intros k Hk. rewrite str_slice_length in Hk by lia.
          rewrite str_slice_prefix by lia. apply Hpre. lia. }
  specialize (Hloop H0 Hstep).
  destruct (for_each _ _ _) as [st|e]; [|done].
  rewrite bind_of_Ok. destruct st as [start cur|tokens];
    [|by exists tokens].
  destruct Hloop as [-> | (s & rg & -> & Hs & -> & Hrg & Hchk & Hpre)].
  - destruct cur; by exists [].
  - rewrite (proj2 (Z.eqb_neq (Z.of_nat s) (-1))) by lia. cbn [negb].
    eexists. split; [done|]. constructor; [|done].
    rewrite chars_length in Hs, Hpre. unfold Py.len. rewrite chars_length.
    rewrite chars_length in Hchk. split_and!.
    + simpl. intros Hempty. apply (f_equal String.length) in Hempty.
      rewrite str_slice_length in Hempty; [simpl in Hempty|lia|lia]. lia.
    + exists rg. by split_and!.
    + simpl. intros k Hk. rewrite str_slice_length in Hk by lia.
      rewrite str_slice_prefix by lia. apply Hpre. lia.
Qed.

End lexer.

(** X27.  [scan] always returns, and every token it returns is sound.
    For a lexer whose regular expressions have well-formed automata (as
    every compiled regular expression has) and for every text, [scan]
    raises nothing and its recursion on the rest of the text ends; every
    token it returns has a non-empty value, carries the name of one of the
    regular expressions of the lexer, and its value is accepted in full by
    that regular expression.  Moreover every non-empty prefix of the value
    of a token is accepted by some regular expression of the lexer: a token
    starts only at a character that a regular expression accepts on its
    own, and grows only while a regular expression accepts all of it. *)
Theorem scan_returns_sound_tokens (regexes : list regex_object)
    (text : string) :
  (∀ regex, regex ∈ regexes → wf (automaton regex.2)) →
  ∃ tokens, scan (S (String.length text)) regexes text = Ok tokens ∧
            Forall (sound_token regexes) tokens.
Proof.
  intros Hwf. apply scan_total; [|lia].
  intros regex Hr s. by apply (check_wf regex.2 s (Hwf regex Hr)).
Qed.

End LexerFacts.
(** ** Edge cases: empty groups, operands of a collation *)

Module EdgeFacts.
Import Automata Build Operators RegularExpressions Notions PassNotions Segments.
Import LoopFacts PassFacts PipelineFacts.
Local Open Scope string_scope.
Local Open Scope list_scope.

(** X28.  Empty groups end in [IndexError], not in a parse error.
    [_process] on the empty group raises [IndexError] (every pass returns
    the empty list, and [group[0]] fails); hence compiling the empty
    pattern raises [IndexError]; and so does [_process] on every group
    that holds an empty nested list, as the text [a()b] gives, when the
    items before it are neither backslashes, closing brackets nor nested
    lists and the items behind it are neither backslashes nor closing
    brackets. *)
Theorem empty_group_index_error (fuel : nat) :
  _process (S fuel) [] = Raise IndexError ∧
  (∀ name, RegEx_init EmptyString name = Raise IndexError) ∧
  ∀ before after : list item,
    Forall (fun x => eq_str x "\" = false ∧ eq_str x "]" = false ∧
                     ∀ l, x ≠ Lst l) before →
    Forall (fun x => eq_str x "\" = false ∧ eq_str x "]" = false) after →
    _process (S (S fuel)) (before ++ [Lst []] ++ after) = Raise IndexError.
Proof.
  split_and!; [done|done|].
  intros before after Hb Ha. rewrite process_unfold.
  assert (Hall : Forall (fun x => eq_str x "\" = false ∧ eq_str x "]" = false)
                   (before ++ [Lst []] ++ after)).
  { apply Forall_app. split.
    - eapply Forall_impl; [exact Hb|]. by intros x (? & ? & _).
    - apply Forall_app. split; [by repeat constructor|done]. }
  rewrite escape_items, bind_of_Ok.
  2:{ eapply Forall_impl; [exact Hall|]. by intros x [? _]. }
  rewrite collate_items, bind_of_Ok.
  2:{ eapply Forall_impl; [exact Hall|]. by intros x [_ ?]. }
  rewrite process_sublists_map, map_result_app.
  assert (Hbefore : map_result (sublist_result (_process (S fuel))) before
                    = Ok before).
  { clear -Hb. induction Hb as [|x l (_ & _ & Hx) _ IH]; [done|].
    destruct x as [s|l'|o]; [|by destruct (Hx l')|];
      cbn [map_result sublist_result]; by rewrite bind_of_Ok, IH. }
  rewrite Hbefore, bind_of_Ok.
  change ([Lst []] ++ after) with (Lst [] :: after).
  cbn [map_result sublist_result].
  by change (_process (S fuel) []) with (Raise IndexError : result item).
Qed.

(** X22.  A collation needs two characters when it is executed.  The
    constructor accepts any two [str] operands; [execute] calls [ord] on
    both, so unless each operand is a [str] of exactly one character,
    [execute] raises [TypeError] and no automaton is built. *)
Theorem collation_needs_characters (first last : item) :
  ¬ (single_character first ∧ single_character last) →
  all_characters first last = Raise TypeError ∧
  execute (Collation first last) = Raise TypeError.
Proof.
  intros Hn.
  assert (H : all_characters first last = Raise TypeError).
  { unfold all_characters.
    destruct first as [[|c [|c' s]]|l|o]; try done.
    destruct last as [[|d [|d' s]]|l|o]; try done.
    destruct Hn. split; by eexists. }
  split; [done|]. cbn [execute]. by rewrite H.
Qed.

End EdgeFacts.
(** ** Operators without their operands *)

Module StrayFacts.
Import Operators RegularExpressions PassNotions Segments.
Import LoopFacts SliceFacts UnaryFacts ConcatFacts.
Local Open Scope string_scope.
Local Open Scope list_scope.
Local Open Scope nat_scope.

Lemma getitem_last {A : Type} (l : list A) (y : A) :
  Py.getitem (l ++ [y]) (-1) = Ok y.
Proof.
  unfold Py.getitem, Py.len. cbv zeta. change (-1 <? 0)%Z with true. cbv iota.
  rewrite length_app. simpl length.
  rewrite (proj2 (Z.ltb_ge (-1 + Z.of_nat (length l + 1)) 0)) by lia.
  replace (Z.to_nat (-1 + Z.of_nat (length l + 1))) with (length l) by lia.
  by rewrite list_lookup_middle.
Qed.

Lemma setslice_last {A : Type} (l : list A) (y : A) (new : list A) :
  l ≠ [] → Py.setslice (l ++ [y]) (-1) 1 new = l ++ new ++ [y].
Proof.
  intros Hl. assert (0 < length l) by (destruct l; [done|simpl; lia]).
  unfold Py.setslice, Py.clamp, Py.len. cbv zeta.
  change (-1 <? 0)%Z with true. change (1 <? 0)%Z with false. cbv iota.
  rewrite length_app. simpl length.
  rewrite Z.max_r by lia. rewrite Z.min_l by lia. rewrite Z.max_l by lia.
  replace (Z.to_nat (-1 + Z.of_nat (length l + 1))) with (length l) by lia.
  by rewrite take_app_length, drop_app_length.
Qed.

Section stray.
Variable process : list item → result item.

Lemma unary_operands_loop (l : list item) (k : nat) (cp : list item) (c : Z) :
  Forall (operand unary_operators) l →
  for_each (enum_from k l) (cp, c) (unary_body process) = Ok (cp, c).
Proof.
  intros Hl. revert k. induction Hl as [|x l Hx _ IH]; intros k; [done|].
  rewrite enum_from_cons. cbn [for_each].
  rewrite unary_step_operand by done. apply IH.
Qed.

(** X29.  A postfix character with no operand before it takes the last
    item of the group.  When the group starts with one of [+], [?], [*]
    and goes on with operands, [_to_unary_operators] raises nothing: the
    index of the missing operand is [-1], which Python reads from the end,
    so the node is built over the last item of the group and inserted in
    front of it, while the stray character and the last item both stay.
    A group that holds nothing but the character yields the node over the
    character itself. *)
Theorem stray_postfix_operator (p : postfix) (g : list item) (y : item) :
  Forall (operand unary_operators) g → operand unary_operators y →
  _to_unary_operators process (Str (postfix_char p) :: g ++ [y])
  = Ok (Str (postfix_char p) :: g ++ [Op (postfix_node p y); y]) ∧
  _to_unary_operators process [Str (postfix_char p)]
  = Ok [Op (postfix_node p (Str (postfix_char p)))].
Proof.
  intros Hg Hy. split; [|by destruct p].
  rewrite unary_loop_body, enumerate_enum_from, enum_from_cons.
  cbn [for_each].
  assert (Hstep :
    unary_body process (Str (postfix_char p) :: g ++ [y], 0%Z)
      (Z.of_nat 0, Str (postfix_char p))
    = Ok (Str (postfix_char p) :: g ++ [Op (postfix_node p y); y], 1%Z)).
  { cbn [unary_body].
    destruct (postfix_new p y (operand_not_list _ y Hy)) as (cls & -> & Hcls).
    change (Z.of_nat 0 - 1 - 0)%Z with (-1)%Z.
    change (Z.of_nat 0 + 1 - 0)%Z with 1%Z.
    change (Str (postfix_char p) :: g ++ [y])
      with ((Str (postfix_char p) :: g) ++ [y]).
    rewrite getitem_last. unfold mbind, result_bind. cbv beta iota.
    rewrite Hcls. by rewrite setslice_last. }
  rewrite Hstep. rewrite unary_operands_loop; [done|].
  apply Forall_app. split; [done|by constructor].
Qed.

(** X30.  A bar with nothing behind it ends in [IndexError].  When the
    group is a chain of operands with one bar between any two of them,
    followed by one more bar, [_alternate] builds the alternation of the
    chain and then, at the last bar, reads the item behind it: the pass
    raises [IndexError], not a parse error. *)
Theorem trailing_bar_index_error (x : item) (xs : list item) :
  operand binary_operators x → Forall (operand binary_operators) xs →
  _alternate process (x :: flat_map (fun y => [Str "|"; y]) xs ++ [Str "|"])
  = Raise IndexError.
Proof.
  intros Hx Hxs. rewrite alternate_loop_body, enumerate_enum_from.
  rewrite enum_from_cons. cbn [for_each].
  rewrite alternate_step_operand by done.
  rewrite enum_from_app, for_each_app.
  change 0%Z with (Z.of_nat 0).
  rewrite (alternate_loop process xs [Str "|"] 1 0 x eq_refl
             (operand_not_list _ x Hx) Hxs).
  cbn [enum_from imap for_each app].
  rewrite (alternate_step_last process (alternate_chain x xs)
             (1 + length (flat_map (fun y => [Str "|"; y]) xs) + 0)
             (0 + 2 * length xs)); [done|].
  rewrite length_flat_map_bars. lia.
Qed.

End stray.
End StrayFacts.

Module StrayWitnesses.
Import Operators RegularExpressions PassNotions Segments StrayFacts.
Local Open Scope string_scope.
Local Open Scope list_scope.

Lemma a_unary_operands : Forall (operand unary_operators) [Str "a"].
Proof. repeat constructor. Qed.

Lemma b_unary_operand : operand unary_operators (Str "b").
Proof. repeat constructor. Qed.

Lemma stray_postfix_operator_witness :
  _to_unary_operators (fun _ => Raise TypeError) [Str "*"; Str "a"; Str "b"]
  = Ok [Str "*"; Str "a"; Op (KleeneStar (Str "b")); Str "b"] ∧
  _to_unary_operators (fun _ => Raise TypeError) [Str "*"]
  = Ok [Op (KleeneStar (Str "*"))].
Proof.
  exact (stray_postfix_operator (fun _ => Raise TypeError) PStar [Str "a"]
           (Str "b") a_unary_operands b_unary_operand).
Defined.

Lemma a_binary_operand : operand binary_operators (Str "a").
Proof. repeat constructor. Qed.

Lemma b_binary_operands : Forall (operand binary_operators) [Str "b"].
Proof. repeat constructor. Qed.

Lemma trailing_bar_index_error_witness :
  _alternate (fun _ => Raise TypeError) [Str "a"; Str "|"; Str "b"; Str "|"]
  = Raise IndexError.
Proof.
  exact (trailing_bar_index_error (fun _ => Raise TypeError) (Str "a")
           [Str "b"] a_binary_operand b_binary_operands).
Defined.

End StrayWitnesses.
(** ** Instances *)

Module PassWitnesses.
Import Automata Build Operators RegularExpressions Notions Nesting.
Import PassNotions Segments Brackets.
Import CollateFacts UnaryFacts ConcatFacts PipelineFacts NodeFacts BracketFacts
  EdgeFacts.
Local Open Scope string_scope.
Local Open Scope list_scope.

Lemma two_brackets_ok :
  Forall collate_ok [CBracket "a" "b"; CItem (Str "x"); CBracket "c" "d"].
Proof. repeat constructor; done. Qed.

Lemma collate_brackets_witness :
  _collate [Str "["; Str "a"; Str "-"; Str "b"; Str "]"; Str "x";
            Str "["; Str "c"; Str "-"; Str "d"; Str "]"]
  = Ok [Op (Collation (Str "a") (Str "b")); Str "x";
        Op (Collation (Str "c") (Str "d"))].
Proof.
  exact (collate_brackets
           [CBracket "a" "b"; CItem (Str "x"); CBracket "c" "d"]
           two_brackets_ok).
Defined.



Lemma star_plus_operand :
  Forall (fun s : item * list postfix => operand unary_operators s.1)
    [(Str "a", [PStar; PPlus])].
Proof. repeat constructor. Qed.

Lemma unary_postfix_chains_witness :
  _to_unary_operators (fun _ => Raise TypeError) [Str "a"; Str "*"; Str "+"]
  = Ok [Op (KleenePlus (Op (KleeneStar (Str "a"))))].
Proof.
  exact (unary_postfix_chains (fun _ => Raise TypeError)
           [(Str "a", [PStar; PPlus])] star_plus_operand).
Defined.

Lemma abc_run_ok : run_ok (Str "a", [Str "b"; Str "c"]).
Proof. split; repeat constructor. Qed.

Lemma d_runs_ok : Forall run_ok [(Str "d", [])].
Proof. repeat constructor. Qed.

Lemma concatenate_runs_witness :
  _concatenate (fun _ => Raise TypeError)
    [Str "a"; Str "b"; Str "c"; Str "|"; Str "d"]
  = Ok [Op (Concatenation (Op (Concatenation (Str "a") (Str "b"))) (Str "c"));
        Str "|"; Str "d"].
Proof.
  exact (concatenate_runs (fun _ => Raise TypeError)
           (Str "a", [Str "b"; Str "c"]) [(Str "d", [])] abc_run_ok d_runs_ok).
Defined.

Lemma a_operand : operand binary_operators (Str "a").
Proof. done. Qed.

Lemma b_c_operands : Forall (operand binary_operators) [Str "b"; Str "c"].
Proof. repeat constructor. Qed.

Lemma alternate_chains_witness :
  _alternate (fun _ => Raise TypeError)
    [Str "a"; Str "|"; Str "b"; Str "|"; Str "c"]
  = Ok [Op (Alternation (Op (Alternation (Str "a") (Str "b"))) (Str "c"))].
Proof.
  exact (alternate_chains (fun _ => Raise TypeError) (Str "a")
           [Str "b"; Str "c"] a_operand b_c_operands).
Defined.

Lemma first_run_ok : atoms_ok (("a", [PStar]), [("b", [])]).
Proof. repeat constructor; done. Qed.

Lemma more_runs_ok : Forall atoms_ok [(("c", []), [])].
Proof. repeat constructor; done. Qed.

Lemma flat_pattern_parses_witness :
  _process 1 [Str "a"; Str "*"; Str "b"; Str "|"; Str "c"]
  = Ok (Op (Alternation
              (Op (Concatenation (Op (KleeneStar (Str "a"))) (Str "b")))
              (Str "c"))).
Proof.
  exact (flat_pattern_parses 0 (("a", [PStar]), [("b", [])])
           [(("c", []), [])] first_run_ok more_runs_ok).
Defined.

Lemma process_single_a : _process 1 [Str "a"] = Ok (Op (Single (Str "a"))).
Proof. reflexivity. Qed.

Lemma process_returns_node_witness :
  ∃ o, Op (Single (Str "a")) = Op o.
Proof. exact (process_returns_node 1 [Str "a"] _ process_single_a). Defined.

Lemma nested_grouped : grouped [Str "a"; Lst [Str "b"; Lst []]; Str "c"].
Proof. simpl. split_and!; try done; by eexists. Qed.

Lemma extract_bracket_reads_back_witness :
  _extract_bracket (parse_fuel "a(b())c") "a(b())c"
  = Ok [Str "a"; Lst [Str "b"; Lst []]; Str "c"].
Proof.
  exact (proj2 (extract_bracket_reads_back
                  [Str "a"; Lst [Str "b"; Lst []]; Str "c"] nested_grouped)).
Defined.

Lemma long_operand :
  ¬ (single_character (Str "ab") ∧ single_character (Str "c")).
Proof. intros [[c Hc] _]. done. Qed.

Lemma collation_needs_characters_witness :
  all_characters (Str "ab") (Str "c") = Raise TypeError ∧
  execute (Collation (Str "ab") (Str "c")) = Raise TypeError.
Proof. exact (collation_needs_characters (Str "ab") (Str "c") long_operand). Defined.

End PassWitnesses.

Module PDAWitnesses.
Import PDA PDADriver PDADriverFacts.
Local Open Scope string_scope.

Lemma reader_epsilon_free : epsilon_free reader_pda.
Proof.
  intros q t. unfold reader_pda. simpl.
  rewrite lookup_insert_ne by (intros [= _ ? _]; done). apply lookup_empty.
Qed.

Lemma failed_fresh : fresh_failed_state failed_pda.
Proof.
  split.
  - simpl. set_solver.
  - intros input symbol. simpl.
    rewrite lookup_insert_ne by (intros [= ? _ _]; done). apply lookup_empty.
Qed.

Lemma failure_is_final_witness :
  ∃ p', _process 1 failed_pda ["a"] = Ok p' ∧
        current p' = failed_state p' ∧
        accepted p' = false ∧
        (["a"] ≠ [] → processed_all p' = false).
Proof. exact (failure_is_final 0 failed_pda ["a"] failed_fresh eq_refl). Defined.

Lemma epsilon_free_terminates_witness :
  ∃ p', _process (S (length ["a"; "a"])) reader_pda ["a"; "a"] = Ok p'.
Proof. exact (epsilon_free_terminates reader_pda ["a"; "a"] reader_epsilon_free). Defined.

Lemma spinning_top : "Z" ≠ empty_symbol spinning_pda.
Proof. done. Qed.

Lemma spinning_not_failed : current spinning_pda ≠ failed_state spinning_pda.
Proof. done. Qed.

Lemma spinning_transition :
  table spinning_pda !! (current spinning_pda, empty_symbol spinning_pda, "Z")
  = Some (current spinning_pda, ["Z"]).
Proof. vm_compute. reflexivity. Qed.

Lemma epsilon_loop_diverges_witness :
  _access spinning_pda "a" = (false, spinning_pda) ∧
  _process 5 spinning_pda ["a"] = Raise FuelExhausted.
Proof.
  exact (epsilon_loop_diverges 5 spinning_pda [] "Z" "a" [] eq_refl
           spinning_top spinning_not_failed spinning_transition).
Defined.

End PDAWitnesses.

Module LexerWitnesses.
Import Automata Invariants RegularExpressions Language Lexers.
Import ProducedFacts Main LexerFacts.
Local Open Scope string_scope.

Lemma integer_lexer_wf :
  ∀ regex : regex_object, regex ∈ [(0, compiled INTEGER)] →
    wf (automaton regex.2).
Proof.
  intros regex ->%list_elem_of_singleton. simpl.
  exact (proj1 (RegEx_init_good "[0-9]+" "INTEGER" (compiled INTEGER)
                  INTEGER_compiled)).
Qed.

Lemma scan_returns_sound_tokens_witness :
  ∃ tokens, scan (S (String.length "12 7")) [(0, compiled INTEGER)] "12 7"
            = Ok tokens ∧
            Forall (sound_token [(0, compiled INTEGER)]) tokens.
Proof.
  exact (scan_returns_sound_tokens [(0, compiled INTEGER)] "12 7"
           integer_lexer_wf).
Defined.

End LexerWitnesses.
